(** * EPGStation reservation planner: [ReservationManager.ts]

    A shallow embedding of [src/server/Operator/ReservationManager.ts] and
    the properties of its conflict resolver and of its public operations.

    Conventions of the embedding.
    - JavaScript numbers that hold identifiers and epoch milliseconds are
      integers far below 2^53, so they are modelled by [Z]; the comparators
      subtract them exactly.
    - An optional property ([ruleId?], [manualId?], [encodeOption?]) is an
      [option]; [None] is [undefined].
    - Plain objects used as dictionaries ([skipIndex], [programIndex]) and
      the option objects built from a rule are [gmap]s.
    - [Array.prototype.sort] is a stable sort (ECMAScript 2019); a comparator
      result of [NaN] counts as [+0].
    - An operation runs to its end before another caller gets in: an
      [await] is not a point of interleaving in the model. A call whose
      promise is dropped ([updateAll] from [cancel], [updateRule] from
      [removeSkip]) runs right after the body of its caller.
    - Writing the document does not fail. The logger and the IPC
      notification have no effect on the planner state and are left out. *)

From Stdlib Require Import ZArith Lia Sorted Permutation.
From stdpp Require Import base option list gmap strings.

Local Open Scope Z_scope.

(** ** Array.prototype.sort *)

Section js_sort.
Context {A : Type} (cmp : A → A → Z).

(** [x] stood before every element of [l] in the array, so it stays in
    front of the elements it ties with. *)
Fixpoint js_insert (x : A) (l : list A) : list A :=
  match l with
  | [] => [x]
  | y :: l' => if cmp x y <=? 0 then x :: l else y :: js_insert x l'
  end.

Definition js_sort (l : list A) : list A := foldr js_insert [] l.

Definition cmp_le (x y : A) : Prop := cmp x y ≤ 0.

(** Of two elements, one is not after the other. *)
Definition cmp_total : Prop := ∀ x y, 0 < cmp x y → cmp y x ≤ 0.
End js_sort.

(** ** Data model *)

Inductive ChannelType := GR | BS | CS | SKY.

Global Instance ChannelType_eq_dec : EqDecision ChannelType.
Proof. solve_decision. Defined.

Module ProgramSchema.
Record t := mk {
  id : Z;
  startAt : Z;
  endAt : Z;
  channelType : ChannelType;
  name : string;
}.
End ProgramSchema.

(** A JavaScript value stored in a column of the rules table or in a
    property of an option object. *)
Inductive value :=
  | VNull
  | VBool (b : bool)
  | VNum (n : Z)
  | VStr (s : string).

Definition is_null (v : value) : bool :=
  match v with VNull => true | _ => false end.

(** [SearchInterface], [OptionInterface] and [EncodeInterface] are objects
    whose properties are all optional but one: a finite map from the
    property name to its value. *)
Abbreviation SearchInterface := (gmap string value).
Abbreviation OptionInterface := (gmap string value).
Abbreviation EncodeInterface := (gmap string value).

Module RulesSchema.
Record t := mk {
  id : Z;
  keyword : value;
  ignoreKeyword : value;
  keyCS : value;
  keyRegExp : value;
  title : value;
  description : value;
  extended : value;
  GR : value;
  BS : value;
  CS : value;
  SKY : value;
  station : value;
  genrelv1 : value;
  genrelv2 : value;
  startTime : value;
  timeRange : value;
  week : Z;
  isFree : value;
  durationMin : value;
  durationMax : value;
  enable : bool;
  directory : value;
  recordedFormat : value;
  mode1 : value;
  directory1 : value;
  mode2 : value;
  directory2 : value;
  mode3 : value;
  directory3 : value;
  delTs : value;
}.
End RulesSchema.

Record ReserveProgram := mkReserve {
  program : ProgramSchema.t;
  ruleId : option Z;
  ruleOption : option OptionInterface;
  encodeOption : option EncodeInterface;
  isSkip : bool;
  isManual : bool;
  manualId : option Z;
  isConflict : bool;
}.

Definition set_isConflict (b : bool) (r : ReserveProgram) : ReserveProgram :=
  mkReserve (program r) (ruleId r) (ruleOption r) (encodeOption r)
            (isSkip r) (isManual r) (manualId r) b.

Definition set_isSkip (b : bool) (r : ReserveProgram) : ReserveProgram :=
  mkReserve (program r) (ruleId r) (ruleOption r) (encodeOption r)
            b (isManual r) (manualId r) (isConflict r).

Definition set_program (p : ProgramSchema.t) (r : ReserveProgram) : ReserveProgram :=
  mkReserve p (ruleId r) (ruleOption r) (encodeOption r)
            (isSkip r) (isManual r) (manualId r) (isConflict r).

Definition programId (r : ReserveProgram) : Z := ProgramSchema.id (program r).

(** ** Tuner *)

Record TunerDevice := mkDevice {
  dev_index : Z;
  dev_types : list ChannelType;
}.

Module Tuner.
(** Modelled from the spec: [Tuner.ts] is not among the sources. Section 3:
    a tuner is its descriptor, the index and the channel types it receives,
    and the programs it holds for the time being. *)
Record t := mk {
  index : Z;
  types : list ChannelType;
  programs : list ProgramSchema.t;
}.

(** Modelled from the spec: [new Tuner(device)] takes the descriptor and
    holds nothing. *)
Definition create (d : TunerDevice) : t :=
  mk (dev_index d) (dev_types d) [].

(** Modelled from the spec: section 4.A, two programs overlap as half-open
    intervals [startAt, endAt). *)
Definition overlaps (p q : ProgramSchema.t) : bool :=
  (ProgramSchema.startAt p <? ProgramSchema.endAt q)
  && (ProgramSchema.startAt q <? ProgramSchema.endAt p).

(** Modelled from the spec: section 4.A, the channel type of the program
    is one the tuner receives and the program overlaps none of the programs
    the tuner holds. *)
Definition accepts (tn : t) (p : ProgramSchema.t) : bool :=
  bool_decide (ProgramSchema.channelType p ∈ types tn)
  && forallb (λ q, negb (overlaps p q)) (programs tn).

(** Modelled from the spec: section 4.A, [add] succeeds iff the tuner
    accepts the program; it then appends the program, and otherwise throws
    and leaves the tuner as it was. [None] is the exception. *)
Definition add (tn : t) (p : ProgramSchema.t) : option t :=
  if accepts tn p then Some (mk (index tn) (types tn) (programs tn ++ [p]))
  else None.

(** Modelled from the spec: [clear] discards the held programs. *)
Definition clear (tn : t) : t := mk (index tn) (types tn) [].
End Tuner.

(** ** The conflict resolver *)

(** NaN (a missing identifier) is taken as +0 by the sort. *)
Definition js_sub (a b : option Z) : Z :=
  match a, b with
  | Some x, Some y => x - y
  | _, _ => 0
  end.

Definition sortReserveProgram (a b : ReserveProgram) : Z :=
  if isManual a && isManual b then js_sub (manualId a) (manualId b)
  else if isManual a && negb (isManual b) then -1
  else if negb (isManual a) && isManual b then 1
  else if negb (isManual a) && negb (isManual b) then js_sub (ruleId a) (ruleId b)
  else 0.

Record SweepEvent := mkEvent {
  time : Z;
  isStart : bool;
  idx : nat;
}.

(** The loop that fills [list]: [i] is the index of the head of [matches]
    in the whole array. *)
Fixpoint buildList (matches : list ReserveProgram) (i : nat)
    (programIndex : gmap Z bool) : list SweepEvent :=
  match matches with
  | [] => []
  | m :: rest =>
      match programIndex !! programId m with
      | None =>
          mkEvent (ProgramSchema.startAt (program m)) true i
          :: mkEvent (ProgramSchema.endAt (program m)) false i
          :: buildList rest (S i) (<[programId m := true]> programIndex)
      | Some _ => buildList rest (S i) programIndex
      end
  end.

(** The inner loop over the tuners: the first tuner whose [add] does not
    throw takes the program; [None] when every tuner throws. *)
Fixpoint addToTuners (tuners : list Tuner.t) (p : ProgramSchema.t)
    : option (list Tuner.t) :=
  match tuners with
  | [] => None
  | tn :: rest =>
      match Tuner.add tn p with
      | Some tn' => Some (tn' :: rest)
      | None => cons tn <$> addToTuners rest p
      end
  end.

(** The loop over the active reservations; an entry of the active set is
    the pair of the reservation object and its index in [matches]. Of the
    object only the origin and its id are read, which the sweep never
    changes; the flags are read and written through the index. Every index
    comes from [buildList], so the branch of an index outside [matches] is
    never taken. *)
Fixpoint evaluate (tuners : list Tuner.t) (matches : list ReserveProgram)
    (reserves : list (ReserveProgram * nat))
    : list Tuner.t * list ReserveProgram :=
  match reserves with
  | [] => (tuners, matches)
  | r :: rest =>
      match matches !! r.2 with
      | None => evaluate tuners matches rest
      | Some m =>
          if isSkip m then evaluate tuners matches rest
          else match addToTuners tuners (program m) with
               | Some tuners' => evaluate tuners' matches rest
               | None => evaluate tuners (<[r.2 := set_isConflict true m]> matches) rest
               end
      end
  end.

Record Sweep := mkSweep {
  sw_tuners : list Tuner.t;
  sw_matches : list ReserveProgram;
  sw_reserves : list (ReserveProgram * nat);
}.

(** The active set after the push or the filter, and after the sort. *)
Definition nextActive (reserves : list (ReserveProgram * nat))
    (m : ReserveProgram) (l : SweepEvent) : list (ReserveProgram * nat) :=
  js_sort (λ a b, sortReserveProgram a.1 b.1)
    (if isStart l then reserves ++ [(m, idx l)]
     else filter (λ r, r.2 ≠ idx l) reserves).

(** The body of the loop over the events. *)
Definition sweepStep (s : Sweep) (l : SweepEvent) : Sweep :=
  match sw_matches s !! idx l with
  | None => s
  | Some m =>
      if isSkip m then s
      else
        let reserves := nextActive (sw_reserves s) m l in
        let cleared := Tuner.clear <$> sw_tuners s in
        let '(tuners, matches) := evaluate cleared (sw_matches s) reserves in
        mkSweep tuners matches reserves
  end.

Definition sweep (tuners : list Tuner.t) (matches : list ReserveProgram)
    (list : list SweepEvent) : Sweep :=
  fold_left sweepStep list (mkSweep tuners matches []).

Definition byStartAt (a b : ReserveProgram) : Z :=
  ProgramSchema.startAt (program a) - ProgramSchema.startAt (program b).

Definition sortedEvents (matches : list ReserveProgram) : list SweepEvent :=
  js_sort (λ a b, time a - time b) (buildList matches 0 ∅).

(** [createReserves] returns the new list; the tuners it has used are part
    of the planner state, so they are returned too. *)
Definition createReserves (tuners : list Tuner.t) (matches : list ReserveProgram)
    : list Tuner.t * list ReserveProgram :=
  let matches := js_sort sortReserveProgram matches in
  let list := sortedEvents matches in
  let s := sweep tuners matches list in
  let newReserves :=
    omap (λ l, if isStart l then sw_matches s !! idx l else None) list in
  (sw_tuners s, js_sort byStartAt newReserves).

(** ** The rule-to-query adapter *)

(** [if(rule.f !== null) { o.f = rule.f }] *)
Definition copyNonNull (k : string) (v : value) (o : gmap string value)
    : gmap string value :=
  if is_null v then o else <[k := v]> o.

Definition createSearchOption (rule : RulesSchema.t) : SearchInterface :=
  let search : gmap string value := {[ "week" := VNum (RulesSchema.week rule) ]} in
  let search := copyNonNull "keyword" (RulesSchema.keyword rule) search in
  let search := copyNonNull "ignoreKeyword" (RulesSchema.ignoreKeyword rule) search in
  let search := copyNonNull "keyCS" (RulesSchema.keyCS rule) search in
  let search := copyNonNull "keyRegExp" (RulesSchema.keyRegExp rule) search in
  let search := copyNonNull "title" (RulesSchema.title rule) search in
  let search := copyNonNull "description" (RulesSchema.description rule) search in
  let search := copyNonNull "extended" (RulesSchema.extended rule) search in
  let search := copyNonNull "GR" (RulesSchema.GR rule) search in
  let search := copyNonNull "BS" (RulesSchema.BS rule) search in
  let search := copyNonNull "CS" (RulesSchema.CS rule) search in
  let search := copyNonNull "SKY" (RulesSchema.SKY rule) search in
  let search := copyNonNull "station" (RulesSchema.station rule) search in
  let search := copyNonNull "genrelv1" (RulesSchema.genrelv1 rule) search in
  let search := copyNonNull "genrelv2" (RulesSchema.genrelv2 rule) search in
  let search := copyNonNull "startTime" (RulesSchema.startTime rule) search in
  let search := copyNonNull "timeRange" (RulesSchema.timeRange rule) search in
  let search := copyNonNull "isFree" (RulesSchema.isFree rule) search in
  let search := copyNonNull "durationMin" (RulesSchema.durationMin rule) search in
  let search := copyNonNull "durationMax" (RulesSchema.durationMax rule) search in
  search.

Definition createOption (rule : RulesSchema.t) : OptionInterface :=
  let option : gmap string value := {[ "enable" := VBool (RulesSchema.enable rule) ]} in
  let option := copyNonNull "directory" (RulesSchema.directory rule) option in
  let option := copyNonNull "recordedFormat" (RulesSchema.recordedFormat rule) option in
  option.

Definition createEncodeOption (rule : RulesSchema.t) : option EncodeInterface :=
  if is_null (RulesSchema.delTs rule) then None
  else
    let encode : gmap string value := {[ "delTs" := RulesSchema.delTs rule ]} in
    let encode := copyNonNull "mode1" (RulesSchema.mode1 rule) encode in
    let encode := copyNonNull "directory1" (RulesSchema.directory1 rule) encode in
    let encode := copyNonNull "mode2" (RulesSchema.mode2 rule) encode in
    let encode := copyNonNull "directory2" (RulesSchema.directory2 rule) encode in
    let encode := copyNonNull "mode3" (RulesSchema.mode3 rule) encode in
    let encode := copyNonNull "directory3" (RulesSchema.directory3 rule) encode in
    Some encode.

(** ** The planner state and its collaborators *)

Inductive Error :=
  | ReservationManagerIsRunning
  | ReservationManagerUpdateManualIsRunning
  | ReservationManagerAddFailed
  | ProgramIsNotFound
  | ReservationManagerAddReserveConflict
  | DBError (code : Z).

Definition isRunningError (e : Error) : bool :=
  match e with
  | ReservationManagerIsRunning | ReservationManagerUpdateManualIsRunning => true
  | _ => false
  end.

(** What the collaborators answer during one operation: the catalogue
    ([programDB]), the rule store ([rulesDB]), the clock and the validator
    of encode options. [inl] is a rejected promise. *)
Record Env := mkEnv {
  programDB_findId : Z → Error + list ProgramSchema.t;
  programDB_findRule : SearchInterface → Error + list ProgramSchema.t;
  rulesDB_findAll : Error + list RulesSchema.t;
  rulesDB_findId : Z → Error + list RulesSchema.t;
  getTime : Z;
  checkEncodeOption : EncodeInterface → bool;
}.

(** [written] is the history of the persisted document, newest first:
    [writeReservesFile] overwrites the file with the list it is given. *)
Record State := mkState {
  isRunning : bool;
  reserves : list ReserveProgram;
  tuners : list Tuner.t;
  written : list (list ReserveProgram);
}.

Definition set_isRunning (b : bool) (s : State) : State :=
  mkState b (reserves s) (tuners s) (written s).
Definition set_reserves (rs : list ReserveProgram) (s : State) : State :=
  mkState (isRunning s) rs (tuners s) (written s).
Definition set_tuners (ts : list Tuner.t) (s : State) : State :=
  mkState (isRunning s) (reserves s) ts (written s).
Definition writeReservesFile (s : State) : State :=
  mkState (isRunning s) (reserves s) (tuners s) (reserves s :: written s).

(** [this.reserves = this.createReserves(matches)]: besides the list, the
    call leaves its last allocation in the tuners. *)
Definition commitReserves (matches : list ReserveProgram) (s : State) : State :=
  let '(ts, rs) := createReserves (tuners s) matches in
  set_reserves rs (set_tuners ts s).

(** An operation ends with a value or with a thrown error, and with the
    state it has reached either way. *)
Definition M (A : Type) : Type := State → (Error + A) * State.

Global Instance M_ret : MRet M := λ A a s, (inr a, s).
Global Instance M_bind : MBind M := λ A B k m s,
  match m s with
  | (inl e, s') => (inl e, s')
  | (inr a, s') => k a s'
  end.

Definition throw {A} (e : Error) : M A := λ s, (inl e, s).
Definition gets {A} (f : State → A) : M A := λ s, (inr (f s), s).
Definition modify (f : State → State) : M unit := λ s, (inr (), f s).

(** A call whose promise is dropped: the caller goes on whatever the
    callee's outcome. The callee is run to its end before any other caller
    gets in: the state after the call is the state once the callee has
    finished. What a reader could see while the callee is still running
    (the flag set, programs replaced in place before the new list is
    committed) is not a state of this model. *)
Definition spawn {A} (m : M A) : M unit := λ s, (inr (), (m s).2).

(** [await] of a collaborator's promise with [finalize] in the [catch]. *)
Definition awaitOr {A} (cleanup : State → State) (r : Error + A) : M A :=
  match r with
  | inl e => λ s, (inl e, cleanup s)
  | inr a => mret a
  end.

(** ** Readers *)

Definition getReserve (s : State) (programId' : Z) : option ReserveProgram :=
  List.find (λ r, bool_decide (programId r = programId')) (reserves s).

(** [Array.prototype.slice(start, end)] *)
Definition js_slice {A} (start stop : Z) (l : list A) : list A :=
  let len := Z.of_nat (length l) in
  let k := if start <? 0 then Z.max (len + start) 0 else Z.min start len in
  let final := if stop <? 0 then Z.max (len + stop) 0 else Z.min stop len in
  take (Z.to_nat (final - k)) (drop (Z.to_nat k) l).

Definition limited (limit : option Z) (offset : Z) (l : list ReserveProgram)
    : list ReserveProgram :=
  match limit with
  | None => l
  | Some n => js_slice offset (n + offset) l
  end.

Definition getReservesAll (s : State) (limit : option Z) (offset : Z)
    : list ReserveProgram :=
  limited limit offset (reserves s).

Record ReserveAllItem := mkItem {
  item_programId : Z;
  item_ruleId : option Z;
}.

Record ReserveAllId := mkAllId {
  all_reserves : list ReserveAllItem;
  all_conflicts : list ReserveAllItem;
  all_skips : list ReserveAllItem;
}.

Definition allIdStep (acc : ReserveAllId) (reserve : ReserveProgram) : ReserveAllId :=
  let result := mkItem (programId reserve) (ruleId reserve) in
  if isConflict reserve then
    mkAllId (all_reserves acc) (all_conflicts acc ++ [result]) (all_skips acc)
  else if isSkip reserve then
    mkAllId (all_reserves acc) (all_conflicts acc) (all_skips acc ++ [result])
  else
    mkAllId (all_reserves acc ++ [result]) (all_conflicts acc) (all_skips acc).

Definition getReservesAllId (s : State) : ReserveAllId :=
  fold_left allIdStep (reserves s) (mkAllId [] [] []).

Record ReserveLimit := mkLimit {
  lim_reserves : list ReserveProgram;
  lim_total : nat;
}.

Definition getReserves (s : State) (limit : option Z) (offset : Z) : ReserveLimit :=
  let rs := List.filter (λ r, negb (isConflict r) && negb (isSkip r)) (reserves s) in
  mkLimit (limited limit offset rs) (length rs).

Definition getConflicts (s : State) (limit : option Z) (offset : Z) : ReserveLimit :=
  let rs := List.filter isConflict (reserves s) in
  mkLimit (limited limit offset rs) (length rs).

Definition getSkips (s : State) (limit : option Z) (offset : Z) : ReserveLimit :=
  let rs := List.filter isSkip (reserves s) in
  mkLimit (limited limit offset rs) (length rs).

(** ** Public operations *)

Definition setTuners (devices : list TunerDevice) : M unit :=
  modify (set_tuners (Tuner.create <$> devices)).

Definition clean (env : Env) : M unit :=
  let now := getTime env in
  modify (λ s, set_reserves
    (List.filter (λ r, negb (ProgramSchema.endAt (program r) <? now)) (reserves s)) s).

(** The entry of the record built for each program a rule matches. *)
Definition ruleReserve (rule : RulesSchema.t) (ruleId' : Z)
    (skipIndex : gmap Z bool) (p : ProgramSchema.t) : ReserveProgram :=
  mkReserve p (Some ruleId') (Some (createOption rule)) (createEncodeOption rule)
            (default false (skipIndex !! ProgramSchema.id p))
            false None false.

Definition recordSkip (r : ReserveProgram) (skipIndex : gmap Z bool) : gmap Z bool :=
  if isSkip r then <[programId r := isSkip r]> skipIndex else skipIndex.

(** *** updateAll *)

Record ManualScan := mkScan {
  scan_reserves : list ReserveProgram;
  scan_matches : list ReserveProgram;
  scan_skipIndex : gmap Z bool;
}.

(** The first loop of [updateAll]. A manual reservation whose program the
    catalogue still knows is refreshed in place, in [this.reserves], and
    the same object is pushed onto [matches]. *)
Fixpoint scanManual (env : Env) (rs : list ReserveProgram)
    (matches : list ReserveProgram) (skipIndex : gmap Z bool) : ManualScan :=
  match rs with
  | [] => mkScan [] matches skipIndex
  | r :: rest =>
      let skipIndex := recordSkip r skipIndex in
      if negb (isManual r) || bool_decide (manualId r = None) then
        let sc := scanManual env rest matches skipIndex in
        mkScan (r :: scan_reserves sc) (scan_matches sc) (scan_skipIndex sc)
      else
        match programDB_findId env (programId r) with
        | inr (p :: _) =>
            let r' := set_program p r in
            let sc := scanManual env rest (matches ++ [r']) skipIndex in
            mkScan (r' :: scan_reserves sc) (scan_matches sc) (scan_skipIndex sc)
        | inr [] | inl _ =>
            let sc := scanManual env rest matches skipIndex in
            mkScan (r :: scan_reserves sc) (scan_matches sc) (scan_skipIndex sc)
        end
  end.

(** The second loop of [updateAll], over the rules. *)
Fixpoint scanRules (env : Env) (rules : list RulesSchema.t)
    (skipIndex : gmap Z bool) (matches : list ReserveProgram)
    : list ReserveProgram :=
  match rules with
  | [] => matches
  | rule :: rest =>
      if negb (RulesSchema.enable rule) then scanRules env rest skipIndex matches
      else
        match programDB_findRule env (createSearchOption rule) with
        | inl _ => scanRules env rest skipIndex matches
        | inr programs =>
            scanRules env rest skipIndex
              (matches ++ (ruleReserve rule (RulesSchema.id rule) skipIndex <$> programs))
        end
  end.

Definition updateAll (env : Env) : M unit :=
  running ← gets isRunning;
  if (running : bool) then throw ReservationManagerIsRunning
  else
    modify (set_isRunning true);;
    rs ← gets reserves;
    let sc := scanManual env rs [] ∅ in
    modify (set_reserves (scan_reserves sc));;
    rules ← awaitOr (λ s, s) (rulesDB_findAll env);
    let matches := scanRules env rules (scan_skipIndex sc) (scan_matches sc) in
    modify (commitReserves matches);;
    modify writeReservesFile;;
    modify (set_isRunning false).

(** *** updateRule *)

(** The loop of [updateRule] over [this.reserves]: the skip index, and a
    copy with [isConflict] reset of every reservation of another origin. *)
Fixpoint scanOthers (ruleId' : Z) (rs : list ReserveProgram)
    (skipIndex : gmap Z bool) : list ReserveProgram * gmap Z bool :=
  match rs with
  | [] => ([], skipIndex)
  | r :: rest =>
      let skipIndex := recordSkip r skipIndex in
      let '(matches, skipIndex') := scanOthers ruleId' rest skipIndex in
      if bool_decide (ruleId r ≠ Some ruleId') then
        (set_isConflict false r :: matches, skipIndex')
      else (matches, skipIndex')
  end.

Definition updateRule (env : Env) (ruleId' : Z) : M unit :=
  running ← gets isRunning;
  if (running : bool) then throw ReservationManagerIsRunning
  else
    modify (set_isRunning true);;
    let finalize := set_isRunning false in
    result ← awaitOr finalize (rulesDB_findId env ruleId');
    let rule :=
      match result with
      | r :: _ => if RulesSchema.enable r then Some r else None
      | [] => None
      end in
    programs ← match rule with
               | Some r => awaitOr finalize (programDB_findRule env (createSearchOption r))
               | None => mret []
               end;
    rs ← gets reserves;
    let '(others, skipIndex) := scanOthers ruleId' rs ∅ in
    let matches :=
      match rule with
      | Some r => others ++ (ruleReserve r ruleId' skipIndex <$> programs)
      | None => others
      end in
    modify (commitReserves matches);;
    modify writeReservesFile;;
    modify finalize.

(** *** cancel *)

(** The loop of [cancel]: [Some] of the list after the splice or after the
    skip, when a reservation has the id; [None] when none has. *)
Fixpoint cancelLoop (id' : Z) (rs : list ReserveProgram)
    : option (list ReserveProgram) :=
  match rs with
  | [] => None
  | r :: rest =>
      if bool_decide (programId r = id') then
        if isManual r then Some rest
        else Some (set_isConflict false (set_isSkip true r) :: rest)
      else cons r <$> cancelLoop id' rest
  end.

Definition cancel (env : Env) (id' : Z) : M unit :=
  running ← gets isRunning;
  if (running : bool) then throw ReservationManagerIsRunning
  else
    modify (set_isRunning true);;
    rs ← gets reserves;
    match cancelLoop id' rs with
    | Some rs' =>
        modify (set_reserves rs');;
        modify writeReservesFile;;
        modify (set_isRunning false);;
        spawn (updateAll env)
    | None => modify (set_isRunning false)
    end.

(** *** removeSkip *)

(** The loop of [removeSkip]: the list after the assignment and the
    [ruleId] of the reservation found; [None] when no reservation has the
    id. *)
Fixpoint removeSkipLoop (id' : Z) (rs : list ReserveProgram)
    : option (list ReserveProgram * option Z) :=
  match rs with
  | [] => None
  | r :: rest =>
      if bool_decide (programId r = id') then
        Some (set_isSkip false r :: rest, ruleId r)
      else prod_map (cons r) (λ x, x) <$> removeSkipLoop id' rest
  end.

Definition removeSkip (env : Env) (id' : Z) : M unit :=
  running ← gets isRunning;
  if (running : bool) then throw ReservationManagerIsRunning
  else
    modify (set_isRunning true);;
    rs ← gets reserves;
    match removeSkipLoop id' rs with
    | Some (rs', rid) =>
        modify (set_reserves rs');;
        modify (set_isRunning false);;
        match rid with
        | Some ruleId' => spawn (updateRule env ruleId')
        | None => mret ()
        end
    | None => mret ()
    end.

(** *** addReserve *)

(** [startAt <= endAt'] and [endAt >= startAt']: both ends count. *)
Definition meets (reserve addReserve : ReserveProgram) : bool :=
  (ProgramSchema.startAt (program reserve) <=? ProgramSchema.endAt (program addReserve))
  && (ProgramSchema.endAt (program reserve) >=? ProgramSchema.startAt (program addReserve)).

(** The loop of [addReserve] over [this.reserves]: [None] when the program
    is reserved already, else the copies of the reservations that are
    neither conflict nor skip and meet the new one. *)
Fixpoint collectOverlap (programId' : Z) (addReserve : ReserveProgram)
    (rs : list ReserveProgram) (acc : list ReserveProgram)
    : option (list ReserveProgram) :=
  match rs with
  | [] => Some acc
  | reserve :: rest =>
      if bool_decide (programId reserve = programId') then None
      else if negb (isConflict reserve) && negb (isSkip reserve)
              && meets reserve addReserve
      then collectOverlap programId' addReserve rest (acc ++ [reserve])
      else collectOverlap programId' addReserve rest acc
  end.

Definition addReserve (env : Env) (programId' : Z) (encode : option EncodeInterface)
    : M unit :=
  running ← gets isRunning;
  if (running : bool) then throw ReservationManagerUpdateManualIsRunning
  else if match encode with
          | Some e => negb (checkEncodeOption env e)
          | None => false
          end
  then throw ReservationManagerAddFailed
  else
    modify (set_isRunning true);;
    let finalize := set_isRunning false in
    programs ← awaitOr finalize (programDB_findId env programId');
    match programs with
    | [] => modify finalize;; throw ProgramIsNotFound
    | p :: _ =>
        let addReserve := mkReserve p None None encode false true
                                    (Some (getTime env)) false in
        rs ← gets reserves;
        match collectOverlap programId' addReserve rs [] with
        | None => modify finalize;; throw ReservationManagerAddFailed
        | Some copies =>
            ts ← gets tuners;
            let '(ts', newReserves) := createReserves ts (copies ++ [addReserve]) in
            modify (set_tuners ts');;
            if existsb isConflict newReserves then
              modify finalize;; throw ReservationManagerAddReserveConflict
            else
              modify (set_reserves (js_sort byStartAt (rs ++ [addReserve])));;
              modify writeReservesFile;;
              modify finalize
        end
    end.


(** * Notions used by the statements *)

(** ** The authority order *)

(** The order in the words of the specification: a manual reservation
    before a rule reservation, two manual ones by [manualId], two rule ones
    by [ruleId]. *)
Definition authority (a b : ReserveProgram) : Prop :=
  match isManual a, isManual b with
  | true, true => ∀ x y, manualId a = Some x → manualId b = Some y → x ≤ y
  | true, false => True
  | false, true => False
  | false, false => ∀ x y, ruleId a = Some x → ruleId b = Some y → x ≤ y
  end.

(** The identifier of its origin is present. *)
Definition hasOriginId (r : ReserveProgram) : Prop :=
  if isManual r then is_Some (manualId r) else is_Some (ruleId r).

(** A candidate is rejected by the allocation over [reserves] when, at one
    of its entries, no tuner takes its program once the entries before it
    have been placed. *)
Definition rejected (tuners : list Tuner.t) (matches : list ReserveProgram)
    (reserves : list (ReserveProgram * nat)) (i : nat) (m : ReserveProgram) : Prop :=
  ∃ k r, reserves !! k = Some r ∧ r.2 = i ∧ isSkip m = false
         ∧ addToTuners (evaluate tuners matches (take k reserves)).1 (program m) = None.


(** ** The flags after one event *)

(** The reading under which the flag of every active candidate is, after
    the event, exactly the outcome of the allocation at that event: set
    when no tuner takes the candidate, cleared when one does. *)
Definition flagsFollowAllocation (s : Sweep) (l : SweepEvent) : Prop :=
  let cleared := Tuner.clear <$> sw_tuners s in
  let s' := sweepStep s l in
  ∀ k r m0,
    sw_reserves s' !! k = Some r →
    sw_matches s !! r.2 = Some m0 →
    isConflict <$> sw_matches s' !! r.2 =
    Some match addToTuners
                 (evaluate cleared (sw_matches s) (take k (sw_reserves s'))).1
                 (program m0) with
         | None => true
         | Some _ => false
         end.

(** ** Scenarios *)

Module Scenario.
Definition prog (i s e : Z) : ProgramSchema.t := ProgramSchema.mk i s e GR "".
Definition manual (p : ProgramSchema.t) (mid : Z) : ReserveProgram :=
  mkReserve p None None None false true (Some mid) false.
Definition byRule (p : ProgramSchema.t) (rid : Z) : ReserveProgram :=
  mkReserve p (Some rid) None None false false None false.
Definition T0 : Tuner.t := Tuner.mk 0 [GR] [].

Definition progOn (ct : ChannelType) (i s e : Z) : ProgramSchema.t :=
  ProgramSchema.mk i s e ct "".
Definition T1 : Tuner.t := Tuner.mk 1 [BS] [].

(** The program ids and the flags of a list, for reading results. *)
Definition flags (rs : list ReserveProgram) : list (Z * bool * bool) :=
  (λ r, (programId r, isSkip r, isConflict r)) <$> rs.

(** One tuner; program 1 comes from rule 5 and runs over [100, 300),
    program 2 is manual and runs over [150, 250). *)
Definition P1 : ReserveProgram := byRule (prog 1 100 300) 5.
Definition P2 : ReserveProgram := manual (prog 2 150 250) 1.

(** The candidates in authority order, and the sweep up to the moment
    before program 2 ends. *)
Definition sorted : list ReserveProgram := js_sort sortReserveProgram [P1; P2].
Definition before : Sweep := sweep [T0] sorted (take 2 (sortedEvents sorted)).
Definition endOfP2 : SweepEvent := mkEvent 250 false 0.
End Scenario.

(** ** The ids of all reservations *)

Definition toItem (r : ReserveProgram) : ReserveAllItem :=
  mkItem (programId r) (ruleId r).

(** ** Projections of a rule *)

(** The property that a column gives: none for [null]. *)
Definition nonNull (v : value) : option value :=
  match v with VNull => None | _ => Some v end.

(** [o] has the property [always], has each of [fields] iff the column is
    not [null], with the value of the column, and has nothing else. *)
Definition projects (always : string * value) (fields : list (string * value))
    (o : gmap string value) : Prop :=
  o !! always.1 = Some always.2
  ∧ Forall (λ kv, o !! kv.1 = nonNull kv.2) fields
  ∧ ∀ k v, o !! k = Some v → k = always.1 ∨ k ∈ fields.*1.

Definition searchColumns (rule : RulesSchema.t) : list (string * value) :=
  [ ("keyword", RulesSchema.keyword rule);
    ("ignoreKeyword", RulesSchema.ignoreKeyword rule);
    ("keyCS", RulesSchema.keyCS rule);
    ("keyRegExp", RulesSchema.keyRegExp rule);
    ("title", RulesSchema.title rule);
    ("description", RulesSchema.description rule);
    ("extended", RulesSchema.extended rule);
    ("GR", RulesSchema.GR rule);
    ("BS", RulesSchema.BS rule);
    ("CS", RulesSchema.CS rule);
    ("SKY", RulesSchema.SKY rule);
    ("station", RulesSchema.station rule);
    ("genrelv1", RulesSchema.genrelv1 rule);
    ("genrelv2", RulesSchema.genrelv2 rule);
    ("startTime", RulesSchema.startTime rule);
    ("timeRange", RulesSchema.timeRange rule);
    ("isFree", RulesSchema.isFree rule);
    ("durationMin", RulesSchema.durationMin rule);
    ("durationMax", RulesSchema.durationMax rule) ].

Definition optionColumns (rule : RulesSchema.t) : list (string * value) :=
  [ ("directory", RulesSchema.directory rule);
    ("recordedFormat", RulesSchema.recordedFormat rule) ].

Definition encodeColumns (rule : RulesSchema.t) : list (string * value) :=
  [ ("mode1", RulesSchema.mode1 rule);
    ("directory1", RulesSchema.directory1 rule);
    ("mode2", RulesSchema.mode2 rule);
    ("directory2", RulesSchema.directory2 rule);
    ("mode3", RulesSchema.mode3 rule);
    ("directory3", RulesSchema.directory3 rule) ].

(** ** The single-writer flag *)

(** The call is refused because the planner is busy, and nothing of the
    planner state has changed. *)
Definition failsFast (op : M unit) (s : State) : Prop :=
  ∃ e, isRunningError e = true ∧ op s = (inl e, s).

Definition startAt_le (a b : ReserveProgram) : Prop :=
  ProgramSchema.startAt (program a) ≤ ProgramSchema.startAt (program b).

Module Trace.
Import Scenario.

(** A catalogue that knows programs 1 and 2, a rule store with no rule. *)
Definition catalogue (p1 p2 : ProgramSchema.t) (rules : Error + list RulesSchema.t)
    (now : Z) : Env :=
  mkEnv (λ i, if bool_decide (i = 1) then inr [p1]
              else if bool_decide (i = 2) then inr [p2] else inr [])
        (λ _, inr []) rules (λ _, inr []) now (λ _, true).

(** Program 1 over [100, 200), program 2 over [300, 400). *)
Definition early : Env := catalogue (prog 1 100 200) (prog 2 300 400) (inr []) 10.

(** Program 1 has moved to [500, 600), and the rule store is down. *)
Definition moved : Env :=
  catalogue (prog 1 500 600) (prog 2 300 400) (inl (DBError 0)) 20.

Definition start : State := mkState false [] [T0] [].

(** A planner busy with another operation that holds one reservation
    whose program ended long ago. *)
Definition busy : State := mkState true [manual (prog 1 100 200) 1] [T0] [].
Definition late : Env := catalogue (prog 1 100 200) (prog 2 300 400) (inr []) 1000.
End Trace.

(** ** The candidates of [addReserve] *)

(** The reservation that [addReserve] builds for the program [p]. *)
Definition newReserve (env : Env) (p : ProgramSchema.t)
    (encode : option EncodeInterface) : ReserveProgram :=
  mkReserve p None None encode false true (Some (getTime env)) false.

(** The reservations that are neither conflict nor skip and whose interval
    meets that of the new one, and the new one. *)
Definition candidateSet (rs : list ReserveProgram) (new : ReserveProgram)
    : list ReserveProgram :=
  List.filter (λ r, negb (isConflict r) && negb (isSkip r) && meets r new) rs
  ++ [new].

(** The resolver marks the new program itself. *)
Definition newProgramMarked (ts : list Tuner.t) (rs : list ReserveProgram)
    (new : ReserveProgram) : Prop :=
  ∃ r, r ∈ (createReserves ts (candidateSet rs new)).2
       ∧ programId r = programId new ∧ isConflict r = true.

(** The resolver marks one of the candidates. *)
Definition someCandidateMarked (ts : list Tuner.t) (rs : list ReserveProgram)
    (new : ReserveProgram) : Prop :=
  ∃ r, r ∈ (createReserves ts (candidateSet rs new)).2 ∧ isConflict r = true.

Module Displace.
Import Scenario.

(** One tuner and the reservation of program 1, from rule 5, over
    [100, 300); the catalogue knows program 2 over [150, 250). *)
Definition planner : State := mkState false [P1] [T0] [].
Definition env : Env :=
  mkEnv (λ i, if bool_decide (i = 2) then inr [prog 2 150 250] else inr [])
        (λ _, inr []) (inr []) (λ _, inr []) 1000 (λ _, true).
End Displace.

(** ** Deduplication *)

(** Keep the first occurrence of each program id. *)
Fixpoint keepFirst (l : list ReserveProgram) : list ReserveProgram :=
  match l with
  | [] => []
  | r :: rest =>
      r :: List.filter (λ x, negb (bool_decide (programId x = programId r)))
                       (keepFirst rest)
  end.

(** The same, for a list read after the ids in [seen]. *)
Fixpoint firstsFrom (seen : gmap Z bool) (l : list ReserveProgram)
    : list ReserveProgram :=
  match l with
  | [] => []
  | r :: rest =>
      match seen !! programId r with
      | None => r :: firstsFrom (<[programId r := true]> seen) rest
      | Some _ => firstsFrom seen rest
      end
  end.

Definition unseen (seen : gmap Z bool) (x : ReserveProgram) : bool :=
  bool_decide (seen !! programId x = None).

(** A reservation with its [isConflict] left out. *)
Definition eraseConflict (r : ReserveProgram) : ReserveProgram :=
  set_isConflict false r.

(** The reservations that the resolver emits, before the last sort. *)
Definition emitted (matches : list ReserveProgram) (events : list SweepEvent)
    : list ReserveProgram :=
  omap (λ l, if isStart l then matches !! idx l else None) events.

(** No reservation is both skipped and in conflict. *)
Definition skipExcludesConflict (r : ReserveProgram) : Prop :=
  isSkip r && isConflict r = false.

Module Replan.
Import Scenario.

(** Rule 5, enabled, with no criterion but the week mask. *)
Definition rule5 : RulesSchema.t :=
  RulesSchema.mk 5 VNull VNull VNull VNull VNull VNull VNull VNull VNull VNull
                 VNull VNull VNull VNull VNull VNull 127 VNull VNull VNull
                 true VNull VNull VNull VNull VNull VNull VNull VNull VNull.

(** The catalogue matches program 1 to every search; it is asked for no
    manual program. *)
Definition env : Env :=
  mkEnv (λ _, inr []) (λ _, inr [prog 1 100 300]) (inr [rule5])
        (λ _, inr [rule5]) 50 (λ _, true).

(** The reservation of program 1, from rule 5, skipped by the user. *)
Definition planner : State := mkState false [set_isSkip true P1] [T0] [].
End Replan.

(** ** The planner over its lifetime *)

Inductive Call :=
  | CallSetTuners (devices : list TunerDevice)
  | CallAddReserve (programId' : Z) (encode : option EncodeInterface)
  | CallCancel (id' : Z)
  | CallRemoveSkip (id' : Z)
  | CallUpdateAll
  | CallUpdateRule (ruleId' : Z)
  | CallClean.

Definition call (env : Env) (c : Call) : M unit :=
  match c with
  | CallSetTuners devices => setTuners devices
  | CallAddReserve programId' encode => addReserve env programId' encode
  | CallCancel id' => cancel env id'
  | CallRemoveSkip id' => removeSkip env id'
  | CallUpdateAll => updateAll env
  | CallUpdateRule ruleId' => updateRule env ruleId'
  | CallClean => clean env
  end.

(** [readReservesFile] in the constructor: a new process starts from the
    document; without a document it starts from the empty list. *)
Definition readReservesFile (s : State) : State :=
  mkState false (hd [] (written s)) [] (written s).

(** The states of the planner: it starts without a document, any public
    operation may be called with any answers of the collaborators, whether
    the call succeeds or throws, and the process may be started again. *)
Inductive reachable : State → Prop :=
  | reachable_start : reachable (mkState false [] [] [])
  | reachable_call env c s : reachable s → reachable (call env c s).2
  | reachable_restart s : reachable s → reachable (readReservesFile s).

Definition plannerInv (s : State) : Prop :=
  Forall skipExcludesConflict (reserves s)
  ∧ Forall (Forall skipExcludesConflict) (written s).


(** ** Decidable equality of the records *)

Global Instance value_eq_dec : EqDecision value.
Proof. solve_decision. Defined.

Global Instance ProgramSchema_eq_dec : EqDecision ProgramSchema.t.
Proof. solve_decision. Defined.

Global Instance ReserveProgram_eq_dec : EqDecision ReserveProgram.
Proof. solve_decision. Defined.

(** ** What the resolver does to one candidate *)

(** [r] is the candidate [x] as the resolver emits it: the same but for
    [isConflict]; a mark that [x] came with is still there; and a skipped
    candidate has the flag it came with. *)
Definition emittedAs (x r : ReserveProgram) : Prop :=
  eraseConflict x = eraseConflict r
  ∧ (isConflict x = true → isConflict r = true)
  ∧ (isSkip x = true → isConflict r = isConflict x).

(** ** The candidates of the re-plans *)

(** The candidates that [updateAll] hands to the resolver when the rule
    store answers with [rules]. *)
Definition updateAllMatches (env : Env) (s : State) (rules : list RulesSchema.t)
    : list ReserveProgram :=
  let sc := scanManual env (reserves s) [] ∅ in
  scanRules env rules (scan_skipIndex sc) (scan_matches sc).

(** What [updateRule] learns from its collaborators: an error, or the
    rule, if there is one and it is enabled, with the programs it matches. *)
Definition updateRuleInput (env : Env) (ruleId' : Z)
    : Error + (option RulesSchema.t * list ProgramSchema.t) :=
  match rulesDB_findId env ruleId' with
  | inl e => inl e
  | inr [] => inr (None, [])
  | inr (r :: _) =>
      if RulesSchema.enable r then
        match programDB_findRule env (createSearchOption r) with
        | inl e => inl e
        | inr programs => inr (Some r, programs)
        end
      else inr (None, [])
  end.

(** The candidates that [updateRule] hands to the resolver. *)
Definition updateRuleMatches (s : State) (ruleId' : Z)
    (rule : option RulesSchema.t) (programs : list ProgramSchema.t)
    : list ReserveProgram :=
  let others := scanOthers ruleId' (reserves s) ∅ in
  match rule with
  | Some r => others.1 ++ (ruleReserve r ruleId' others.2 <$> programs)
  | None => others.1
  end.

(** A lookup by id answers with a program of that id. *)
Definition findIdSound (env : Env) : Prop :=
  ∀ id' q qs, programDB_findId env id' = inr (q :: qs) → ProgramSchema.id q = id'.

(** The planner of [Trace.busy] when it is idle: one manual reservation. *)
Definition idleWithManual : State :=
  mkState false [Scenario.manual (Scenario.prog 1 100 200) 1] [Scenario.T0] [].

(** A rule reservation as [cancel] leaves it. *)
Definition skipped (r : ReserveProgram) : ReserveProgram :=
  set_isConflict false (set_isSkip true r).

(** ** Sequences of calls *)

(** The public calls of [cs] one after the other, each with the answers
    of its collaborators; a call that throws does not stop the next. *)
Definition runCalls (cs : list (Env * Call)) (s : State) : State :=
  fold_left (λ s ec, (call ec.1 ec.2 s).2) cs s.

(** The planner as it is used when the catalogue answers a lookup by id
    with a program of that id. *)
Inductive reachableSound : State → Prop :=
  | reachableSound_start : reachableSound (mkState false [] [] [])
  | reachableSound_call env c s :
      findIdSound env → reachableSound s → reachableSound (call env c s).2
  | reachableSound_restart s : reachableSound s → reachableSound (readReservesFile s).

Definition uniquePrograms (rs : list ReserveProgram) : Prop :=
  NoDup (programId <$> rs).

Definition uniqueInv (s : State) : Prop :=
  uniquePrograms (reserves s) ∧ Forall uniquePrograms (written s).

(** The planner as it is used when the rule store answers every
    [findAll]: the states after each call, the re-plan that [cancel] or
    [removeSkip] starts having run to its end. *)
Inductive reachableSteady : State → Prop :=
  | reachableSteady_start : reachableSteady (mkState false [] [] [])
  | reachableSteady_call env c s rules :
      rulesDB_findAll env = inr rules →
      reachableSteady s → reachableSteady (call env c s).2
  | reachableSteady_restart s : reachableSteady s → reachableSteady (readReservesFile s).

Definition sortedInv (s : State) : Prop :=
  Sorted startAt_le (reserves s) ∧ Forall (Sorted startAt_le) (written s).

(** ** The candidate that comes first *)

(** The indices of the START events of a list of events. *)
Definition startIdx (events : list SweepEvent) : list nat :=
  omap (λ e, if isStart e then Some (idx e) else None) events.

(** The state of a sweep over candidates [sorted] that started from the
    tuners [ts]: the flags apart, [matches] is [sorted]; the active set
    has one entry per index, each the candidate of its index; and the
    tuners are, once cleared, the tuners [ts] cleared. *)
Definition sweepInv (ts : list Tuner.t) (sorted : list ReserveProgram) (s : Sweep) : Prop :=
  Forall2 emittedAs sorted (sw_matches s)
  ∧ NoDup (sw_reserves s).*2
  ∧ (∀ e, e ∈ sw_reserves s →
          ∃ y, sorted !! e.2 = Some y ∧ eraseConflict e.1 = eraseConflict y)
  ∧ Tuner.clear <$> sw_tuners s = Tuner.clear <$> ts.
(** * Properties *)

(** ** The sort *)

Section js_sort_facts.
Context {A : Type} (cmp : A → A → Z).

Lemma js_insert_perm x (l : list A) : js_insert cmp x l ≡ₚ x :: l.
Proof.
  induction l as [|y l IH]; simpl; [done|].
  destruct (cmp x y <=? 0); [done|].
  rewrite IH. apply Permutation_swap.
Qed.

Lemma js_sort_perm (l : list A) : js_sort cmp l ≡ₚ l.
Proof.
  induction l as [|x l IH]; simpl; [done|].
  by rewrite js_insert_perm, IH.
Qed.

Lemma js_sort_elem_of x (l : list A) : x ∈ js_sort cmp l ↔ x ∈ l.
Proof. by rewrite js_sort_perm. Qed.

Lemma js_sort_Forall (P : A → Prop) (l : list A) :
  Forall P (js_sort cmp l) ↔ Forall P l.
Proof. by rewrite js_sort_perm. Qed.

Lemma js_sort_length (l : list A) : length (js_sort cmp l) = length l.
Proof. by rewrite js_sort_perm. Qed.

Lemma js_insert_HdRel (R : A → A → Prop) a x (l : list A) :
  R a x → HdRel R a l → HdRel R a (js_insert cmp x l).
Proof.
  intros Hax Hl. destruct l as [|y l]; simpl; [by constructor|].
  destruct (cmp x y <=? 0); constructor; [done|].
  by inversion Hl.
Qed.

Lemma js_insert_Sorted x (l : list A) :
  (cmp_total cmp) → Sorted (cmp_le cmp) l → Sorted (cmp_le cmp) (js_insert cmp x l).
Proof.
  intros Htot. induction 1 as [|y l Hl IH Hhd]; simpl.
  - repeat constructor.
  - destruct (Z.leb_spec (cmp x y) 0) as [Hle|Hgt].
    + constructor; [by constructor|by constructor].
    + constructor; [done|].
      apply js_insert_HdRel; [|done]. by apply Htot.
Qed.

Lemma js_sort_Sorted (l : list A) : (cmp_total cmp) → Sorted (cmp_le cmp) (js_sort cmp l).
Proof.
  intros Htot. induction l as [|x l IH]; simpl; [constructor|].
  by apply js_insert_Sorted.
Qed.

(** A list in order is left as it is. *)
Lemma js_sort_sorted_id (l : list A) :
  Sorted (cmp_le cmp) l → js_sort cmp l = l.
Proof.
  induction 1 as [|y l Hl IH Hhd]; simpl; [done|].
  rewrite IH. destruct Hhd as [|z l Hyz]; simpl; [done|].
  unfold cmp_le in Hyz. by destruct (Z.leb_spec (cmp y z) 0); [|lia].
Qed.
End js_sort_facts.

Lemma Sorted_weaken {A} (R R' : A → A → Prop) (l : list A) :
  (∀ x y, R x y → R' x y) → Sorted R l → Sorted R' l.
Proof.
  intros HR. induction 1 as [|x l Hl IH Hhd]; constructor; [done|].
  destruct Hhd; constructor; auto.
Qed.

(** ** The authority order *)

Lemma sortReserveProgram_authority a b :
  sortReserveProgram a b ≤ 0 ↔ authority a b.
Proof.
  unfold sortReserveProgram, authority, js_sub.
  destruct (isManual a), (isManual b); simpl; try (split; [done|lia]); try lia.
  - destruct (manualId a) as [x|], (manualId b) as [y|]; split; intros H;
      try lia; try (intros ?? [= <-] [= <-]; lia); try done.
    specialize (H x y eq_refl eq_refl). lia.
  - destruct (ruleId a) as [x|], (ruleId b) as [y|]; split; intros H;
      try lia; try (intros ?? [= <-] [= <-]; lia); try done.
    specialize (H x y eq_refl eq_refl). lia.
Qed.

Lemma sortReserveProgram_total : cmp_total sortReserveProgram.
Proof.
  intros a b. unfold sortReserveProgram, js_sub.
  destruct (isManual a), (isManual b); simpl; try lia.
  - destruct (manualId a), (manualId b); lia.
  - destruct (ruleId a), (ruleId b); lia.
Qed.

Lemma authority_trans a b c :
  hasOriginId b → authority a b → authority b c → authority a c.
Proof.
  unfold hasOriginId, authority.
  destruct (isManual a), (isManual b), (isManual c); try done.
  - intros [z Hz] Hab Hbc x y Hx Hy.
    specialize (Hab x z Hx Hz). specialize (Hbc z y Hz Hy). lia.
  - intros [z Hz] Hab Hbc x y Hx Hy.
    specialize (Hab x z Hx Hz). specialize (Hbc z y Hz Hy). lia.
Qed.

Lemma Sorted_authority_strong (l : list ReserveProgram) :
  Forall hasOriginId l → Sorted authority l → StronglySorted authority l.
Proof.
  intros Hwf Hs. induction Hs as [|a l Hl IH Hhd]; [constructor|].
  apply Forall_cons in Hwf as [_ Hwf]. specialize (IH Hwf).
  constructor; [done|].
  destruct Hhd as [|b l Hab]; [constructor|].
  apply Forall_cons in Hwf as [Hb Hwf].
  constructor; [done|].
  apply StronglySorted_inv in IH as [_ Hbl].
  eapply Forall_impl; [exact Hbl|].
  intros c Hbc. simpl in Hbc. by eapply authority_trans.
Qed.

(** ** The allocation at one event *)

Lemma set_isConflict_same (m : ReserveProgram) : set_isConflict (isConflict m) m = m.
Proof. by destruct m. Qed.

Lemma set_isConflict_twice b b' (m : ReserveProgram) :
  set_isConflict b (set_isConflict b' m) = set_isConflict b m.
Proof. done. Qed.

Lemma evaluate_cons tuners matches r rest :
  evaluate tuners matches (r :: rest) =
  match matches !! r.2 with
  | None => evaluate tuners matches rest
  | Some m =>
      if isSkip m then evaluate tuners matches rest
      else match addToTuners tuners (program m) with
           | Some tuners' => evaluate tuners' matches rest
           | None => evaluate tuners (<[r.2 := set_isConflict true m]> matches) rest
           end
  end.
Proof. done. Qed.

Lemma rejected_nil tuners matches i m : ¬ rejected tuners matches [] i m.
Proof. by intros (k & r & ? & _). Qed.

Lemma rejected_cons_skip tuners matches r rest i m :
  evaluate tuners matches [r] = (tuners, matches) →
  matches !! i = Some m →
  (r.2 = i → isSkip m = false → is_Some (addToTuners tuners (program m))) →
  rejected tuners matches (r :: rest) i m ↔ rejected tuners matches rest i m.
Proof.
  intros Hev Hi Hhead.
  assert (∀ l, evaluate tuners matches (r :: l) = evaluate tuners matches l) as Hstep.
  { intros l. rewrite evaluate_cons. rewrite evaluate_cons in Hev. simpl in Hev.
    destruct (matches !! r.2) as [m'|]; [|done].
    destruct (isSkip m'); [done|].
    destruct (addToTuners tuners (program m')) as [tuners'|].
    - injection Hev; intros Heq; by rewrite Heq.
    - injection Hev; intros Heq; by rewrite Heq. }
  split.
  - intros (k & r' & Hk & Hr & Hs & Hadd). destruct k as [|k].
    + injection Hk as <-. destruct (Hhead Hr Hs) as [? Hsome].
      simpl in Hadd. congruence.
    + exists k, r'. rewrite firstn_cons, Hstep in Hadd. done.
  - intros (k & r' & Hk & Hr & Hs & Hadd).
    exists (S k), r'. rewrite firstn_cons, Hstep. done.
Qed.

(** What the allocation does to the flags: the flag of a candidate is set
    when the candidate is rejected, and is otherwise what it was. *)
Lemma evaluate_flags tuners matches reserves i m :
  matches !! i = Some m →
  ∃ b, (evaluate tuners matches reserves).2 !! i = Some (set_isConflict b m)
       ∧ (b = true ↔ isConflict m = true ∨ rejected tuners matches reserves i m).
Proof.
  revert tuners matches m.
  induction reserves as [|r rest IH]; intros tuners matches m Hi.
  { exists (isConflict m). rewrite set_isConflict_same. split; [done|].
    split; [by left|]. intros [?|H]; [done|]. by apply rejected_nil in H. }
  rewrite evaluate_cons.
  destruct (matches !! r.2) as [m'|] eqn:Hr.
  2:{ destruct (IH tuners matches m Hi) as (b & Hb & Hiff). exists b. split; [done|].
      rewrite rejected_cons_skip; [done| |done|].
      - by rewrite evaluate_cons, Hr.
      - intros <-. congruence. }
  destruct (isSkip m') eqn:Hskip.
  { destruct (IH tuners matches m Hi) as (b & Hb & Hiff). exists b. split; [done|].
    rewrite rejected_cons_skip; [done| |done|].
    - by rewrite evaluate_cons, Hr, Hskip.
    - intros <-. congruence. }
  destruct (addToTuners tuners (program m')) as [tuners'|] eqn:Hadd.
  { destruct (IH tuners' matches m Hi) as (b & Hb & Hiff). exists b. split; [done|].
    rewrite Hiff. apply or_iff_compat_l.
    split.
    - intros (k & r' & Hk & Hri & Hs & Hno). exists (S k), r'.
      by rewrite firstn_cons, evaluate_cons, Hr, Hskip, Hadd.
    - intros (k & r' & Hk & Hri & Hs & Hno). destruct k as [|k].
      + injection Hk as <-. simpl in Hno. rewrite Hri in Hr. congruence.
      + exists k, r'. by rewrite firstn_cons, evaluate_cons, Hr, Hskip, Hadd in Hno. }
  assert (r.2 < length matches)%nat as Hlt by by eapply lookup_lt_Some.
  destruct (decide (i = r.2)) as [->|Hne].
  - assert (m' = m) as -> by congruence.
    destruct (IH tuners (<[r.2 := set_isConflict true m]> matches) (set_isConflict true m))
      as (b & Hb & Hiff).
    { by apply list_lookup_insert_eq. }
    assert (b = true) as -> by (apply Hiff; by left).
    exists true. split; [done|]. split; [|done]. intros _. right.
    exists 0%nat, r. done.
  - destruct (IH tuners (<[r.2 := set_isConflict true m']> matches) m) as (b & Hb & Hiff).
    { by rewrite list_lookup_insert_ne. }
    exists b. split; [done|]. rewrite Hiff. apply or_iff_compat_l.
    split.
    + intros (k & r' & Hk & Hri & Hs & Hno). exists (S k), r'.
      by rewrite firstn_cons, evaluate_cons, Hr, Hskip, Hadd.
    + intros (k & r' & Hk & Hri & Hs & Hno). destruct k as [|k].
      * injection Hk as <-. done.
      * exists k, r'. by rewrite firstn_cons, evaluate_cons, Hr, Hskip, Hadd in Hno.
Qed.

(** ** The scenarios of the specification *)

Section scenarios.
Import Scenario.

(** S1: two manual programs that touch at 200 are both scheduled. *)
Example scenario_no_overlap :
  flags (createReserves [T0] [manual (prog 1 100 200) 1; manual (prog 2 200 300) 2]).2
  = [(1, false, false); (2, false, false)].
Proof. reflexivity. Qed.

(** S2: of two overlapping manual programs the older request wins. *)
Example scenario_simple_conflict :
  flags (createReserves [T0] [manual (prog 1 100 300) 1; manual (prog 2 150 250) 2]).2
  = [(1, false, false); (2, false, true)].
Proof. reflexivity. Qed.

(** S3: a manual program takes the tuner from a rule program. *)
Example scenario_priority :
  flags (createReserves [T0] [P1; P2]).2 = [(1, false, true); (2, false, false)].
Proof. reflexivity. Qed.

(** S4: two tuners of different channel types. *)
Example scenario_mixed_types :
  flags (createReserves [T0; T1]
           [manual (progOn GR 1 100 300) 1; manual (progOn BS 2 150 250) 2;
            manual (progOn GR 3 200 400) 3]).2
  = [(1, false, false); (2, false, false); (3, false, true)].
Proof. reflexivity. Qed.

(** S5: a skipped program takes no tuner. *)
Example scenario_skip :
  flags (createReserves [T0]
           [set_isSkip true (byRule (prog 1 100 300) 5); byRule (prog 2 100 300) 5]).2
  = [(1, true, false); (2, false, false)].
Proof. reflexivity. Qed.

(** S6: [addReserve] refuses a program that does not fit. *)
Example scenario_addReserve_rejects :
  let s := mkState false [manual (prog 1 100 300) 1] [T0] [] in
  addReserve Displace.env 2 None s = (inl ReservationManagerAddReserveConflict, s).
Proof. reflexivity. Qed.

End scenarios.

(** ** C1: what one sweep event does *)

Lemma nextActive_perm reserves m l :
  nextActive reserves m l ≡ₚ
  if isStart l then reserves ++ [(m, idx l)]
  else filter (λ r, r.2 ≠ idx l) reserves.
Proof. unfold nextActive. apply js_sort_perm. Qed.

Lemma nextActive_Sorted reserves m l :
  Sorted (λ a b, authority a.1 b.1) (nextActive reserves m l).
Proof.
  unfold nextActive.
  eapply Sorted_weaken; [|apply js_sort_Sorted].
  - intros a b Hab. by apply sortReserveProgram_authority.
  - intros a b. apply sortReserveProgram_total.
Qed.

Lemma sweepStep_active s l m :
  sw_matches s !! idx l = Some m → isSkip m = false →
  sweepStep s l =
  let reserves := nextActive (sw_reserves s) m l in
  let ev := evaluate (Tuner.clear <$> sw_tuners s) (sw_matches s) reserves in
  mkSweep ev.1 ev.2 reserves.
Proof.
  intros Hm Hskip. unfold sweepStep. rewrite Hm, Hskip. simpl.
  by destruct (evaluate _ _ _).
Qed.

Lemma sweepStep_idle s l :
  (∀ m, sw_matches s !! idx l = Some m → isSkip m = true) → sweepStep s l = s.
Proof.
  intros H. unfold sweepStep. destruct (sw_matches s !! idx l) as [m|]; [|done].
  by rewrite (H m eq_refl).
Qed.

(** C1 (as amended). At a sweep event of a candidate that is not skipped,
    the active set is the old one with the candidate pushed (START) or
    filtered out (END), put in authority order; the allocation starts from
    tuners that hold nothing and goes through the active set in that order;
    afterwards the flag of a candidate is set when no tuner took it at this
    event, and is otherwise what it was before the event: a mark is never
    taken back. *)
Theorem sweepStep_event (s : Sweep) (l : SweepEvent) (m : ReserveProgram) :
  sw_matches s !! idx l = Some m →
  isSkip m = false →
  let active := if isStart l then sw_reserves s ++ [(m, idx l)]
                else filter (λ r, r.2 ≠ idx l) (sw_reserves s) in
  let cleared := Tuner.clear <$> sw_tuners s in
  let s' := sweepStep s l in
  sw_reserves s' ≡ₚ active
  ∧ Sorted (λ a b, authority a.1 b.1) (sw_reserves s')
  ∧ Forall (λ tn, Tuner.programs tn = []) cleared
  ∧ sw_tuners s' = (evaluate cleared (sw_matches s) (sw_reserves s')).1
  ∧ ∀ i m0, sw_matches s !! i = Some m0 →
      ∃ b, sw_matches s' !! i = Some (set_isConflict b m0)
           ∧ (b = true ↔ isConflict m0 = true
                          ∨ rejected cleared (sw_matches s) (sw_reserves s') i m0).
Proof.
  intros Hm Hskip active cleared s'.
  subst s'. rewrite (sweepStep_active s l m Hm Hskip). simpl.
  split_and!.
  - apply nextActive_perm.
  - apply nextActive_Sorted.
  - subst cleared. apply Forall_fmap, Forall_forall. by intros [].
  - done.
  - intros i m0 Hi. by apply evaluate_flags.
Qed.

Lemma sweepStep_event_witness :
  Sorted (λ a b, authority a.1 b.1)
         (sw_reserves (sweepStep Scenario.before Scenario.endOfP2)).
Proof.
  exact (proj1 (proj2
    (sweepStep_event Scenario.before Scenario.endOfP2 Scenario.P2 eq_refl eq_refl))).
Defined.

(** C1 (as stated) fails. With one tuner, rule program 1 over [100, 300)
    and manual program 2 over [150, 250): at the start of program 2 the
    tuner goes to program 2 and program 1 is marked; at the end of program
    2 the tuner takes program 1 again and the mark of program 1 stays. *)
Lemma sweepStep_keeps_mark :
  sortedEvents Scenario.sorted !! 2%nat = Some Scenario.endOfP2
  ∧ ¬ flagsFollowAllocation Scenario.before Scenario.endOfP2.
Proof.
  split; [done|].
  intros H.
  pose proof (H 0%nat (Scenario.P1, 1%nat) (set_isConflict true Scenario.P1)
                eq_refl eq_refl) as H'.
  vm_compute in H'. discriminate.
Qed.

(** ** C10: the three lists of [getReservesAllId] *)

Lemma allIdStep_fold (l : list ReserveProgram) (acc : ReserveAllId) :
  fold_left allIdStep l acc =
  mkAllId
    (all_reserves acc
       ++ (toItem <$> List.filter (λ r, negb (isConflict r) && negb (isSkip r)) l))
    (all_conflicts acc ++ (toItem <$> List.filter isConflict l))
    (all_skips acc
       ++ (toItem <$> List.filter (λ r, negb (isConflict r) && isSkip r) l)).
Proof.
  revert acc. induction l as [|r l IH]; intros acc; simpl.
  { destruct acc. by rewrite !app_nil_r. }
  rewrite IH. unfold allIdStep.
  destruct (isConflict r), (isSkip r); simpl;
    by rewrite <- ?app_assoc.
Qed.

Lemma three_way_perm (l : list ReserveProgram) :
  List.filter (λ r, negb (isConflict r) && negb (isSkip r)) l
    ++ List.filter isConflict l
    ++ List.filter (λ r, negb (isConflict r) && isSkip r) l
  ≡ₚ l.
Proof.
  induction l as [|r l IH]; [done|]. simpl.
  destruct (isConflict r), (isSkip r); simpl.
  - rewrite <- Permutation_middle. by constructor.
  - rewrite <- Permutation_middle. by constructor.
  - rewrite app_assoc, <- Permutation_middle, <- app_assoc. by constructor.
  - by constructor.
Qed.

(** C10. [getReservesAllId] puts a reservation under [conflicts] when
    [isConflict] is set, whatever [isSkip]; under [skips] when [isConflict]
    is not set and [isSkip] is; under [reserves] otherwise. The three lists
    together hold one item for each reservation, and an item has the
    program id and the [ruleId] of the reservation, which is there iff the
    reservation has one. *)
Theorem getReservesAllId_partition (s : State) :
  let all := getReservesAllId s in
  all_conflicts all = toItem <$> List.filter isConflict (reserves s)
  ∧ all_skips all
    = toItem <$> List.filter (λ r, negb (isConflict r) && isSkip r) (reserves s)
  ∧ all_reserves all
    = toItem <$> List.filter (λ r, negb (isConflict r) && negb (isSkip r)) (reserves s)
  ∧ all_reserves all ++ all_conflicts all ++ all_skips all ≡ₚ toItem <$> reserves s
  ∧ ∀ r, item_programId (toItem r) = ProgramSchema.id (program r)
         ∧ item_ruleId (toItem r) = ruleId r.
Proof.
  unfold getReservesAllId. rewrite allIdStep_fold. simpl.
  split_and!; try done.
  rewrite <- !fmap_app. by rewrite three_way_perm.
Qed.

(** ** C9: the projections of a rule *)

Lemma lookup_copyNonNull_ne k k' v (o : gmap string value) :
  k ≠ k' → copyNonNull k v o !! k' = o !! k'.
Proof.
  intros Hne. unfold copyNonNull. destruct (is_null v); [done|].
  by rewrite lookup_insert_ne.
Qed.

Lemma lookup_copyNonNull_eq k v (o : gmap string value) :
  o !! k = None → copyNonNull k v o !! k = nonNull v.
Proof.
  intros Hnone. unfold copyNonNull.
  destruct v; simpl; by rewrite ?lookup_insert_eq.
Qed.

Lemma lookup_copyNonNull_Some k0 v0 (o : gmap string value) k v :
  copyNonNull k0 v0 o !! k = Some v → k = k0 ∨ o !! k = Some v.
Proof.
  destruct (decide (k0 = k)) as [->|Hne]; [by left|].
  rewrite lookup_copyNonNull_ne by done. by right.
Qed.

Ltac column_lookup :=
  simpl;
  repeat (rewrite lookup_copyNonNull_ne by done);
  rewrite lookup_copyNonNull_eq; [done|];
  repeat (rewrite lookup_copyNonNull_ne by done);
  by rewrite lookup_singleton_ne.

Ltac column_origin H :=
  repeat (apply lookup_copyNonNull_Some in H as [->|H];
          [right; simpl; set_solver|]);
  left; apply lookup_singleton_Some in H as [<- _]; done.

Lemma createSearchOption_projects rule :
  projects ("week", VNum (RulesSchema.week rule)) (searchColumns rule)
           (createSearchOption rule).
Proof.
  unfold projects, createSearchOption. split_and!.
  - simpl. repeat (rewrite lookup_copyNonNull_ne by done).
    apply lookup_singleton_eq.
  - unfold searchColumns. repeat (constructor; [column_lookup|]). constructor.
  - intros k v H. column_origin H.
Qed.

Lemma createOption_projects rule :
  projects ("enable", VBool (RulesSchema.enable rule)) (optionColumns rule)
           (createOption rule).
Proof.
  unfold projects, createOption. split_and!.
  - simpl. repeat (rewrite lookup_copyNonNull_ne by done).
    apply lookup_singleton_eq.
  - unfold optionColumns. repeat (constructor; [column_lookup|]). constructor.
  - intros k v H. column_origin H.
Qed.

Lemma createEncodeOption_projects rule encode :
  createEncodeOption rule = Some encode →
  projects ("delTs", RulesSchema.delTs rule) (encodeColumns rule) encode.
Proof.
  unfold createEncodeOption. destruct (is_null (RulesSchema.delTs rule)); [done|].
  intros [= <-]. unfold projects. split_and!.
  - simpl. repeat (rewrite lookup_copyNonNull_ne by done).
    apply lookup_singleton_eq.
  - unfold encodeColumns. repeat (constructor; [column_lookup|]). constructor.
  - intros k v H. column_origin H.
Qed.

(** C9. [createSearchOption] always has [week] and has each other column
    of the rule iff the column is not [null]; [createOption] always has
    [enable] and has [directory] and [recordedFormat] iff not [null];
    [createEncodeOption] is [null] iff [delTs] is, and otherwise has
    [delTs] and each mode and directory column iff not [null]. Each
    property has the value of its column and the objects have no other
    property. *)
Theorem adapter_projection (rule : RulesSchema.t) :
  projects ("week", VNum (RulesSchema.week rule)) (searchColumns rule)
           (createSearchOption rule)
  ∧ projects ("enable", VBool (RulesSchema.enable rule)) (optionColumns rule)
             (createOption rule)
  ∧ (createEncodeOption rule = None ↔ RulesSchema.delTs rule = VNull)
  ∧ ∀ encode, createEncodeOption rule = Some encode →
      projects ("delTs", RulesSchema.delTs rule) (encodeColumns rule) encode.
Proof.
  split_and!.
  - apply createSearchOption_projects.
  - apply createOption_projects.
  - unfold createEncodeOption. by destruct (RulesSchema.delTs rule).
  - apply createEncodeOption_projects.
Qed.

Lemma adapter_projection_witness : createEncodeOption Replan.rule5 = None.
Proof.
  exact (proj2 (proj1 (proj2 (proj2 (adapter_projection Replan.rule5)))) eq_refl).
Defined.

(** ** C4: calls while the planner is busy *)

(** C4 (as amended). While [isRunning] is set, [addReserve], [cancel],
    [removeSkip], [updateAll] and [updateRule] are refused with an
    already-running error and leave the planner state as it is; [setTuners]
    and [clean] do not look at the flag: the first replaces the tuners and
    the second drops the reservations that have ended. *)
Theorem guarded_operations_fail_fast (env : Env) (s : State) :
  isRunning s = true →
  (∀ programId' encode, failsFast (addReserve env programId' encode) s)
  ∧ (∀ id', failsFast (cancel env id') s)
  ∧ (∀ id', failsFast (removeSkip env id') s)
  ∧ failsFast (updateAll env) s
  ∧ (∀ ruleId', failsFast (updateRule env ruleId') s)
  ∧ (∀ devices,
       setTuners devices s = (inr (), set_tuners (Tuner.create <$> devices) s))
  ∧ clean env s
    = (inr (), set_reserves
         (List.filter (λ r, negb (ProgramSchema.endAt (program r) <? getTime env))
                      (reserves s)) s).
Proof.
  intros Hrun.
  split_and!; try done; intros;
    unfold failsFast, addReserve, cancel, removeSkip, updateAll, updateRule;
    unfold mbind, M_bind, gets; rewrite Hrun;
    eexists; (split; [|reflexivity]); done.
Qed.

Lemma guarded_operations_fail_fast_witness :
  failsFast (updateAll Trace.late) Trace.busy.
Proof.
  exact (proj1 (proj2 (proj2 (proj2
    (guarded_operations_fail_fast Trace.late Trace.busy eq_refl))))).
Defined.

(** C4 (as stated) fails for [clean] and for [setTuners]: on a busy
    planner both return normally, [clean] having dropped a reservation and
    [setTuners] having replaced the tuners. *)
Lemma clean_and_setTuners_ignore_flag :
  isRunning Trace.busy = true
  ∧ ¬ failsFast (clean Trace.late) Trace.busy
  ∧ ¬ failsFast (setTuners []) Trace.busy
  ∧ reserves (clean Trace.late Trace.busy).2 = []
  ∧ tuners (setTuners [] Trace.busy).2 = [].
Proof.
  split_and!; try done.
  - intros (e & _ & H). vm_compute in H. discriminate.
  - intros (e & _ & H). vm_compute in H. discriminate.
Qed.

(** ** C3: the flag at the end of an operation *)

Lemma removeSkipLoop_None id' rs :
  Forall (λ r, programId r ≠ id') rs → removeSkipLoop id' rs = None.
Proof.
  induction 1 as [|r rs Hr _ IH]; simpl; [done|].
  rewrite bool_decide_false by done. by rewrite IH.
Qed.

(** [removeSkip] for an id that no reservation has returns normally and
    leaves the flag set. *)
Lemma removeSkip_no_match (env : Env) (s : State) (id' : Z) :
  isRunning s = false →
  Forall (λ r, programId r ≠ id') (reserves s) →
  removeSkip env id' s = (inr (), set_isRunning true s).
Proof.
  intros Hrun Hno. unfold removeSkip, mbind, M_bind, gets, modify. rewrite Hrun.
  simpl. by rewrite removeSkipLoop_None.
Qed.

(** [updateAll] with a rule store that fails ends with the error of the
    store and leaves the flag set. *)
Lemma updateAll_findAll_fails (env : Env) (s : State) (e : Error) :
  isRunning s = false →
  rulesDB_findAll env = inl e →
  (updateAll env s).1 = inl e ∧ isRunning (updateAll env s).2 = true.
Proof.
  intros Hrun Hfail. unfold updateAll, mbind, M_bind, gets, modify, awaitOr.
  rewrite Hrun, Hfail. done.
Qed.

(** C3 fails on the code. On an idle planner without reservations,
    [removeSkip 7] returns normally with [isRunning] still set; and
    [updateAll] against a rule store that is down throws with [isRunning]
    still set. *)
Theorem flag_left_set :
  removeSkip Trace.early 7 Trace.start = (inr (), set_isRunning true Trace.start)
  ∧ updateAll Trace.moved Trace.start
    = (inl (DBError 0), set_isRunning true Trace.start).
Proof. done. Qed.

(** ** C8: the order of the list *)

Lemma byStartAt_total : cmp_total byStartAt.
Proof. intros a b. unfold byStartAt. lia. Qed.

Lemma byStartAt_le a b : cmp_le byStartAt a b ↔ startAt_le a b.
Proof. unfold cmp_le, byStartAt, startAt_le. lia. Qed.

(** What [createReserves] returns, and what [addReserve] stores, is in
    order: both end with the sort by [startAt]. *)
Lemma js_sort_byStartAt_Sorted (l : list ReserveProgram) :
  Sorted startAt_le (js_sort byStartAt l).
Proof.
  eapply Sorted_weaken; [|apply js_sort_Sorted, byStartAt_total].
  intros a b. apply byStartAt_le.
Qed.

Lemma createReserves_Sorted tuners matches :
  Sorted startAt_le (createReserves tuners matches).2.
Proof. apply js_sort_byStartAt_Sorted. Qed.

(** C8 fails on the code. Two manual reservations are added; the catalogue
    then moves program 1 behind program 2; [updateAll] refreshes program 1
    in the list and then fails on the rule store, before anything is sorted
    again; the [clean] that follows succeeds, and the list the readers see
    in that state, which the planner has reached by public calls alone, is
    out of order. *)
Theorem order_lost_after_failed_updateAll :
  let r1 := addReserve Trace.early 1 None Trace.start in
  let r2 := addReserve Trace.early 2 None r1.2 in
  let r3 := updateAll Trace.moved r2.2 in
  let r4 := clean Trace.moved r3.2 in
  r1.1 = inr () ∧ r2.1 = inr ()
  ∧ Sorted startAt_le (getReservesAll r2.2 None 0)
  ∧ r3.1 = inl (DBError 0)
  ∧ r4.1 = inr ()
  ∧ reachable r4.2
  ∧ ¬ Sorted startAt_le (getReservesAll r4.2 None 0).
Proof.
  split_and!; try done.
  - vm_compute. repeat constructor. all: discriminate.
  - apply (reachable_call Trace.moved CallClean).
    apply (reachable_call Trace.moved CallUpdateAll).
    apply (reachable_call Trace.early (CallAddReserve 2 None)).
    apply (reachable_call Trace.early (CallAddReserve 1 None)).
    change Trace.start
      with (call Trace.early (CallSetTuners [mkDevice 0 [GR]])
                 (mkState false [] [] [])).2.
    apply reachable_call, reachable_start.
  - intros H. vm_compute in H.
    apply Sorted_inv in H as [_ H]. apply HdRel_inv in H.
    by apply H.
Qed.

(** ** C2: [addReserve] and the resolver *)

Local Arguments createReserves : simpl never.

Lemma collectOverlap_filter programId' new rs acc :
  Forall (λ r, programId r ≠ programId') rs →
  collectOverlap programId' new rs acc =
  Some (acc ++ List.filter
                 (λ r, negb (isConflict r) && negb (isSkip r) && meets r new) rs).
Proof.
  intros Hno. revert acc.
  induction Hno as [|r rs Hr _ IH]; intros acc; simpl.
  { by rewrite app_nil_r. }
  rewrite bool_decide_false by done.
  destruct (negb (isConflict r) && negb (isSkip r) && meets r new).
  - rewrite IH. by rewrite <- app_assoc.
  - apply IH.
Qed.

Lemma collectOverlap_reserved programId' new rs acc :
  Exists (λ r, programId r = programId') rs →
  collectOverlap programId' new rs acc = None.
Proof.
  intros Hex. revert acc. induction rs as [|r rs IH]; intros acc.
  { by apply Exists_nil in Hex. }
  simpl. destruct (decide (programId r = programId')) as [Heq|Hne].
  { by rewrite bool_decide_true. }
  rewrite bool_decide_false by done.
  apply Exists_cons in Hex as [?|Hex]; [done|].
  destruct (_ && _); by apply IH.
Qed.

Lemma existsb_isConflict (l : list ReserveProgram) :
  existsb isConflict l = true ↔ ∃ r, r ∈ l ∧ isConflict r = true.
Proof.
  rewrite existsb_exists. by setoid_rewrite list_elem_of_In.
Qed.

Lemma addReserve_unfold (env : Env) (s : State) (programId' : Z)
    (encode : option EncodeInterface) (p : ProgramSchema.t)
    (ps : list ProgramSchema.t) :
  isRunning s = false →
  (∀ e, encode = Some e → checkEncodeOption env e = true) →
  programDB_findId env programId' = inr (p :: ps) →
  Forall (λ r, programId r ≠ programId') (reserves s) →
  addReserve env programId' encode s =
  let new := newReserve env p encode in
  let cr := createReserves (tuners s) (candidateSet (reserves s) new) in
  let s1 := set_tuners cr.1 (set_isRunning true s) in
  if existsb isConflict cr.2
  then (inl ReservationManagerAddReserveConflict, set_isRunning false s1)
  else (inr (),
        set_isRunning false
          (writeReservesFile
             (set_reserves (js_sort byStartAt (reserves s ++ [new])) s1))).
Proof.
  intros Hrun Hvalid Hfound Hfree.
  assert (match encode with
          | Some e => negb (checkEncodeOption env e)
          | None => false
          end = false) as Hcheck.
  { destruct encode as [e|]; [|done]. by rewrite (Hvalid e eq_refl). }
  unfold addReserve, mbind, M_bind, gets, modify, awaitOr, throw, mret, M_ret.
  rewrite Hrun, Hcheck, Hfound.
  cbn -[createReserves js_sort].
  rewrite (collectOverlap_filter _ _ _ [] Hfree).
  cbn -[createReserves js_sort].
  unfold candidateSet, newReserve.
  destruct (createReserves _ _) as [ts' newReserves].
  cbn -[js_sort]. by destruct (existsb isConflict newReserves).
Qed.

(** C2 (as amended). For a valid request for a program that the catalogue
    knows and that is not reserved yet, [addReserve] aborts with the
    conflict error iff the resolver, run over the candidates, marks any of
    them, the new program or one of the reservations it would displace. On
    that abort the list and the document are as before. Otherwise the call
    succeeds, the list is the old one with the new reservation appended and
    sorted by [startAt], and that list is written. The flag is cleared
    either way. *)
Theorem addReserve_conflict_iff (env : Env) (s : State) (programId' : Z)
    (encode : option EncodeInterface) (p : ProgramSchema.t)
    (ps : list ProgramSchema.t) :
  isRunning s = false →
  (∀ e, encode = Some e → checkEncodeOption env e = true) →
  programDB_findId env programId' = inr (p :: ps) →
  Forall (λ r, programId r ≠ programId') (reserves s) →
  let new := newReserve env p encode in
  let result := addReserve env programId' encode s in
  (result.1 = inl ReservationManagerAddReserveConflict
   ↔ someCandidateMarked (tuners s) (reserves s) new)
  ∧ (someCandidateMarked (tuners s) (reserves s) new →
     reserves result.2 = reserves s ∧ written result.2 = written s)
  ∧ (¬ someCandidateMarked (tuners s) (reserves s) new →
     result.1 = inr ()
     ∧ reserves result.2 = js_sort byStartAt (reserves s ++ [new])
     ∧ written result.2 = js_sort byStartAt (reserves s ++ [new]) :: written s)
  ∧ isRunning result.2 = false.
Proof.
  intros Hrun Hvalid Hfound Hfree new result.
  subst result. rewrite (addReserve_unfold env s programId' encode p ps) by done.
  unfold someCandidateMarked.
  setoid_rewrite <- existsb_isConflict.
  cbv zeta. fold new.
  destruct (existsb isConflict
              (createReserves (tuners s) (candidateSet (reserves s) new)).2).
  - by split_and!.
  - by split_and!.
Qed.

Lemma addReserve_conflict_iff_witness :
  (addReserve Displace.env 2 None Displace.planner).1
  = inl ReservationManagerAddReserveConflict
  ↔ someCandidateMarked (tuners Displace.planner) (reserves Displace.planner)
      (newReserve Displace.env (Scenario.prog 2 150 250) None).
Proof.
  refine (proj1 (addReserve_conflict_iff Displace.env Displace.planner 2 None
                   (Scenario.prog 2 150 250) [] eq_refl _ eq_refl _)).
  - intros e. discriminate.
  - repeat constructor. vm_compute. discriminate.
Defined.

(** C2 (as stated) fails. One tuner holds rule program 1 over [100, 300);
    manual program 2 over [150, 250) is requested. The resolver gives the
    tuner to program 2 and marks program 1, not the new program, and
    [addReserve] aborts all the same. *)
Lemma addReserve_aborts_for_displaced :
  (addReserve Displace.env 2 None Displace.planner).1
  = inl ReservationManagerAddReserveConflict
  ∧ ¬ newProgramMarked (tuners Displace.planner) (reserves Displace.planner)
        (newReserve Displace.env (Scenario.prog 2 150 250) None).
Proof.
  split; [done|].
  intros (r & Hin & Hid & Hc).
  assert ((createReserves (tuners Displace.planner)
             (candidateSet (reserves Displace.planner)
                (newReserve Displace.env (Scenario.prog 2 150 250) None))).2
          = [set_isConflict true Scenario.P1;
             newReserve Displace.env (Scenario.prog 2 150 250) None]) as Heq
    by done.
  rewrite Heq in Hin.
  apply elem_of_cons in Hin as [->|Hin]; [discriminate|].
  apply list_elem_of_singleton in Hin as ->. discriminate.
Qed.

(** ** The resolver as a whole *)

Lemma evaluate_erase tuners matches reserves :
  eraseConflict <$> (evaluate tuners matches reserves).2 = eraseConflict <$> matches.
Proof.
  revert tuners matches. induction reserves as [|r rest IH]; intros tuners matches.
  { done. }
  rewrite evaluate_cons.
  destruct (matches !! r.2) as [m|] eqn:Hr; [|apply IH].
  destruct (isSkip m); [apply IH|].
  destruct (addToTuners tuners (program m)); [apply IH|].
  rewrite IH, list_fmap_insert. apply list_insert_id.
  by rewrite list_lookup_fmap, Hr.
Qed.

Lemma evaluate_Forall (P : ReserveProgram → Prop) tuners matches reserves :
  (∀ m, P m → isSkip m = false → P (set_isConflict true m)) →
  Forall P matches → Forall P (evaluate tuners matches reserves).2.
Proof.
  intros HP. revert tuners matches.
  induction reserves as [|r rest IH]; intros tuners matches Hall; [done|].
  rewrite evaluate_cons.
  destruct (matches !! r.2) as [m|] eqn:Hr; [|by apply IH].
  destruct (isSkip m) eqn:Hskip; [by apply IH|].
  destruct (addToTuners tuners (program m)); [by apply IH|].
  apply IH, Forall_insert; [done|]. apply HP; [|done].
  eapply Forall_lookup_1; eauto.
Qed.

Lemma sweepStep_matches s l :
  sweepStep s l = s
  ∨ ∃ m, sw_matches s !! idx l = Some m ∧ isSkip m = false
         ∧ sw_reserves (sweepStep s l) = nextActive (sw_reserves s) m l
         ∧ sw_matches (sweepStep s l)
           = (evaluate (Tuner.clear <$> sw_tuners s) (sw_matches s)
                       (nextActive (sw_reserves s) m l)).2.
Proof.
  destruct (sw_matches s !! idx l) as [m|] eqn:Hm.
  2:{ left. apply sweepStep_idle. intros m. congruence. }
  destruct (isSkip m) eqn:Hskip.
  { left. apply sweepStep_idle. intros m'. congruence. }
  right. exists m. rewrite (sweepStep_active s l m Hm Hskip). done.
Qed.

(** An invariant of the sweep: what holds of the state before the first
    event and is kept by the allocation of one event holds at the end. *)
Lemma sweep_invariant (I : Sweep → Prop) (events : list SweepEvent) (s : Sweep) :
  (∀ s l, I s → I (sweepStep s l)) → I s → I (fold_left sweepStep events s).
Proof.
  intros Hstep. revert s. induction events as [|l events IH]; intros s Hs; [done|].
  simpl. apply IH. by apply Hstep.
Qed.

Lemma sweep_erase tuners matches events :
  eraseConflict <$> sw_matches (sweep tuners matches events) = eraseConflict <$> matches.
Proof.
  unfold sweep.
  apply (sweep_invariant
           (λ s, eraseConflict <$> sw_matches s = eraseConflict <$> matches)); [|done].
  intros s l Hs. destruct (sweepStep_matches s l) as [->|(m & _ & _ & _ & ->)]; [done|].
  by rewrite evaluate_erase.
Qed.

Lemma sweep_Forall (P : ReserveProgram → Prop) tuners matches events :
  (∀ m, P m → isSkip m = false → P (set_isConflict true m)) →
  Forall P matches → Forall P (sw_matches (sweep tuners matches events)).
Proof.
  intros HP Hall. unfold sweep.
  apply (sweep_invariant (λ s, Forall P (sw_matches s))); [|done].
  intros s l Hs. destruct (sweepStep_matches s l) as [->|(m & _ & _ & _ & ->)]; [done|].
  by apply evaluate_Forall.
Qed.

Lemma sweep_active_Sorted tuners matches events :
  Sorted (λ a b, authority a.1 b.1) (sw_reserves (sweep tuners matches events)).
Proof.
  unfold sweep.
  apply (sweep_invariant (λ s, Sorted (λ a b, authority a.1 b.1) (sw_reserves s)));
    [|constructor].
  intros s l Hs. destruct (sweepStep_matches s l) as [->|(m & _ & _ & -> & _)]; [done|].
  apply nextActive_Sorted.
Qed.

(** *** Deduplication *)

Lemma filter_ext_in {A} (f g : A → bool) (l : list A) :
  (∀ x, x ∈ l → f x = g x) → List.filter f l = List.filter g l.
Proof.
  intros H. apply List.filter_ext_in. intros x Hx. apply H. by apply list_elem_of_In.
Qed.

Lemma filter_filter {A} (f g : A → bool) (l : list A) :
  List.filter f (List.filter g l) = List.filter (λ x, g x && f x) l.
Proof.
  induction l as [|x l IH]; simpl; [done|].
  destruct (g x); simpl; [|done]. destruct (f x); by rewrite IH.
Qed.

Lemma filter_all {A} (f : A → bool) (l : list A) :
  (∀ x, x ∈ l → f x = true) → List.filter f l = l.
Proof.
  induction l as [|x l IH]; intros H; simpl; [done|].
  rewrite (H x) by left. rewrite IH; [done|]. intros y Hy. apply H. by right.
Qed.

Lemma firstsFrom_keepFirst seen l :
  firstsFrom seen l = List.filter (unseen seen) (keepFirst l).
Proof.
  revert seen. induction l as [|r rest IH]; intros seen; [done|].
  cbn [firstsFrom keepFirst List.filter].
  destruct (seen !! programId r) as [b|] eqn:Hseen.
  - assert (unseen seen r = false) as ->.
    { unfold unseen. rewrite Hseen. by rewrite bool_decide_false. }
    rewrite IH, filter_filter. apply filter_ext_in. intros x _.
    unfold unseen. destruct (decide (programId x = programId r)) as [Heq|Hne].
    + rewrite (bool_decide_true _ Heq). simpl. rewrite Heq, Hseen.
      by rewrite bool_decide_false.
    + by rewrite (bool_decide_false _ Hne).
  - assert (unseen seen r = true) as ->.
    { unfold unseen. rewrite Hseen. by rewrite bool_decide_true. }
    f_equal.
    rewrite IH, filter_filter. apply filter_ext_in. intros x _.
    unfold unseen. destruct (decide (programId x = programId r)) as [Heq|Hne].
    + rewrite (bool_decide_true _ Heq). simpl. rewrite Heq, lookup_insert_eq.
      by rewrite bool_decide_false.
    + rewrite (bool_decide_false _ Hne). simpl.
      by rewrite lookup_insert_ne.
Qed.

Lemma firstsFrom_empty l : firstsFrom ∅ l = keepFirst l.
Proof.
  rewrite firstsFrom_keepFirst. apply filter_all. intros x _.
  unfold unseen. by rewrite lookup_empty, bool_decide_true.
Qed.

Lemma keepFirst_elem_of x l : x ∈ keepFirst l → x ∈ l.
Proof.
  revert x. induction l as [|r rest IH]; intros x; simpl; [done|].
  intros [->|Hx]%elem_of_cons; [left|right].
  apply IH. apply list_elem_of_In, List.filter_In in Hx as [Hx _].
  by apply list_elem_of_In.
Qed.

Lemma keepFirst_covers x l :
  x ∈ l → ∃ y, y ∈ keepFirst l ∧ programId y = programId x.
Proof.
  induction l as [|r rest IH]; simpl; [by intros ?%elem_of_nil|].
  intros [->|Hx]%elem_of_cons.
  { exists r. split; [left|done]. }
  destruct (IH Hx) as (y & Hy & Hid).
  destruct (decide (programId y = programId r)) as [Heq|Hne].
  - exists r. split; [left|congruence].
  - exists y. split; [|done]. right.
    apply list_elem_of_In, List.filter_In. split; [by apply list_elem_of_In|].
    by rewrite bool_decide_false.
Qed.

(** The events of [buildList] give back, from the final [matches], the
    first occurrences of the list the events were built from. *)
Lemma emitted_buildList l i seen (final : list ReserveProgram) :
  drop i (eraseConflict <$> final) = eraseConflict <$> l →
  eraseConflict <$> emitted final (buildList l i seen)
  = eraseConflict <$> firstsFrom seen l.
Proof.
  revert i seen. induction l as [|r rest IH]; intros i seen Hdrop; simpl; [done|].
  assert (drop (S i) (eraseConflict <$> final) = eraseConflict <$> rest) as Hrest.
  { rewrite <- (Nat.add_1_r i), <- drop_drop, Hdrop. done. }
  destruct (seen !! programId r); [by apply IH|].
  unfold emitted. simpl. fold (emitted final).
  assert ((eraseConflict <$> final) !! i = Some (eraseConflict r)) as Hi.
  { rewrite <- (Nat.add_0_r i), <- lookup_drop, Hdrop. done. }
  rewrite list_lookup_fmap in Hi.
  destruct (final !! i) as [r'|]; [|done]. apply (inj Some) in Hi.
  rewrite fmap_cons, Hi. f_equal. by apply IH.
Qed.

Lemma createReserves_emitted tuners matches :
  let sorted := js_sort sortReserveProgram matches in
  (createReserves tuners matches).2
  ≡ₚ emitted (sw_matches (sweep tuners sorted (sortedEvents sorted)))
             (buildList sorted 0 ∅).
Proof.
  intros sorted. unfold createReserves. simpl. fold sorted.
  rewrite js_sort_perm. unfold emitted, sortedEvents.
  by rewrite js_sort_perm.
Qed.

(** The resolver emits the first occurrence of each program id in the
    authority order, with whatever flag the sweep has given it. *)
Lemma createReserves_keepFirst tuners matches :
  eraseConflict <$> (createReserves tuners matches).2
  ≡ₚ eraseConflict <$> keepFirst (js_sort sortReserveProgram matches).
Proof.
  rewrite createReserves_emitted.
  rewrite (emitted_buildList _ 0 ∅).
  - by rewrite firstsFrom_empty.
  - rewrite drop_0. apply sweep_erase.
Qed.

(** ** The authority order of the active set *)

Lemma Sorted_fmap_fst (l : list (ReserveProgram * nat)) :
  Sorted (λ a b, authority a.1 b.1) l → Sorted authority l.*1.
Proof.
  induction 1 as [|a l Hl IH Hhd]; simpl; constructor; [done|].
  destruct Hhd; simpl; by constructor.
Qed.

Lemma hasOriginId_set_isConflict b m : hasOriginId (set_isConflict b m) ↔ hasOriginId m.
Proof. done. Qed.

Lemma sweep_active_hasOriginId tuners matches events :
  Forall hasOriginId matches →
  Forall hasOriginId (sw_reserves (sweep tuners matches events)).*1.
Proof.
  intros Hwf. unfold sweep.
  apply (sweep_invariant
           (λ s, Forall hasOriginId (sw_matches s)
                 ∧ Forall hasOriginId (sw_reserves s).*1)); [|by split].
  intros s l [Hms Hact].
  destruct (sweepStep_matches s l) as [->|(m & Hm & _ & -> & ->)]; [done|].
  split.
  - apply evaluate_Forall; [|done]. intros m' Hm' _. by apply hasOriginId_set_isConflict.
  - rewrite nextActive_perm. destruct (isStart l).
    + rewrite fmap_app. apply Forall_app. split; [done|].
      apply Forall_singleton. simpl. by eapply (Forall_lookup_1 _ _ _ _ Hms).
    + rewrite Forall_fmap, Forall_forall. intros x Hx.
      apply list_elem_of_filter in Hx as [_ Hx].
      rewrite Forall_fmap, Forall_forall in Hact. by apply Hact.
Qed.

(** ** C6: a skip outlives [updateAll] *)

Lemma createReserves_elem_of tuners matches r :
  r ∈ (createReserves tuners matches).2 →
  ∃ x, x ∈ matches ∧ eraseConflict x = eraseConflict r.
Proof.
  intros Hr.
  apply (list_elem_of_fmap_2 eraseConflict) in Hr.
  rewrite createReserves_keepFirst in Hr.
  apply list_elem_of_fmap in Hr as (x & Heq & Hx).
  exists x. split; [|done].
  apply keepFirst_elem_of in Hx. by apply js_sort_elem_of in Hx.
Qed.

Lemma createReserves_covers tuners matches x :
  x ∈ matches →
  ∃ r, r ∈ (createReserves tuners matches).2 ∧ programId r = programId x.
Proof.
  intros Hx. apply (js_sort_elem_of sortReserveProgram) in Hx.
  apply keepFirst_covers in Hx as (y & Hy & Hid).
  apply (list_elem_of_fmap_2 eraseConflict) in Hy.
  rewrite <- createReserves_keepFirst in Hy.
  apply list_elem_of_fmap in Hy as (r & Heq & Hr).
  exists r. split; [done|]. rewrite <- Hid.
  change (programId (eraseConflict r) = programId (eraseConflict y)).
  by rewrite Heq.
Qed.

Lemma recordSkip_lookup r si k :
  si !! k = Some true ∨ (programId r = k ∧ isSkip r = true) →
  recordSkip r si !! k = Some true.
Proof.
  unfold recordSkip. intros [Hsi|[<- Hskip]].
  - destruct (isSkip r) eqn:Hskip; [|done].
    destruct (decide (programId r = k)) as [<-|Hne].
    + by rewrite lookup_insert_eq.
    + by rewrite lookup_insert_ne.
  - rewrite Hskip. by rewrite lookup_insert_eq.
Qed.

Lemma scanManual_cons env r rest matches si :
  ∃ r' matches',
    scanManual env (r :: rest) matches si =
    (let sc := scanManual env rest matches' (recordSkip r si) in
     mkScan (r' :: scan_reserves sc) (scan_matches sc) (scan_skipIndex sc))
    ∧ (r' = r ∨ ∃ p ps, programDB_findId env (programId r) = inr (p :: ps)
                         ∧ r' = set_program p r)
    ∧ (matches' = matches ∨ matches' = matches ++ [r'] ∧
         ∃ p ps, programDB_findId env (programId r) = inr (p :: ps)
                 ∧ r' = set_program p r).
Proof.
  simpl. destruct (negb (isManual r) || bool_decide (manualId r = None)).
  { exists r, matches. split_and!; by try left. }
  destruct (programDB_findId env (programId r)) as [e|[|p ps]] eqn:Hfind.
  - exists r, matches. split_and!; by try left.
  - exists r, matches. split_and!; by try left.
  - exists (set_program p r), (matches ++ [set_program p r]).
    split_and!; [done|right|right]; eauto.
Qed.

Lemma scanManual_skipIndex env rs matches si k :
  si !! k = Some true ∨ (∃ r, r ∈ rs ∧ programId r = k ∧ isSkip r = true) →
  scan_skipIndex (scanManual env rs matches si) !! k = Some true.
Proof.
  revert matches si. induction rs as [|r rest IH]; intros matches si H.
  { destruct H as [H|(r & Hr & _)]; [done|]. by apply elem_of_nil in Hr. }
  destruct (scanManual_cons env r rest matches si) as (r' & matches' & -> & _ & _).
  simpl. apply IH.
  destruct H as [H|(x & [->|Hx]%elem_of_cons & Hid & Hskip)].
  - left. apply recordSkip_lookup. by left.
  - left. apply recordSkip_lookup. by right.
  - right. by exists x.
Qed.

Lemma scanManual_matches env rs matches si x :
  x ∈ scan_matches (scanManual env rs matches si) →
  x ∈ matches
  ∨ ∃ r p ps, r ∈ rs ∧ programDB_findId env (programId r) = inr (p :: ps)
              ∧ x = set_program p r.
Proof.
  revert matches si. induction rs as [|r rest IH]; intros matches si Hx.
  { by left. }
  destruct (scanManual_cons env r rest matches si)
    as (r' & matches' & Heq & _ & Hm).
  rewrite Heq in Hx. simpl in Hx. apply IH in Hx.
  destruct Hx as [Hx|(r0 & p & ps & Hr0 & Hfind & ->)].
  - destruct Hm as [->|[-> (p & ps & Hfind & ->)]]; [by left|].
    apply elem_of_app in Hx as [Hx|Hx]; [by left|].
    apply list_elem_of_singleton in Hx as ->.
    right. exists r, p, ps. split_and!; [left|done|done].
  - right. exists r0, p, ps. split_and!; [by right|done|done].
Qed.

Lemma scanRules_elem_of env rules si matches x :
  x ∈ scanRules env rules si matches ↔
  x ∈ matches
  ∨ ∃ rule programs p,
      rule ∈ rules ∧ RulesSchema.enable rule = true
      ∧ programDB_findRule env (createSearchOption rule) = inr programs
      ∧ p ∈ programs ∧ x = ruleReserve rule (RulesSchema.id rule) si p.
Proof.
  revert matches. induction rules as [|rule rest IH]; intros matches; simpl.
  { split; [by left|]. intros [?|(rule & ? & ? & Hin & _)]; [done|].
    by apply elem_of_nil in Hin. }
  destruct (RulesSchema.enable rule) eqn:Hen; simpl.
  2:{ rewrite IH. apply or_iff_compat_l. split.
      - intros (rule' & programs & p & Hin & H). exists rule', programs, p.
        split; [by right|done].
      - intros (rule' & programs & p & [->|Hin]%elem_of_cons & Hen' & H).
        + congruence.
        + by exists rule', programs, p. }
  destruct (programDB_findRule env (createSearchOption rule)) as [e|programs] eqn:Hfind.
  { rewrite IH. apply or_iff_compat_l. split.
    - intros (rule' & programs & p & Hin & H). exists rule', programs, p.
      split; [by right|done].
    - intros (rule' & programs & p & [->|Hin]%elem_of_cons & Hen' & Hfind' & H).
      + congruence.
      + by exists rule', programs, p. }
  rewrite IH, elem_of_app, list_elem_of_fmap. split.
  - intros [[Hx|(p & -> & Hp)]|(rule' & programs' & p & Hin & H)].
    + by left.
    + right. exists rule, programs, p. split_and!; [left|done..].
    + right. exists rule', programs', p. split; [by right|done].
  - intros [Hx|(rule' & programs' & p & [->|Hin]%elem_of_cons & Hen' & Hfind' & Hp & ->)].
    + left. by left.
    + left. right. exists p. split; [done|]. congruence.
    + right. by exists rule', programs', p.
Qed.

Lemma updateAll_unfold env s rules :
  isRunning s = false →
  rulesDB_findAll env = inr rules →
  updateAll env s =
  let sc := scanManual env (reserves s) [] ∅ in
  let matches := scanRules env rules (scan_skipIndex sc) (scan_matches sc) in
  (inr (),
   set_isRunning false
     (writeReservesFile
        (commitReserves matches
           (set_reserves (scan_reserves sc) (set_isRunning true s))))).
Proof.
  intros Hrun Hrules.
  unfold updateAll, mbind, M_bind, gets, modify, awaitOr, mret, M_ret.
  by rewrite Hrun, Hrules.
Qed.

Lemma commitReserves_reserves matches s :
  reserves (commitReserves matches s) = (createReserves (tuners s) matches).2.
Proof. unfold commitReserves. by destruct (createReserves _ _). Qed.

Lemma getReserve_Some_iff s p :
  (∃ r, getReserve s p = Some r) ↔ ∃ r, r ∈ reserves s ∧ programId r = p.
Proof.
  unfold getReserve. split.
  - intros (r & Hr). apply find_some in Hr as [Hin Hid].
    exists r. split; [by apply list_elem_of_In|]. by apply bool_decide_eq_true in Hid.
  - intros (r & Hin & Hid).
    destruct (find _ _) as [r'|] eqn:Hfind; [by exists r'|].
    apply list_elem_of_In in Hin.
    pose proof (find_none _ _ Hfind r Hin) as Hno. simpl in Hno.
    by rewrite bool_decide_true in Hno.
Qed.

Lemma getReserve_elem_of s p r :
  getReserve s p = Some r → r ∈ reserves s ∧ programId r = p.
Proof.
  unfold getReserve. intros Hr. apply find_some in Hr as [Hin Hid].
  split; [by apply list_elem_of_In|]. by apply bool_decide_eq_true in Hid.
Qed.

(** C6. Let the catalogue answer a lookup by id with a program of that
    id. If program [p] is reserved with [isSkip] set when [updateAll]
    starts, and an enabled rule still matches a program with id [p], then
    [updateAll] succeeds and the reservation of [p] that it keeps has
    [isSkip] set. *)
Theorem updateAll_keeps_skip (env : Env) (s : State) (rules : list RulesSchema.t)
    (rule : RulesSchema.t) (programs : list ProgramSchema.t)
    (prog : ProgramSchema.t) (p : Z) :
  isRunning s = false →
  (∀ id' q qs, programDB_findId env id' = inr (q :: qs) → ProgramSchema.id q = id') →
  rulesDB_findAll env = inr rules →
  rule ∈ rules →
  RulesSchema.enable rule = true →
  programDB_findRule env (createSearchOption rule) = inr programs →
  prog ∈ programs →
  ProgramSchema.id prog = p →
  (∃ r, getReserve s p = Some r) →
  (∀ r, r ∈ reserves s → programId r = p → isSkip r = true) →
  (updateAll env s).1 = inr ()
  ∧ (∃ r', getReserve (updateAll env s).2 p = Some r')
  ∧ ∀ r', r' ∈ reserves (updateAll env s).2 → programId r' = p → isSkip r' = true.
Proof.
  intros Hrun Hcat Hrules Hrule Hen Hfind Hprog Hid Hres Hskip.
  rewrite (updateAll_unfold env s rules Hrun Hrules). cbv zeta.
  set (sc := scanManual env (reserves s) [] ∅).
  set (matches := scanRules env rules (scan_skipIndex sc) (scan_matches sc)).
  cbn [fst snd]. unfold set_isRunning at 1. cbn [reserves].
  unfold writeReservesFile. cbn [reserves].
  rewrite commitReserves_reserves. cbn [tuners set_reserves set_isRunning].
  apply getReserve_Some_iff in Hres as (r0 & Hr0 & Hr0id).
  assert (scan_skipIndex sc !! p = Some true) as Hindex.
  { apply scanManual_skipIndex. right. exists r0. split_and!; [done..|].
    by apply Hskip. }
  assert (∀ x, x ∈ matches → programId x = p → isSkip x = true) as Hall.
  { intros x Hx Hxid. apply scanRules_elem_of in Hx
      as [Hx|(rule' & programs' & q & _ & _ & _ & _ & ->)].
    - apply scanManual_matches in Hx as [Hx|(r & q & qs & Hr & Hq & ->)].
      { by apply elem_of_nil in Hx. }
      simpl. apply Hskip; [done|].
      unfold programId in Hxid. simpl in Hxid.
      rewrite <- Hxid. symmetry. by eapply Hcat.
    - unfold programId in Hxid. simpl in *. by rewrite Hxid, Hindex. }
  assert (∃ x, x ∈ matches ∧ programId x = p) as (x & Hx & Hxid).
  { exists (ruleReserve rule (RulesSchema.id rule) (scan_skipIndex sc) prog).
    split; [|done]. apply scanRules_elem_of. right.
    by exists rule, programs, prog. }
  split; [done|]. split.
  - apply getReserve_Some_iff. cbn [reserves].
    destruct (createReserves_covers (tuners s) matches x Hx) as (r & Hr & Hrid).
    exists r. split; [done|congruence].
  - intros r' Hr' Hr'id.
    apply createReserves_elem_of in Hr' as (y & Hy & Heq).
    assert (programId y = programId r') as Hyid.
    { change (programId (eraseConflict y) = programId (eraseConflict r')).
      by rewrite Heq. }
    assert (isSkip y = isSkip r') as <-.
    { change (isSkip (eraseConflict y) = isSkip (eraseConflict r')).
      by rewrite Heq. }
    apply Hall; [done|congruence].
Qed.

Lemma updateAll_keeps_skip_witness :
  (updateAll Replan.env Replan.planner).1 = inr ()
  ∧ (∃ r', getReserve (updateAll Replan.env Replan.planner).2 1 = Some r')
  ∧ ∀ r', r' ∈ reserves (updateAll Replan.env Replan.planner).2 →
          programId r' = 1 → isSkip r' = true.
Proof.
  refine (updateAll_keeps_skip Replan.env Replan.planner [Replan.rule5]
            Replan.rule5 [Scenario.prog 1 100 300] (Scenario.prog 1 100 300) 1
            eq_refl _ eq_refl _ eq_refl eq_refl _ eq_refl _ _).
  - intros id' q qs. discriminate.
  - left.
  - left.
  - by eexists.
  - intros r Hr _. apply list_elem_of_singleton in Hr as ->. done.
Defined.

(** ** C7: skipped and in conflict at once *)

Lemma createReserves_Forall (P : ReserveProgram → Prop) tuners matches :
  (∀ m, P m → isSkip m = false → P (set_isConflict true m)) →
  Forall P matches → Forall P (createReserves tuners matches).2.
Proof.
  intros HP Hall. rewrite createReserves_emitted.
  apply Forall_forall. intros r Hr.
  apply list_elem_of_omap in Hr as (l & _ & Hl).
  destruct (isStart l); [|done].
  eapply Forall_lookup_1; [|exact Hl].
  apply sweep_Forall; [done|]. by apply js_sort_Forall.
Qed.

Lemma skipExcludesConflict_mark m :
  skipExcludesConflict m → isSkip m = false →
  skipExcludesConflict (set_isConflict true m).
Proof. unfold skipExcludesConflict. simpl. by intros _ ->. Qed.

Lemma skipExcludesConflict_unmark m : skipExcludesConflict (set_isConflict false m).
Proof. unfold skipExcludesConflict. simpl. apply andb_false_r. Qed.

Lemma skipExcludesConflict_unskip m : skipExcludesConflict (set_isSkip false m).
Proof. done. Qed.

Lemma skipExcludesConflict_program p m :
  skipExcludesConflict m → skipExcludesConflict (set_program p m).
Proof. done. Qed.

Lemma commitReserves_inv matches s :
  Forall skipExcludesConflict matches →
  plannerInv s → plannerInv (commitReserves matches s).
Proof.
  intros Hm [_ Hw]. split.
  - rewrite commitReserves_reserves.
    apply createReserves_Forall; [|done]. apply skipExcludesConflict_mark.
  - unfold commitReserves. by destruct (createReserves _ _).
Qed.

Lemma writeReservesFile_inv s : plannerInv s → plannerInv (writeReservesFile s).
Proof. intros [Hr Hw]. split; [done|]. by constructor. Qed.

Lemma set_reserves_inv rs s :
  Forall skipExcludesConflict rs → plannerInv s → plannerInv (set_reserves rs s).
Proof. by intros Hrs [_ Hw]. Qed.

Lemma set_isRunning_inv b s : plannerInv s → plannerInv (set_isRunning b s).
Proof. done. Qed.

Lemma set_tuners_inv ts s : plannerInv s → plannerInv (set_tuners ts s).
Proof. done. Qed.

Lemma scanManual_Forall env rs matches si :
  Forall skipExcludesConflict rs →
  Forall skipExcludesConflict matches →
  Forall skipExcludesConflict (scan_reserves (scanManual env rs matches si))
  ∧ Forall skipExcludesConflict (scan_matches (scanManual env rs matches si)).
Proof.
  intros Hrs. revert matches si.
  induction Hrs as [|r rest Hr Hrest IH]; intros matches si Hm; [done|].
  destruct (scanManual_cons env r rest matches si)
    as (r' & matches' & -> & Hr' & Hm').
  assert (skipExcludesConflict r') as HQ.
  { destruct Hr' as [->|(p & ps & _ & ->)]; [done|].
    by apply skipExcludesConflict_program. }
  assert (Forall skipExcludesConflict matches') as HQm.
  { destruct Hm' as [->|[-> _]]; [done|]. apply Forall_app. split; [done|].
    by apply Forall_singleton. }
  destruct (IH matches' (recordSkip r si) HQm) as [H1 H2].
  simpl. split; [by constructor|done].
Qed.

Lemma scanRules_Forall env rules si matches :
  Forall skipExcludesConflict matches →
  Forall skipExcludesConflict (scanRules env rules si matches).
Proof.
  intros Hm. apply Forall_forall. intros x Hx.
  apply scanRules_elem_of in Hx as [Hx|(rule & programs & p & _ & _ & _ & _ & ->)].
  - by eapply Forall_forall in Hm.
  - unfold skipExcludesConflict. simpl. apply andb_false_r.
Qed.

Lemma scanOthers_Forall ruleId' rs si :
  Forall skipExcludesConflict (scanOthers ruleId' rs si).1.
Proof.
  revert si. induction rs as [|r rest IH]; intros si; simpl; [done|].
  specialize (IH (recordSkip r si)).
  destruct (scanOthers ruleId' rest (recordSkip r si)) as [matches si'].
  destruct (bool_decide _); simpl in *; [|done].
  constructor; [|done]. apply skipExcludesConflict_unmark.
Qed.

Lemma ruleReserve_Forall rule ruleId' si programs :
  Forall skipExcludesConflict (ruleReserve rule ruleId' si <$> programs).
Proof.
  apply Forall_fmap, Forall_forall. intros p _.
  unfold skipExcludesConflict. simpl. apply andb_false_r.
Qed.

Lemma updateAll_inv env s : plannerInv s → plannerInv (updateAll env s).2.
Proof.
  intros Hinv.
  unfold updateAll, mbind, M_bind, gets, modify, awaitOr, throw, mret, M_ret.
  destruct (isRunning s) eqn:Hrun; [done|].
  destruct (scanManual_Forall env (reserves s) [] ∅) as [Hres Hmat];
    [apply Hinv|done|].
  destruct (rulesDB_findAll env) as [e|rules]; cbn [fst snd].
  - by apply set_reserves_inv.
  - apply set_isRunning_inv, writeReservesFile_inv, commitReserves_inv.
    + by apply scanRules_Forall.
    + by apply set_reserves_inv.
Qed.

Lemma updateRule_inv env ruleId' s : plannerInv s → plannerInv (updateRule env ruleId' s).2.
Proof.
  intros Hinv.
  unfold updateRule, mbind, M_bind, gets, modify, awaitOr, throw, mret, M_ret.
  destruct (isRunning s) eqn:Hrun; [done|].
  destruct (rulesDB_findId env ruleId') as [e|result]; [done|].
  cbn [fst snd].
  pose proof (scanOthers_Forall ruleId' (reserves s) ∅) as Hothers.
  destruct (scanOthers ruleId' (reserves s) ∅) as [others si] eqn:Hscan.
  simpl in Hothers.
  destruct result as [|r result'].
  { cbn. rewrite Hscan. cbn.
    by apply writeReservesFile_inv, commitReserves_inv. }
  destruct (RulesSchema.enable r).
  2:{ cbn. rewrite Hscan. cbn.
      by apply writeReservesFile_inv, commitReserves_inv. }
  destruct (programDB_findRule env (createSearchOption r)) as [e|programs]; [done|].
  cbn. rewrite Hscan. cbn.
  apply writeReservesFile_inv, commitReserves_inv; [|done].
  apply Forall_app. split; [done|]. apply ruleReserve_Forall.
Qed.

Lemma cancelLoop_Forall id' rs rs' :
  Forall skipExcludesConflict rs → cancelLoop id' rs = Some rs' →
  Forall skipExcludesConflict rs'.
Proof.
  intros Hrs. revert rs'. induction Hrs as [|r rest Hr Hrest IH]; intros rs'; simpl.
  { done. }
  destruct (bool_decide (programId r = id')).
  - destruct (isManual r); intros [= <-]; [done|].
    constructor; [|done]. apply skipExcludesConflict_unmark.
  - destruct (cancelLoop id' rest) as [rest'|]; [|done].
    intros [= <-]. constructor; [done|]. by apply IH.
Qed.

Lemma removeSkipLoop_Forall id' rs rs' rid :
  Forall skipExcludesConflict rs → removeSkipLoop id' rs = Some (rs', rid) →
  Forall skipExcludesConflict rs'.
Proof.
  intros Hrs. revert rs'. induction Hrs as [|r rest Hr Hrest IH]; intros rs'; simpl.
  { done. }
  destruct (bool_decide (programId r = id')).
  - intros [= <- _]. constructor; [|done]. apply skipExcludesConflict_unskip.
  - destruct (removeSkipLoop id' rest) as [[rest' rid']|]; [|done].
    simpl. intros [= <- <-]. constructor; [done|]. by apply IH.
Qed.

Lemma cancel_inv env id' s : plannerInv s → plannerInv (cancel env id' s).2.
Proof.
  intros Hinv.
  unfold cancel, mbind, M_bind, gets, modify, spawn, throw, mret, M_ret.
  destruct (isRunning s) eqn:Hrun; [done|]. cbn [fst snd reserves set_isRunning].
  destruct (cancelLoop id' (reserves s)) as [rs'|] eqn:Hloop; cbn [fst snd]; [|done].
  apply updateAll_inv, set_isRunning_inv, writeReservesFile_inv, set_reserves_inv;
    [|done].
  eapply cancelLoop_Forall; [apply Hinv|done].
Qed.

Lemma removeSkip_inv env id' s : plannerInv s → plannerInv (removeSkip env id' s).2.
Proof.
  intros Hinv.
  unfold removeSkip, mbind, M_bind, gets, modify, spawn, throw, mret, M_ret.
  destruct (isRunning s) eqn:Hrun; [done|]. cbn [fst snd reserves set_isRunning].
  destruct (removeSkipLoop id' (reserves s)) as [[rs' rid]|] eqn:Hloop;
    cbn [fst snd]; [|done].
  assert (plannerInv (set_isRunning false (set_reserves rs' (set_isRunning true s))))
    as Hinv'.
  { apply set_isRunning_inv, set_reserves_inv; [|done].
    eapply removeSkipLoop_Forall; [apply Hinv|done]. }
  destruct rid as [ruleId'|]; cbn [fst snd]; [|done].
  by apply updateRule_inv.
Qed.

Lemma addReserve_inv env programId' encode s :
  plannerInv s → plannerInv (addReserve env programId' encode s).2.
Proof.
  intros Hinv.
  unfold addReserve, mbind, M_bind, gets, modify, awaitOr, throw, mret, M_ret.
  destruct (isRunning s) eqn:Hrun; [done|].
  destruct (match encode with Some e => _ | None => _ end); [done|].
  destruct (programDB_findId env programId') as [e|[|p ps]]; [done..|].
  cbn -[createReserves js_sort].
  destruct (collectOverlap _ _ _ _) as [copies|]; [|done].
  cbn -[createReserves js_sort].
  destruct (createReserves _ _) as [ts' newReserves].
  cbn -[js_sort]. destruct (existsb isConflict newReserves); cbn -[js_sort]; [done|].
  apply set_isRunning_inv, writeReservesFile_inv, set_reserves_inv; [|done].
  apply js_sort_Forall, Forall_app. split; [apply Hinv|].
  by apply Forall_singleton.
Qed.

Lemma clean_inv env s : plannerInv s → plannerInv (clean env s).2.
Proof.
  intros [Hr Hw]. split; [|done]. simpl.
  apply Forall_forall. intros r Hin.
  apply list_elem_of_In, List.filter_In in Hin as [Hin _].
  apply list_elem_of_In in Hin. by eapply Forall_forall in Hr.
Qed.

Lemma call_inv env c s : plannerInv s → plannerInv (call env c s).2.
Proof.
  destruct c; simpl.
  - done.
  - apply addReserve_inv.
  - apply cancel_inv.
  - apply removeSkip_inv.
  - apply updateAll_inv.
  - apply updateRule_inv.
  - apply clean_inv.
Qed.

Lemma readReservesFile_inv s : plannerInv s → plannerInv (readReservesFile s).
Proof.
  intros [Hr Hw]. split; [|done]. simpl.
  destruct Hw; simpl; [constructor|done].
Qed.

Lemma reachable_inv s : reachable s → plannerInv s.
Proof.
  induction 1 as [|env c s _ IH|s _ IH].
  - by split.
  - by apply call_inv.
  - by apply readReservesFile_inv.
Qed.

(** C7. In every state the planner can be in, whatever was called before
    and whether it succeeded or threw, no reservation of the list has both
    [isSkip] and [isConflict] set; the same holds of every document
    written. *)
Theorem skip_excludes_conflict (s : State) :
  reachable s →
  Forall (λ r, ¬ (isSkip r = true ∧ isConflict r = true)) (reserves s)
  ∧ Forall (Forall (λ r, ¬ (isSkip r = true ∧ isConflict r = true))) (written s).
Proof.
  intros [Hr Hw]%reachable_inv.
  assert (∀ r, skipExcludesConflict r → ¬ (isSkip r = true ∧ isConflict r = true))
    as Himp.
  { unfold skipExcludesConflict. intros r H [Hs Hc]. by rewrite Hs, Hc in H. }
  split.
  - eapply Forall_impl; [exact Hr|exact Himp].
  - eapply Forall_impl; [exact Hw|]. intros l Hl. simpl in Hl.
    eapply Forall_impl; [exact Hl|exact Himp].
Qed.

Lemma skip_excludes_conflict_witness :
  Forall (λ r, ¬ (isSkip r = true ∧ isConflict r = true))
         (reserves (call Replan.env (CallCancel 1)
                      (call Replan.env CallUpdateAll
                         (call Replan.env (CallSetTuners [mkDevice 0 [GR]])
                            (mkState false [] [] [])).2).2).2).
Proof.
  refine (proj1 (skip_excludes_conflict _ _)).
  repeat apply reachable_call. apply reachable_start.
Defined.


(** * Further properties of the planner *)

(** ** The resolver and its candidates *)

Lemma emittedAs_refl x : emittedAs x x.
Proof. by split_and!. Qed.

Lemma emittedAs_trans x y z : emittedAs x y → emittedAs y z → emittedAs x z.
Proof.
  intros (Hxy & Hm1 & Hs1) (Hyz & Hm2 & Hs2). split_and!.
  - congruence.
  - auto.
  - intros Hs. rewrite <- Hs1 by done. apply Hs2.
    change (isSkip (eraseConflict y) = true). rewrite <- Hxy. done.
Qed.

Lemma emittedAs_mark m : isSkip m = false → emittedAs m (set_isConflict true m).
Proof. intros Hs. split_and!; [done|done|]. intros Hs'. congruence. Qed.

Lemma emittedAs_fields x r :
  emittedAs x r →
  program r = program x ∧ ruleId r = ruleId x ∧ ruleOption r = ruleOption x
  ∧ encodeOption r = encodeOption x ∧ isSkip r = isSkip x
  ∧ isManual r = isManual x ∧ manualId r = manualId x.
Proof.
  intros (Heq & _). unfold eraseConflict, set_isConflict in Heq.
  injection Heq as <- <- <- <- <- <- <-. done.
Qed.

Lemma Forall2_emittedAs_refl l : Forall2 emittedAs l l.
Proof. induction l; constructor; [apply emittedAs_refl|done]. Qed.

Lemma Forall2_emittedAs_trans l1 l2 l3 :
  Forall2 emittedAs l1 l2 → Forall2 emittedAs l2 l3 → Forall2 emittedAs l1 l3.
Proof.
  intros H12. revert l3. induction H12 as [|x y l1 l2 Hxy _ IH]; intros l3 H23.
  - by inversion H23.
  - inversion H23 as [|y' z l2' l3' Hyz H23']; subst.
    constructor; [by eapply emittedAs_trans|by apply IH].
Qed.

Lemma evaluate_emittedAs tuners matches reserves :
  Forall2 emittedAs matches (evaluate tuners matches reserves).2.
Proof.
  revert tuners matches. induction reserves as [|r rest IH]; intros tuners matches.
  { apply Forall2_emittedAs_refl. }
  rewrite evaluate_cons.
  destruct (matches !! r.2) as [m|] eqn:Hr; [|apply IH].
  destruct (isSkip m) eqn:Hskip; [apply IH|].
  destruct (addToTuners tuners (program m)); [apply IH|].
  eapply Forall2_emittedAs_trans; [|apply IH].
  rewrite <- (list_insert_id matches r.2 m Hr) at 1.
  apply Forall2_insert; [apply Forall2_emittedAs_refl|by apply emittedAs_mark].
Qed.

Lemma sweepStep_emittedAs s l : Forall2 emittedAs (sw_matches s) (sw_matches (sweepStep s l)).
Proof.
  destruct (sweepStep_matches s l) as [->|(m & _ & _ & _ & ->)].
  - apply Forall2_emittedAs_refl.
  - apply evaluate_emittedAs.
Qed.

Lemma fold_sweepStep_emittedAs events s :
  Forall2 emittedAs (sw_matches s) (sw_matches (fold_left sweepStep events s)).
Proof.
  apply (sweep_invariant (λ s', Forall2 emittedAs (sw_matches s) (sw_matches s'))).
  - intros s' l Hs'. eapply Forall2_emittedAs_trans; [exact Hs'|].
    apply sweepStep_emittedAs.
  - apply Forall2_emittedAs_refl.
Qed.

Lemma emitted_buildList_emittedAs l i seen (final : list ReserveProgram) :
  Forall2 emittedAs l (drop i final) →
  Forall2 emittedAs (firstsFrom seen l) (emitted final (buildList l i seen)).
Proof.
  revert i seen. induction l as [|r rest IH]; intros i seen Hdrop; simpl.
  { constructor. }
  inversion Hdrop as [|r0 r' l0 d' Hrr' Hrest Hl Hd]; subst.
  assert (final !! i = Some r') as Hi.
  { rewrite <- (Nat.add_0_r i), <- lookup_drop, <- Hd. done. }
  assert (drop (S i) final = d') as Hd'.
  { rewrite <- (Nat.add_1_r i), <- drop_drop, <- Hd. done. }
  destruct (seen !! programId r).
  - apply IH. by rewrite Hd'.
  - unfold emitted. cbn [omap list_omap isStart idx]. rewrite Hi.
    constructor; [done|]. apply IH. by rewrite Hd'.
Qed.

(** The list that [createReserves] returns is, in some order, the list of
    the first occurrences, each as the resolver emits it. *)
Lemma createReserves_emittedAs tuners matches :
  ∃ out, (createReserves tuners matches).2 ≡ₚ out
         ∧ Forall2 emittedAs (keepFirst (js_sort sortReserveProgram matches)) out.
Proof.
  eexists. split; [apply createReserves_emitted|].
  rewrite <- firstsFrom_empty. apply emitted_buildList_emittedAs.
  rewrite drop_0.
  apply (fold_sweepStep_emittedAs _ (mkSweep tuners (js_sort sortReserveProgram matches) [])).
Qed.

Lemma createReserves_from tuners matches r :
  r ∈ (createReserves tuners matches).2 →
  ∃ x, x ∈ keepFirst (js_sort sortReserveProgram matches) ∧ emittedAs x r.
Proof.
  destruct (createReserves_emittedAs tuners matches) as (out & Hperm & Hall).
  rewrite Hperm. intros Hr.
  apply list_elem_of_lookup in Hr as (i & Hi).
  destruct (Forall2_lookup_r _ _ _ _ _ Hall Hi) as (x & Hx & Hxr).
  exists x. split; [|done]. by eapply list_elem_of_lookup_2.
Qed.

Lemma createReserves_to tuners matches x :
  x ∈ keepFirst (js_sort sortReserveProgram matches) →
  ∃ r, r ∈ (createReserves tuners matches).2 ∧ emittedAs x r.
Proof.
  destruct (createReserves_emittedAs tuners matches) as (out & Hperm & Hall).
  setoid_rewrite Hperm. intros Hx.
  apply list_elem_of_lookup in Hx as (i & Hi).
  destruct (Forall2_lookup_l _ _ _ _ _ Hall Hi) as (r & Hr & Hxr).
  exists r. split; [|done]. by eapply list_elem_of_lookup_2.
Qed.

Lemma filter_fmap_NoDup {A B} (f : A → B) (g : A → bool) (l : list A) :
  NoDup (f <$> l) → NoDup (f <$> List.filter g l).
Proof.
  induction l as [|x l IH]; simpl; [done|].
  intros [Hx Hl]%NoDup_cons. destruct (g x); simpl; [|by apply IH].
  apply NoDup_cons. split; [|by apply IH].
  intros (y & Hy & Hin)%list_elem_of_fmap. apply Hx.
  apply list_elem_of_fmap. exists y. split; [done|].
  apply list_elem_of_In, List.filter_In in Hin as [Hin _]. by apply list_elem_of_In.
Qed.

Lemma keepFirst_NoDup l : NoDup (programId <$> keepFirst l).
Proof.
  induction l as [|r rest IH]; simpl; [constructor|].
  apply NoDup_cons. split; [|by apply filter_fmap_NoDup].
  intros (y & Hy & Hin)%list_elem_of_fmap.
  apply list_elem_of_In, List.filter_In in Hin as [_ Hne].
  apply negb_true_iff, bool_decide_eq_false in Hne. congruence.
Qed.

Lemma programId_erase (l : list ReserveProgram) :
  programId <$> (eraseConflict <$> l) = programId <$> l.
Proof. rewrite <- list_fmap_compose. by apply list_fmap_ext. Qed.

Lemma createReserves_ids tuners matches :
  programId <$> (createReserves tuners matches).2
  ≡ₚ programId <$> keepFirst (js_sort sortReserveProgram matches).
Proof.
  rewrite <- (programId_erase (createReserves tuners matches).2).
  rewrite createReserves_keepFirst. by rewrite programId_erase.
Qed.

(** X1. Whatever candidates and tuners it is given, [createReserves]
    returns a list in ascending order of [startAt] in which no two
    reservations are for the same program. *)
Theorem createReserves_sorted_unique (ts : list Tuner.t) (matches : list ReserveProgram) :
  Sorted startAt_le (createReserves ts matches).2
  ∧ NoDup (programId <$> (createReserves ts matches).2).
Proof.
  split; [apply createReserves_Sorted|].
  rewrite createReserves_ids. apply keepFirst_NoDup.
Qed.

(** X2. The resolver neither loses nor invents a program: the ids in its
    result are the ids among its candidates. Each reservation of the result
    is one of the candidates with nothing changed but [isConflict]; a mark
    the candidate came with is kept, and a skipped candidate is never
    marked. *)
Theorem createReserves_candidates (ts : list Tuner.t) (matches : list ReserveProgram) :
  (∀ p, p ∈ programId <$> (createReserves ts matches).2 ↔ p ∈ programId <$> matches)
  ∧ ∀ r, r ∈ (createReserves ts matches).2 →
      ∃ x, x ∈ matches
           ∧ program r = program x ∧ ruleId r = ruleId x
           ∧ ruleOption r = ruleOption x ∧ encodeOption r = encodeOption x
           ∧ isSkip r = isSkip x ∧ isManual r = isManual x
           ∧ manualId r = manualId x
           ∧ (isConflict x = true → isConflict r = true)
           ∧ (isSkip x = true → isConflict r = isConflict x).
Proof.
  split.
  - intros p. rewrite !list_elem_of_fmap. split.
    + intros (r & -> & Hr). apply createReserves_elem_of in Hr as (x & Hx & Heq).
      exists x. split; [|done].
      change (programId (eraseConflict r) = programId (eraseConflict x)).
      by rewrite Heq.
    + intros (x & -> & Hx).
      destruct (createReserves_covers ts matches x Hx) as (r & Hr & Hid).
      by exists r.
  - intros r Hr. apply createReserves_from in Hr as (x & Hx & Hxr).
    exists x. split.
    { apply keepFirst_elem_of in Hx. by apply js_sort_elem_of in Hx. }
    destruct (emittedAs_fields x r Hxr) as (? & ? & ? & ? & ? & ? & ?).
    destruct Hxr as (_ & Hm & Hs). by split_and!.
Qed.

(** ** A planner without tuners *)

Lemma evaluate_no_tuner matches reserves : (evaluate [] matches reserves).1 = [].
Proof.
  revert matches. induction reserves as [|r rest IH]; intros matches; [done|].
  rewrite evaluate_cons. destruct (matches !! r.2) as [m|]; [|apply IH].
  destruct (isSkip m); [apply IH|]. simpl. apply IH.
Qed.

Lemma evaluate_no_tuner_marks matches reserves r m :
  r ∈ reserves → matches !! r.2 = Some m → isSkip m = false →
  ∃ m', (evaluate [] matches reserves).2 !! r.2 = Some m' ∧ isConflict m' = true.
Proof.
  intros Hr Hm Hskip.
  destruct (evaluate_flags [] matches reserves r.2 m Hm) as (b & Hb & Hiff).
  assert (b = true) as ->.
  { apply Hiff. right. apply list_elem_of_lookup in Hr as (k & Hk).
    exists k, r. split_and!; [done..|]. by rewrite evaluate_no_tuner. }
  by eexists.
Qed.

Lemma sweepStep_no_tuner s l : sw_tuners s = [] → sw_tuners (sweepStep s l) = [].
Proof.
  intros Hts. destruct (sw_matches s !! idx l) as [m|] eqn:Hm.
  2:{ rewrite sweepStep_idle; [done|]. intros m. congruence. }
  destruct (isSkip m) eqn:Hskip.
  { rewrite sweepStep_idle; [done|]. intros m'. congruence. }
  rewrite (sweepStep_active s l m Hm Hskip). simpl. rewrite Hts. simpl.
  apply evaluate_no_tuner.
Qed.

Lemma lookup_emittedAs l1 l2 i x :
  Forall2 emittedAs l1 l2 → l1 !! i = Some x →
  ∃ r, l2 !! i = Some r ∧ emittedAs x r.
Proof. intros Hall Hi. by eapply Forall2_lookup_l. Qed.

Lemma fold_sweepStep_no_tuner events s l m :
  sw_tuners s = [] →
  l ∈ events → isStart l = true →
  sw_matches s !! idx l = Some m → isSkip m = false →
  ∃ r, sw_matches (fold_left sweepStep events s) !! idx l = Some r
       ∧ isConflict r = true.
Proof.
  revert s m. induction events as [|l0 rest IH]; intros s m Hts Hl Hstart Hm Hskip.
  { by apply elem_of_nil in Hl. }
  simpl. apply elem_of_cons in Hl as [<-|Hl].
  - assert (∃ m', sw_matches (sweepStep s l) !! idx l = Some m'
                  ∧ isConflict m' = true) as (m' & Hm' & Hc).
    { rewrite (sweepStep_active s l m Hm Hskip). simpl. rewrite Hts. simpl.
      apply (evaluate_no_tuner_marks _ _ (m, idx l) m); [|done..].
      rewrite nextActive_perm, Hstart. apply elem_of_app. right. left. }
    destruct (lookup_emittedAs _ _ _ _ (fold_sweepStep_emittedAs rest (sweepStep s l)) Hm')
      as (r & Hr & _ & Hmark & _).
    exists r. split; [done|]. by apply Hmark.
  - destruct (lookup_emittedAs _ _ _ _ (sweepStep_emittedAs s l0) Hm)
      as (m1 & Hm1 & Hmm1).
    apply (IH (sweepStep s l0) m1); [by apply sweepStep_no_tuner|done..|].
    destruct (emittedAs_fields m m1 Hmm1) as (_ & _ & _ & _ & -> & _). done.
Qed.

Lemma buildList_start_index l i seen e :
  e ∈ buildList l i seen → (i ≤ idx e < i + length l)%nat.
Proof.
  revert i seen. induction l as [|r rest IH]; intros i seen; simpl.
  { by intros ?%elem_of_nil. }
  destruct (seen !! programId r).
  - intros He%IH. lia.
  - intros [->|[->|He%IH]%elem_of_cons]%elem_of_cons; simpl; lia.
Qed.

Lemma createReserves_no_tuner_marks (matches : list ReserveProgram) :
  ∀ r, r ∈ (createReserves [] matches).2 → isSkip r = false → isConflict r = true.
Proof.
  intros r Hr Hskip. rewrite createReserves_emitted in Hr.
  set (sorted := js_sort sortReserveProgram matches) in *.
  unfold emitted in Hr. apply list_elem_of_omap in Hr as (l & Hl & Hlr).
  destruct (isStart l) eqn:Hstart; [|done].
  assert (l ∈ sortedEvents sorted) as Hl'.
  { unfold sortedEvents. by apply js_sort_elem_of. }
  pose proof (buildList_start_index _ _ _ _ Hl) as Hidx.
  destruct (lookup_lt_is_Some_2 sorted (idx l)) as [m Hm]; [lia|].
  pose proof (fold_sweepStep_emittedAs (sortedEvents sorted) (mkSweep [] sorted []))
    as Hall.
  destruct (lookup_emittedAs _ _ _ _ Hall Hm) as (r' & Hr' & Hmr).
  unfold sweep in Hlr. simpl in Hr'. rewrite Hlr in Hr'. injection Hr' as <-.
  destruct (emittedAs_fields m r Hmr) as (_ & _ & _ & _ & Hsk & _).
  destruct (fold_sweepStep_no_tuner (sortedEvents sorted) (mkSweep [] sorted []) l m)
    as (r2 & Hr2 & Hc); try done.
  { congruence. }
  unfold sweep in Hlr. congruence.
Qed.

Lemma createReserves_no_tuner_tuners (matches : list ReserveProgram) :
  (createReserves [] matches).1 = [].
Proof.
  unfold createReserves. cbn [fst]. unfold sweep.
  apply (sweep_invariant (λ s, sw_tuners s = [])); [|done].
  intros s l. apply sweepStep_no_tuner.
Qed.

(** X3. With an empty tuner array the resolver marks every candidate that
    is not skipped: each reservation it returns is skipped or in conflict,
    and the reservations in conflict are exactly the ones not skipped when
    no candidate came in both skipped and marked. *)
Theorem createReserves_no_tuner (matches : list ReserveProgram) :
  (createReserves [] matches).1 = []
  ∧ (∀ r, r ∈ (createReserves [] matches).2 → isSkip r = false → isConflict r = true)
  ∧ (Forall skipExcludesConflict matches →
     ∀ r, r ∈ (createReserves [] matches).2 → isConflict r = negb (isSkip r)).
Proof.
  split_and!.
  - apply createReserves_no_tuner_tuners.
  - apply createReserves_no_tuner_marks.
  - intros Hinv r Hr. destruct (isSkip r) eqn:Hskip.
    + pose proof (createReserves_Forall skipExcludesConflict [] matches
                    skipExcludesConflict_mark Hinv) as Hout.
      rewrite Forall_forall in Hout. specialize (Hout r Hr).
      unfold skipExcludesConflict in Hout. by rewrite Hskip in Hout.
    + simpl. by apply (createReserves_no_tuner_marks matches).
Qed.

Lemma createReserves_no_tuner_witness :
  isConflict (set_isConflict true Scenario.P2) = negb (isSkip (set_isConflict true Scenario.P2)).
Proof.
  refine (proj2 (proj2 (createReserves_no_tuner [Scenario.P2])) _ _ _).
  - by repeat constructor.
  - apply list_elem_of_here.
Defined.

Lemma createReserves_candidates_witness :
  ∃ x, x ∈ [Scenario.P1; Scenario.P2]
       ∧ program (set_isConflict true Scenario.P1) = program x
       ∧ ruleId (set_isConflict true Scenario.P1) = ruleId x
       ∧ ruleOption (set_isConflict true Scenario.P1) = ruleOption x
       ∧ encodeOption (set_isConflict true Scenario.P1) = encodeOption x
       ∧ isSkip (set_isConflict true Scenario.P1) = isSkip x
       ∧ isManual (set_isConflict true Scenario.P1) = isManual x
       ∧ manualId (set_isConflict true Scenario.P1) = manualId x
       ∧ (isConflict x = true → isConflict (set_isConflict true Scenario.P1) = true)
       ∧ (isSkip x = true → isConflict (set_isConflict true Scenario.P1) = isConflict x).
Proof.
  refine (proj2 (createReserves_candidates [Scenario.T0] [Scenario.P1; Scenario.P2]) _ _).
  apply list_elem_of_here.
Defined.

(** ** The comparator *)

(** X4. [sortReserveProgram] is a comparator that a sort can rely on:
    swapping its arguments negates it, and on reservations that have the
    id of their origin it is transitive and gives 0 exactly for two
    reservations of the same origin and id. *)
Theorem sortReserveProgram_consistent :
  (∀ a b, sortReserveProgram b a = - sortReserveProgram a b)
  ∧ (∀ a b c, hasOriginId b →
       sortReserveProgram a b ≤ 0 → sortReserveProgram b c ≤ 0 →
       sortReserveProgram a c ≤ 0)
  ∧ (∀ a b, hasOriginId a → hasOriginId b →
       (sortReserveProgram a b = 0
        ↔ isManual a = isManual b
          ∧ if isManual a then manualId a = manualId b else ruleId a = ruleId b)).
Proof.
  split_and!.
  - intros a b. unfold sortReserveProgram, js_sub.
    destruct (isManual a), (isManual b); simpl; try done.
    + destruct (manualId a), (manualId b); lia.
    + destruct (ruleId a), (ruleId b); lia.
  - intros a b c Hb Hab Hbc. apply sortReserveProgram_authority.
    apply sortReserveProgram_authority in Hab, Hbc. by eapply authority_trans.
  - intros a b. unfold hasOriginId, sortReserveProgram, js_sub.
    destruct (isManual a), (isManual b); simpl.
    + intros [x ->] [y ->]. split; [intros H; split; [done|f_equal; lia]|].
      intros [_ [= ->]]. lia.
    + intros _ _. split; [done|]. by intros [? _].
    + intros _ _. split; [done|]. by intros [? _].
    + intros [x ->] [y ->]. split; [intros H; split; [done|f_equal; lia]|].
      intros [_ [= ->]]. lia.
Qed.

Lemma sortReserveProgram_consistent_witness :
  sortReserveProgram Scenario.P2 Scenario.P1 ≤ 0.
Proof.
  refine (proj1 (proj2 sortReserveProgram_consistent)
            Scenario.P2 Scenario.P2 Scenario.P1 _ _ _).
  - by eexists.
  - vm_compute. discriminate.
  - vm_compute. discriminate.
Defined.

(** ** The operations on an idle planner *)

Lemma idle_restore s : isRunning s = false → set_isRunning false (set_isRunning true s) = s.
Proof. destruct s. simpl. by intros ->. Qed.

Lemma updateAll_success env s rules :
  isRunning s = false →
  rulesDB_findAll env = inr rules →
  let out := createReserves (tuners s) (updateAllMatches env s rules) in
  updateAll env s = (inr (), mkState false out.2 out.1 (out.2 :: written s)).
Proof.
  intros Hrun Hrules. rewrite (updateAll_unfold env s rules Hrun Hrules).
  cbv zeta. fold (updateAllMatches env s rules).
  unfold commitReserves. cbn [tuners set_reserves set_isRunning].
  by destruct (createReserves _ _).
Qed.

Lemma updateAll_failure env s e :
  isRunning s = false →
  rulesDB_findAll env = inl e →
  updateAll env s =
  (inl e, mkState true (scan_reserves (scanManual env (reserves s) [] ∅))
                  (tuners s) (written s)).
Proof.
  intros Hrun Hfail. unfold updateAll, mbind, M_bind, gets, modify, awaitOr.
  by rewrite Hrun, Hfail.
Qed.

Lemma updateRule_unfold env s ruleId' :
  isRunning s = false →
  updateRule env ruleId' s =
  match updateRuleInput env ruleId' with
  | inl e => (inl e, s)
  | inr (rule, programs) =>
      let out := createReserves (tuners s) (updateRuleMatches s ruleId' rule programs) in
      (inr (), mkState false out.2 out.1 (out.2 :: written s))
  end.
Proof.
  intros Hrun.
  unfold updateRule, updateRuleInput, updateRuleMatches,
    mbind, M_bind, gets, modify, awaitOr, throw, mret, M_ret.
  rewrite Hrun.
  destruct (rulesDB_findId env ruleId') as [e|result].
  { cbn. by rewrite idle_restore. }
  cbn [fst snd].
  destruct result as [|r result'].
  { cbn -[createReserves]. destruct (scanOthers ruleId' (reserves s) ∅) as [others si].
    cbn -[createReserves]. unfold commitReserves. cbn -[createReserves].
    by destruct (createReserves _ _). }
  destruct (RulesSchema.enable r).
  2:{ cbn -[createReserves]. destruct (scanOthers ruleId' (reserves s) ∅) as [others si].
      cbn -[createReserves]. unfold commitReserves. cbn -[createReserves].
      by destruct (createReserves _ _). }
  destruct (programDB_findRule env (createSearchOption r)) as [e|programs].
  { cbn. by rewrite idle_restore. }
  cbn -[createReserves]. destruct (scanOthers ruleId' (reserves s) ∅) as [others si].
  cbn -[createReserves]. unfold commitReserves. cbn -[createReserves].
  by destruct (createReserves _ _).
Qed.

(** *** The candidates of the re-plans *)

Lemma scanOthers_elem_of ruleId' rs si x :
  x ∈ (scanOthers ruleId' rs si).1 ↔
  ∃ r, r ∈ rs ∧ ruleId r ≠ Some ruleId' ∧ x = set_isConflict false r.
Proof.
  revert si. induction rs as [|r rest IH]; intros si; simpl.
  { split; [by intros ?%elem_of_nil|]. intros (r & Hr & _). by apply elem_of_nil in Hr. }
  specialize (IH (recordSkip r si)).
  destruct (scanOthers ruleId' rest (recordSkip r si)) as [matches si'].
  simpl in IH. destruct (decide (ruleId r ≠ Some ruleId')) as [Hne|Heq].
  - rewrite bool_decide_true by done. simpl. rewrite elem_of_cons, IH. split.
    + intros [->|(y & Hy & Hne' & ->)]; [exists r|exists y]; split_and!; try done.
      * left.
      * by right.
    + intros (y & [->|Hy]%elem_of_cons & Hne' & ->); [by left|right].
      by exists y.
  - rewrite bool_decide_false by done. simpl. rewrite IH. split.
    + intros (y & Hy & Hne' & ->). exists y. split_and!; [by right|done..].
    + intros (y & [->|Hy]%elem_of_cons & Hne' & ->); [done|]. by exists y.
Qed.

Lemma recordSkip_lookup_inv r si k b :
  recordSkip r si !! k = Some b →
  si !! k = Some b ∨ (programId r = k ∧ isSkip r = true).
Proof.
  unfold recordSkip. destruct (isSkip r) eqn:Hskip; [|by left].
  destruct (decide (programId r = k)) as [<-|Hne]; [by right|].
  rewrite lookup_insert_ne by done. by left.
Qed.

Lemma scanOthers_skipIndex ruleId' rs si k :
  (∀ r, r ∈ rs → programId r = k → isSkip r = false) →
  (scanOthers ruleId' rs si).2 !! k = si !! k.
Proof.
  revert si. induction rs as [|r rest IH]; intros si Hno; simpl; [done|].
  specialize (IH (recordSkip r si)).
  destruct (scanOthers ruleId' rest (recordSkip r si)) as [matches si'].
  simpl in IH. assert (si' !! k = recordSkip r si !! k) as Hsi'.
  { apply IH. intros y Hy. apply Hno. by right. }
  assert (recordSkip r si !! k = si !! k) as Hrec.
  { unfold recordSkip. destruct (isSkip r) eqn:Hskip; [|done].
    rewrite lookup_insert_ne; [done|]. intros Heq.
    rewrite (Hno r) in Hskip; [done|left|done]. }
  destruct (bool_decide _); simpl; congruence.
Qed.

Lemma scanManual_skipIndex_None env rs matches si k :
  si !! k = None →
  (∀ r, r ∈ rs → programId r = k → isSkip r = false) →
  scan_skipIndex (scanManual env rs matches si) !! k = None.
Proof.
  revert matches si. induction rs as [|r rest IH]; intros matches si Hsi Hno.
  { done. }
  destruct (scanManual_cons env r rest matches si) as (r' & matches' & -> & _ & _).
  simpl. apply IH.
  - destruct (recordSkip r si !! k) as [b|] eqn:Hrec; [|done].
    apply recordSkip_lookup_inv in Hrec as [?|[Hid Hskip]]; [congruence|].
    rewrite (Hno r) in Hskip; [done|left|done].
  - intros y Hy. apply Hno. by right.
Qed.

(** The manual candidates of [updateAll]: the manual reservations that
    carry a [manualId] and whose program the catalogue finds, with the
    program it finds. *)
Lemma scanManual_matches_iff env rs matches si x :
  x ∈ scan_matches (scanManual env rs matches si) ↔
  x ∈ matches
  ∨ ∃ r q qs, r ∈ rs ∧ isManual r = true ∧ manualId r ≠ None
              ∧ programDB_findId env (programId r) = inr (q :: qs)
              ∧ x = set_program q r.
Proof.
  revert matches si. induction rs as [|r rest IH]; intros matches si.
  { simpl. split; [by left|]. intros [?|(r & ? & ? & Hr & _)]; [done|].
    by apply elem_of_nil in Hr. }
  cbn [scanManual].
  destruct (isManual r) eqn:Hman; simpl.
  2:{ rewrite IH. apply or_iff_compat_l. split.
      - intros (y & q & qs & Hy & H). exists y, q, qs. split; [by right|done].
      - intros (y & q & qs & [->|Hy]%elem_of_cons & Hm & H); [congruence|].
        by exists y, q, qs. }
  destruct (decide (manualId r = None)) as [Hnone|Hsome].
  { rewrite bool_decide_true by done. simpl. rewrite IH. apply or_iff_compat_l. split.
    - intros (y & q & qs & Hy & H). exists y, q, qs. split; [by right|done].
    - intros (y & q & qs & [->|Hy]%elem_of_cons & Hm & Hid & H); [done|].
      by exists y, q, qs. }
  rewrite bool_decide_false by done.
  destruct (programDB_findId env (programId r)) as [e|[|p ps]] eqn:Hfind; simpl.
  - rewrite IH. apply or_iff_compat_l. split.
    + intros (y & q & qs & Hy & H). exists y, q, qs. split; [by right|done].
    + intros (y & q & qs & [->|Hy]%elem_of_cons & Hm & Hid & Hf & H); [congruence|].
      by exists y, q, qs.
  - rewrite IH. apply or_iff_compat_l. split.
    + intros (y & q & qs & Hy & H). exists y, q, qs. split; [by right|done].
    + intros (y & q & qs & [->|Hy]%elem_of_cons & Hm & Hid & Hf & H); [congruence|].
      by exists y, q, qs.
  - rewrite IH, elem_of_app, list_elem_of_singleton. split.
    + intros [[Hx| ->]|(y & q & qs & Hy & H)].
      * by left.
      * right. exists r, p, ps. split_and!; [left|done..].
      * right. exists y, q, qs. split; [by right|done].
    + intros [Hx|(y & q & qs & [->|Hy]%elem_of_cons & Hm & Hid & Hf & ->)].
      * left. by left.
      * left. right. congruence.
      * right. by exists y, q, qs.
Qed.

(** The list that a failed [updateAll] leaves: each reservation as it was
    or with the program that the catalogue found for its id. *)
Lemma scanManual_reserves env rs matches si :
  Forall2 (λ r r', r' = r ∨ ∃ q qs, programDB_findId env (programId r) = inr (q :: qs)
                                      ∧ r' = set_program q r)
          rs (scan_reserves (scanManual env rs matches si)).
Proof.
  revert matches si. induction rs as [|r rest IH]; intros matches si.
  { constructor. }
  destruct (scanManual_cons env r rest matches si) as (r' & matches' & -> & Hr' & _).
  simpl. constructor; [|apply IH].
  destruct Hr' as [->|(p & ps & Hf & ->)]; [by left|right; eauto].
Qed.

Lemma updateAllMatches_elem_of env s rules x :
  x ∈ updateAllMatches env s rules ↔
  (∃ r q qs, r ∈ reserves s ∧ isManual r = true ∧ manualId r ≠ None
             ∧ programDB_findId env (programId r) = inr (q :: qs)
             ∧ x = set_program q r)
  ∨ ∃ rule programs q,
      rule ∈ rules ∧ RulesSchema.enable rule = true
      ∧ programDB_findRule env (createSearchOption rule) = inr programs
      ∧ q ∈ programs
      ∧ x = ruleReserve rule (RulesSchema.id rule)
              (scan_skipIndex (scanManual env (reserves s) [] ∅)) q.
Proof.
  unfold updateAllMatches. rewrite scanRules_elem_of, scanManual_matches_iff.
  split.
  - intros [[Hx|H]|H]; [by apply elem_of_nil in Hx|by left|by right].
  - intros [H|H]; [left; by right|by right].
Qed.

(** *** First occurrences of manual candidates *)

Lemma Sorted_authority_manual_prefix l1 x l2 :
  Sorted authority (l1 ++ x :: l2) → isManual x = true →
  Forall (λ y, isManual y = true) l1.
Proof.
  intros Hs Hx. induction l1 as [|y l1 IH]; [constructor|].
  simpl in Hs. apply Sorted_inv in Hs as [Hs Hhd].
  specialize (IH Hs). constructor; [|done].
  assert (∃ z rest, l1 ++ x :: l2 = z :: rest ∧ isManual z = true) as (z & rest & Heq & Hz).
  { destruct l1 as [|z l1']; simpl.
    - by exists x, l2.
    - exists z, (l1' ++ x :: l2). split; [done|]. by apply Forall_cons in IH as [? _]. }
  rewrite Heq in Hhd. apply HdRel_inv in Hhd. unfold authority in Hhd.
  destruct (isManual y); [done|]. by rewrite Hz in Hhd.
Qed.

Lemma keepFirst_first l1 x l2 :
  Forall (λ y, programId y ≠ programId x) l1 → x ∈ keepFirst (l1 ++ x :: l2).
Proof.
  induction 1 as [|y l1 Hy _ IH]; simpl; [left|].
  right. apply list_elem_of_In, List.filter_In. split; [by apply list_elem_of_In|].
  by rewrite bool_decide_false.
Qed.

(** A manual candidate that is the only manual one for its program is
    among the first occurrences: it comes before every rule candidate. *)
Lemma keepFirst_manual matches x :
  x ∈ matches → isManual x = true →
  (∀ y, y ∈ matches → programId y = programId x → isManual y = true → y = x) →
  x ∈ keepFirst (js_sort sortReserveProgram matches).
Proof.
  intros Hx Hman Honly.
  apply (js_sort_elem_of sortReserveProgram) in Hx.
  apply list_elem_of_split_l in Hx as (l1 & l2 & Heq & Hnotin).
  rewrite Heq. apply keepFirst_first.
  assert (Sorted authority (l1 ++ x :: l2)) as Hs.
  { rewrite <- Heq. eapply Sorted_weaken; [|apply js_sort_Sorted, sortReserveProgram_total].
    intros a b. apply sortReserveProgram_authority. }
  pose proof (Sorted_authority_manual_prefix l1 x l2 Hs Hman) as Hpre.
  apply Forall_forall. intros y Hy Hid.
  rewrite Forall_forall in Hpre.
  assert (y = x) as ->; [|done].
  apply Honly; [|done|by apply Hpre].
  apply (js_sort_elem_of sortReserveProgram). rewrite Heq.
  apply elem_of_app. by left.
Qed.

(** ** [updateAll] and [updateRule] as a whole *)

Lemma createReserves_result_facts ts matches :
  Sorted startAt_le (createReserves ts matches).2
  ∧ NoDup (programId <$> (createReserves ts matches).2).
Proof.
  split; [apply createReserves_Sorted|].
  rewrite createReserves_ids. apply keepFirst_NoDup.
Qed.

(** X5. On an idle planner [updateAll] succeeds exactly when the rule
    store answers; failures of the catalogue never make it fail. When it
    succeeds, the flag is cleared, the list is sorted by [startAt] and has
    one reservation per program, and the document written last is that
    list. When it fails, nothing is written, the flag stays set and the
    list keeps its length. *)
Theorem updateAll_outcome (env : Env) (s : State) :
  isRunning s = false →
  let s' := (updateAll env s).2 in
  match rulesDB_findAll env with
  | inr rules =>
      (updateAll env s).1 = inr ()
      ∧ isRunning s' = false
      ∧ written s' = reserves s' :: written s
      ∧ Sorted startAt_le (reserves s')
      ∧ NoDup (programId <$> reserves s')
  | inl e =>
      (updateAll env s).1 = inl e
      ∧ isRunning s' = true
      ∧ written s' = written s
      ∧ length (reserves s') = length (reserves s)
  end.
Proof.
  intros Hrun s'. subst s'.
  destruct (rulesDB_findAll env) as [e|rules] eqn:Hrules.
  - rewrite (updateAll_failure env s e Hrun Hrules). cbn [fst snd isRunning written reserves].
    split_and!; try done. symmetry.
    eapply Forall2_length, scanManual_reserves.
  - rewrite (updateAll_success env s rules Hrun Hrules).
    cbn [fst snd isRunning written reserves].
    destruct (createReserves_result_facts (tuners s) (updateAllMatches env s rules)).
    by split_and!.
Qed.

Lemma updateAll_outcome_witness :
  (updateAll Replan.env Replan.planner).1 = inr ()
  ∧ isRunning (updateAll Replan.env Replan.planner).2 = false
  ∧ written (updateAll Replan.env Replan.planner).2
    = reserves (updateAll Replan.env Replan.planner).2 :: written Replan.planner
  ∧ Sorted startAt_le (reserves (updateAll Replan.env Replan.planner).2)
  ∧ NoDup (programId <$> reserves (updateAll Replan.env Replan.planner).2).
Proof. exact (updateAll_outcome Replan.env Replan.planner eq_refl). Defined.

(** X6. What [updateRule] does on an idle planner is decided by what its
    collaborators answer. When the rule store fails, it throws that error
    and leaves the planner exactly as it was; so it does when the rule is
    there and enabled and the catalogue fails. In every other case, when
    the rule store has no rule of the id, has it disabled, or the catalogue
    answers, it succeeds: the flag is cleared, the list is sorted by
    [startAt] with one reservation per program, and the document written
    last is that list. *)
Theorem updateRule_outcome (env : Env) (s : State) (ruleId' : Z) :
  isRunning s = false →
  let out := updateRule env ruleId' s in
  let succeeds :=
    out.1 = inr ()
    ∧ isRunning out.2 = false
    ∧ written out.2 = reserves out.2 :: written s
    ∧ Sorted startAt_le (reserves out.2)
    ∧ NoDup (programId <$> reserves out.2) in
  match rulesDB_findId env ruleId' with
  | inl e => out = (inl e, s)
  | inr [] => succeeds
  | inr (r :: _) =>
      if RulesSchema.enable r then
        match programDB_findRule env (createSearchOption r) with
        | inl e => out = (inl e, s)
        | inr _ => succeeds
        end
      else succeeds
  end.
Proof.
  intros Hrun out succeeds.
  assert (∀ rule programs,
            updateRuleInput env ruleId' = inr (rule, programs) → succeeds) as Hok.
  { intros rule programs Hin. subst succeeds out.
    rewrite (updateRule_unfold env s ruleId' Hrun), Hin.
    cbn [fst snd isRunning written reserves].
    destruct (createReserves_result_facts (tuners s)
                (updateRuleMatches s ruleId' rule programs)).
    by split_and!. }
  assert (∀ e, updateRuleInput env ruleId' = inl e → out = (inl e, s)) as Hfail.
  { intros e Hin. subst out. by rewrite (updateRule_unfold env s ruleId' Hrun), Hin. }
  unfold updateRuleInput in Hok, Hfail.
  destruct (rulesDB_findId env ruleId') as [e|[|r rest]].
  - by apply Hfail.
  - by apply (Hok None []).
  - destruct (RulesSchema.enable r); [|by apply (Hok None [])].
    destruct (programDB_findRule env (createSearchOption r)) as [e|programs].
    + by apply Hfail.
    + by apply (Hok (Some r) programs).
Qed.

Lemma updateRule_outcome_witness :
  (updateRule Replan.env 5 Replan.planner).1 = inr ()
  ∧ isRunning (updateRule Replan.env 5 Replan.planner).2 = false
  ∧ written (updateRule Replan.env 5 Replan.planner).2
    = reserves (updateRule Replan.env 5 Replan.planner).2 :: written Replan.planner
  ∧ Sorted startAt_le (reserves (updateRule Replan.env 5 Replan.planner).2)
  ∧ NoDup (programId <$> reserves (updateRule Replan.env 5 Replan.planner).2).
Proof. exact (updateRule_outcome Replan.env Replan.planner 5 eq_refl). Defined.

Lemma getReserve_unique s r :
  NoDup (programId <$> reserves s) → r ∈ reserves s →
  getReserve s (programId r) = Some r.
Proof.
  unfold getReserve. generalize (reserves s). intros l.
  induction l as [|y l IH]; intros Hnd Hr; [by apply elem_of_nil in Hr|].
  simpl in *. apply NoDup_cons in Hnd as [Hy Hnd].
  apply elem_of_cons in Hr as [->|Hr].
  - by rewrite bool_decide_true.
  - rewrite bool_decide_false; [by apply IH|].
    intros Heq. apply Hy. rewrite Heq. by apply list_elem_of_fmap_2.
Qed.

Lemma updateRule_success_inv env s ruleId' :
  isRunning s = false →
  (updateRule env ruleId' s).1 = inr () →
  ∃ rule programs,
    updateRuleInput env ruleId' = inr (rule, programs)
    ∧ reserves (updateRule env ruleId' s).2
      = (createReserves (tuners s) (updateRuleMatches s ruleId' rule programs)).2.
Proof.
  intros Hrun. rewrite (updateRule_unfold env s ruleId' Hrun).
  destruct (updateRuleInput env ruleId') as [e|[rule programs]]; [done|].
  intros _. by exists rule, programs.
Qed.

Lemma updateRuleMatches_elem_of s ruleId' rule programs x :
  x ∈ updateRuleMatches s ruleId' rule programs →
  (∃ r, r ∈ reserves s ∧ ruleId r ≠ Some ruleId' ∧ x = set_isConflict false r)
  ∨ (∃ r q, rule = Some r ∧ q ∈ programs
            ∧ x = ruleReserve r ruleId' (scanOthers ruleId' (reserves s) ∅).2 q).
Proof.
  unfold updateRuleMatches. destruct rule as [r|].
  - intros [Hx|Hx]%elem_of_app.
    + left. by apply scanOthers_elem_of in Hx.
    + right. apply list_elem_of_fmap in Hx as (q & -> & Hq). by exists r, q.
  - intros Hx. left. by apply scanOthers_elem_of in Hx.
Qed.

Lemma updateRuleMatches_others s ruleId' rule programs r :
  r ∈ reserves s → ruleId r ≠ Some ruleId' →
  set_isConflict false r ∈ updateRuleMatches s ruleId' rule programs.
Proof.
  intros Hr Hne. unfold updateRuleMatches.
  assert (set_isConflict false r ∈ (scanOthers ruleId' (reserves s) ∅).1) as Hin.
  { apply scanOthers_elem_of. by exists r. }
  destruct rule; [apply elem_of_app; by left|done].
Qed.

(** X7. When the rule store has no rule of the given id, or has it
    disabled, [updateRule] succeeds on an idle planner, and afterwards no
    reservation of that rule is left; the list is made of reservations of
    the old list only, and every program reserved by another origin is
    still reserved. *)
Theorem updateRule_rule_gone (env : Env) (s : State) (ruleId' : Z)
    (result : list RulesSchema.t) :
  isRunning s = false →
  rulesDB_findId env ruleId' = inr result →
  (∀ r rest, result = r :: rest → RulesSchema.enable r = false) →
  let s' := (updateRule env ruleId' s).2 in
  (updateRule env ruleId' s).1 = inr ()
  ∧ (∀ r', r' ∈ reserves s' →
       ruleId r' ≠ Some ruleId'
       ∧ ∃ r, r ∈ reserves s ∧ eraseConflict r' = eraseConflict r)
  ∧ (∀ r, r ∈ reserves s → ruleId r ≠ Some ruleId' →
       programId r ∈ programId <$> reserves s').
Proof.
  intros Hrun Hfind Hoff s'. subst s'.
  assert (updateRuleInput env ruleId' = inr (None, [])) as Hinput.
  { unfold updateRuleInput. rewrite Hfind. destruct result as [|r rest]; [done|].
    by rewrite (Hoff r rest eq_refl). }
  rewrite (updateRule_unfold env s ruleId' Hrun), Hinput.
  cbn [fst snd reserves]. split_and!; [done| |].
  - intros r' Hr'. apply createReserves_from in Hr' as (x & Hx & Hxr).
    apply keepFirst_elem_of, js_sort_elem_of in Hx.
    apply updateRuleMatches_elem_of in Hx as [(r & Hr & Hne & ->)|(r & q & ? & _)];
      [|done].
    destruct (emittedAs_fields _ _ Hxr) as (_ & Hrid & _). destruct Hxr as (Heq & _).
    split; [by rewrite Hrid|]. exists r. split; [done|]. by rewrite <- Heq.
  - intros r Hr Hne.
    destruct (createReserves_covers (tuners s) (updateRuleMatches s ruleId' None [])
                (set_isConflict false r)) as (r' & Hr' & Hid).
    { by apply updateRuleMatches_others. }
    apply list_elem_of_fmap. by exists r'.
Qed.

Lemma updateRule_rule_gone_witness :
  (updateRule Displace.env 5 Displace.planner).1 = inr ()
  ∧ (∀ r', r' ∈ reserves (updateRule Displace.env 5 Displace.planner).2 →
       ruleId r' ≠ Some 5
       ∧ ∃ r, r ∈ reserves Displace.planner ∧ eraseConflict r' = eraseConflict r)
  ∧ (∀ r, r ∈ reserves Displace.planner → ruleId r ≠ Some 5 →
       programId r ∈ programId <$> reserves (updateRule Displace.env 5 Displace.planner).2).
Proof.
  refine (updateRule_rule_gone Displace.env Displace.planner 5 [] eq_refl eq_refl _).
  intros r rest. discriminate.
Defined.

(** X8. A successful [updateRule] keeps every manual reservation that is
    the only manual one for its program: afterwards the reservation found
    for that program is the same one, with nothing changed but possibly
    [isConflict]. *)
Theorem updateRule_keeps_manual (env : Env) (s : State) (ruleId' : Z)
    (r : ReserveProgram) :
  isRunning s = false →
  (updateRule env ruleId' s).1 = inr () →
  r ∈ reserves s → isManual r = true → ruleId r ≠ Some ruleId' →
  (∀ y, y ∈ reserves s → programId y = programId r → isManual y = true → y = r) →
  ∃ r', getReserve (updateRule env ruleId' s).2 (programId r) = Some r'
        ∧ eraseConflict r' = eraseConflict r.
Proof.
  intros Hrun Hok Hr Hman Hne Honly.
  destruct (updateRule_success_inv env s ruleId' Hrun Hok)
    as (rule & programs & Hinput & Hres).
  set (matches := updateRuleMatches s ruleId' rule programs) in *.
  assert (set_isConflict false r ∈ keepFirst (js_sort sortReserveProgram matches)) as Hkf.
  { apply keepFirst_manual; [by apply updateRuleMatches_others|done|].
    intros y Hy Hid Hym.
    apply updateRuleMatches_elem_of in Hy as [(y0 & Hy0 & _ & ->)|(r0 & q & _ & _ & ->)];
      [|done].
    by rewrite (Honly y0 Hy0 Hid Hym). }
  apply (createReserves_to (tuners s)) in Hkf as (r' & Hr' & Hxr).
  exists r'. split; [|by destruct Hxr as (<- & _)].
  assert (programId r = programId r') as ->.
  { destruct (emittedAs_fields _ _ Hxr) as (Hp & _). unfold programId. by rewrite Hp. }
  apply getReserve_unique; rewrite Hres; [|done].
  apply createReserves_result_facts.
Qed.

Lemma updateRule_keeps_manual_witness :
  ∃ r', getReserve (updateRule Replan.env 5 idleWithManual).2
          (programId (Scenario.manual (Scenario.prog 1 100 200) 1)) = Some r'
        ∧ eraseConflict r' = eraseConflict (Scenario.manual (Scenario.prog 1 100 200) 1).
Proof.
  refine (updateRule_keeps_manual Replan.env idleWithManual 5
            (Scenario.manual (Scenario.prog 1 100 200) 1) eq_refl eq_refl _ eq_refl _ _).
  - apply list_elem_of_here.
  - discriminate.
  - intros y Hy _ _. by apply list_elem_of_singleton in Hy.
Defined.

Lemma updateAll_success_reserves env s rules :
  isRunning s = false → rulesDB_findAll env = inr rules →
  reserves (updateAll env s).2
  = (createReserves (tuners s) (updateAllMatches env s rules)).2.
Proof. intros Hrun Hrules. by rewrite (updateAll_success env s rules Hrun Hrules). Qed.

(** X9. Let the catalogue answer a lookup by id with a program of that
    id. A successful [updateAll] keeps every manual reservation that has a
    [manualId], is the only manual one for its program, and whose program
    the catalogue still finds: afterwards the reservation found for that
    program is manual, has the program as the catalogue now gives it, the
    same [manualId], encode option and [isSkip], and is still marked as a
    conflict if it was marked before. *)
Theorem updateAll_keeps_manual (env : Env) (s : State) (rules : list RulesSchema.t)
    (r : ReserveProgram) (q : ProgramSchema.t) (qs : list ProgramSchema.t) :
  isRunning s = false →
  findIdSound env →
  rulesDB_findAll env = inr rules →
  r ∈ reserves s → isManual r = true → manualId r ≠ None →
  programDB_findId env (programId r) = inr (q :: qs) →
  (∀ y, y ∈ reserves s → programId y = programId r → isManual y = true → y = r) →
  ∃ r', getReserve (updateAll env s).2 (programId r) = Some r'
        ∧ program r' = q ∧ isManual r' = true ∧ manualId r' = manualId r
        ∧ encodeOption r' = encodeOption r ∧ isSkip r' = isSkip r
        ∧ (isConflict r = true → isConflict r' = true).
Proof.
  intros Hrun Hsound Hrules Hr Hman Hmid Hfind Honly.
  pose proof (updateAll_success_reserves env s rules Hrun Hrules) as Hres.
  set (matches := updateAllMatches env s rules) in *.
  assert (set_program q r ∈ matches) as Hx.
  { apply updateAllMatches_elem_of. left. by exists r, q, qs. }
  assert (set_program q r ∈ keepFirst (js_sort sortReserveProgram matches)) as Hkf.
  { apply keepFirst_manual; [done..|].
    intros y Hy Hid Hym.
    apply updateAllMatches_elem_of in Hy
      as [(y0 & q' & qs' & Hy0 & _ & _ & Hf & ->)|(rule & ps & q' & _ & _ & _ & _ & ->)];
      [|done].
    unfold programId in Hid. simpl in Hid, Hym.
    assert (programId y0 = programId r) as Hsame.
    { rewrite <- (Hsound _ _ _ Hf), <- (Hsound _ _ _ Hfind). done. }
    rewrite (Honly y0 Hy0 Hsame Hym) in Hf |- *. congruence. }
  apply (createReserves_to (tuners s)) in Hkf as (r' & Hr' & Hxr).
  destruct (emittedAs_fields _ _ Hxr) as (Hp & _ & _ & He & Hs & Hm & Hi).
  destruct Hxr as (_ & Hmark & _). simpl in Hp, He, Hs, Hm, Hi, Hmark.
  exists r'. split_and!; [|done|congruence|done..].
  assert (programId r = programId r') as ->.
  { unfold programId at 2. rewrite Hp. symmetry. by eapply Hsound. }
  apply getReserve_unique; rewrite Hres; [|done].
  apply createReserves_result_facts.
Qed.

Lemma findIdSound_early : findIdSound Trace.early.
Proof.
  intros id' q qs. unfold Trace.early, Trace.catalogue. simpl.
  repeat case_bool_decide; intros [= <- _]; done.
Defined.

Lemma updateAll_keeps_manual_witness :
  ∃ r', getReserve (updateAll Trace.early idleWithManual).2 1 = Some r'
        ∧ program r' = Scenario.prog 1 100 200 ∧ isManual r' = true
        ∧ manualId r' = Some 1
        ∧ encodeOption r' = None ∧ isSkip r' = false
        ∧ (false = true → isConflict r' = true).
Proof.
  refine (updateAll_keeps_manual Trace.early idleWithManual []
            (Scenario.manual (Scenario.prog 1 100 200) 1) (Scenario.prog 1 100 200) []
            eq_refl findIdSound_early eq_refl _ eq_refl _ eq_refl _).
  - apply list_elem_of_here.
  - discriminate.
  - intros y Hy _ _. by apply list_elem_of_singleton in Hy.
Defined.

(** X10. Let the catalogue answer a lookup by id with a program of that
    id. If the lookup of program [p] fails or finds nothing while
    [updateAll] runs, then after a successful [updateAll] no manual
    reservation of [p] is left: a manual reservation is dropped on a failed
    lookup just as on an empty one. *)
Theorem updateAll_drops_manual (env : Env) (s : State) (rules : list RulesSchema.t)
    (p : Z) :
  isRunning s = false →
  findIdSound env →
  rulesDB_findAll env = inr rules →
  (programDB_findId env p = inr [] ∨ ∃ e, programDB_findId env p = inl e) →
  ∀ r', r' ∈ reserves (updateAll env s).2 → programId r' = p → isManual r' = false.
Proof.
  intros Hrun Hsound Hrules Hlost r' Hr' Hid.
  rewrite (updateAll_success_reserves env s rules Hrun Hrules) in Hr'.
  apply createReserves_from in Hr' as (x & Hx & Hxr).
  apply keepFirst_elem_of, js_sort_elem_of in Hx.
  destruct (emittedAs_fields _ _ Hxr) as (Hp & _ & _ & _ & _ & Hm & _).
  rewrite Hm.
  apply updateAllMatches_elem_of in Hx
    as [(y & q & qs & _ & _ & _ & Hf & ->)|(rule & ps & q & _ & _ & _ & _ & ->)];
    [|done].
  exfalso. unfold programId in Hid. rewrite Hp in Hid. simpl in Hid.
  rewrite (Hsound _ _ _ Hf) in Hid. rewrite Hid in Hf.
  destruct Hlost as [Hl|[e Hl]]; congruence.
Qed.

Lemma updateAll_drops_manual_witness :
  Forall (λ r', programId r' = 1 → isManual r' = false)
         (reserves (updateAll Replan.env idleWithManual).2).
Proof.
  apply Forall_forall.
  refine (updateAll_drops_manual Replan.env idleWithManual [Replan.rule5] 1
            eq_refl _ eq_refl _).
  - intros id' q qs. discriminate.
  - by left.
Defined.

(** ** [cancel] and [removeSkip] with the re-plan they start *)

Lemma cancelLoop_None id' rs :
  Forall (λ r, programId r ≠ id') rs → cancelLoop id' rs = None.
Proof.
  induction 1 as [|r rs Hr _ IH]; simpl; [done|].
  rewrite bool_decide_false by done. by rewrite IH.
Qed.

Lemma cancelLoop_split id' rs r :
  find (λ r, bool_decide (programId r = id')) rs = Some r →
  ∃ l1 l2, rs = l1 ++ r :: l2
           ∧ Forall (λ y, programId y ≠ id') l1 ∧ programId r = id'
           ∧ cancelLoop id' rs = Some (l1 ++ (if isManual r then [] else [skipped r]) ++ l2)
           ∧ removeSkipLoop id' rs = Some (l1 ++ set_isSkip false r :: l2, ruleId r).
Proof.
  induction rs as [|y rs IH]; simpl; [done|].
  destruct (decide (programId y = id')) as [Hy|Hy].
  - rewrite bool_decide_true by done. intros [= ->].
    exists [], rs. split_and!; try done. by destruct (isManual r).
  - rewrite bool_decide_false by done. intros Hfind.
    destruct (IH Hfind) as (l1 & l2 & -> & Hl1 & Hid & -> & ->).
    exists (y :: l1), l2. split_and!; try done. by constructor.
Qed.

Lemma cancel_unfold env s id' rs' :
  isRunning s = false → cancelLoop id' (reserves s) = Some rs' →
  cancel env id' s
  = (inr (), (updateAll env (mkState false rs' (tuners s) (rs' :: written s))).2).
Proof.
  intros Hrun Hloop. unfold cancel, mbind, M_bind, gets, modify, spawn.
  rewrite Hrun. cbn [fst snd reserves set_isRunning]. by rewrite Hloop.
Qed.

Lemma removeSkip_unfold env s id' rs' rid :
  isRunning s = false → removeSkipLoop id' (reserves s) = Some (rs', rid) →
  removeSkip env id' s
  = (inr (),
     match rid with
     | Some ruleId' => (updateRule env ruleId' (mkState false rs' (tuners s) (written s))).2
     | None => mkState false rs' (tuners s) (written s)
     end).
Proof.
  intros Hrun Hloop. unfold removeSkip, mbind, M_bind, gets, modify, spawn, mret, M_ret.
  rewrite Hrun. cbn [fst snd reserves set_isRunning]. rewrite Hloop.
  by destruct rid.
Qed.

Lemma NoDup_ids_split l1 (r : ReserveProgram) l2 :
  NoDup (programId <$> (l1 ++ r :: l2)) →
  Forall (λ y, programId y ≠ programId r) (l1 ++ l2).
Proof.
  rewrite fmap_app, fmap_cons. intros Hnd.
  apply NoDup_app in Hnd as (_ & H12 & [Hr _]%NoDup_cons).
  apply Forall_app. split; apply Forall_forall; intros y Hy Heq.
  - apply (H12 (programId y)); [by apply list_elem_of_fmap_2|]. rewrite Heq. left.
  - apply Hr. rewrite <- Heq. by apply list_elem_of_fmap_2.
Qed.

(** X11. [cancel] for an id that no reservation has is a no-op on an idle
    planner: it returns normally and leaves the planner exactly as it was,
    with nothing written and no re-plan. *)
Theorem cancel_unknown (env : Env) (s : State) (id' : Z) :
  isRunning s = false →
  getReserve s id' = None →
  cancel env id' s = (inr (), s).
Proof.
  intros Hrun Hnone.
  assert (Forall (λ r, programId r ≠ id') (reserves s)) as Hno.
  { apply Forall_forall. intros r Hr Hid. unfold getReserve in Hnone.
    apply list_elem_of_In in Hr. pose proof (find_none _ _ Hnone r Hr) as Hf.
    simpl in Hf. by rewrite bool_decide_true in Hf. }
  unfold cancel, mbind, M_bind, gets, modify. rewrite Hrun.
  cbn [fst snd reserves set_isRunning]. rewrite (cancelLoop_None _ _ Hno).
  cbn. by rewrite idle_restore.
Qed.

Lemma cancel_unknown_witness :
  cancel Replan.env 9 Replan.planner = (inr (), Replan.planner).
Proof. exact (cancel_unknown Replan.env Replan.planner 9 eq_refl eq_refl). Defined.

(** After [updateAll], the reservation of a program that only rule
    reservations had, all of them skipped, and that a rule still matches. *)
Lemma updateAll_skipped env s rules rule programs q p :
  isRunning s = false →
  findIdSound env →
  rulesDB_findAll env = inr rules →
  rule ∈ rules → RulesSchema.enable rule = true →
  programDB_findRule env (createSearchOption rule) = inr programs →
  q ∈ programs → ProgramSchema.id q = p →
  (∃ r, r ∈ reserves s ∧ programId r = p) →
  (∀ r, r ∈ reserves s → programId r = p → isSkip r = true ∧ isManual r = false) →
  ∃ r', getReserve (updateAll env s).2 p = Some r'
        ∧ isSkip r' = true ∧ isConflict r' = false ∧ isManual r' = false.
Proof.
  intros Hrun Hsound Hrules Hrule Hen Hfind Hq Hid (r0 & Hr0 & Hr0id) Hall.
  pose proof (updateAll_success_reserves env s rules Hrun Hrules) as Hres.
  set (matches := updateAllMatches env s rules) in *.
  assert (scan_skipIndex (scanManual env (reserves s) [] ∅) !! p = Some true) as Hsi.
  { apply scanManual_skipIndex. right. exists r0. split_and!; [done..|].
    by apply Hall. }
  assert (∀ x, x ∈ matches → programId x = p →
               isSkip x = true ∧ isConflict x = false ∧ isManual x = false) as Hcand.
  { intros x Hx Hxid. apply updateAllMatches_elem_of in Hx
      as [(y & q' & qs' & Hy & Hym & _ & Hf & ->)|(rule' & ps & q' & _ & _ & _ & _ & ->)].
    - exfalso. unfold programId in Hxid. simpl in Hxid.
      rewrite (Hsound _ _ _ Hf) in Hxid.
      destruct (Hall y Hy Hxid) as [_ Hnm]. congruence.
    - unfold programId in Hxid. simpl in *. by rewrite Hxid, Hsi. }
  destruct (createReserves_covers (tuners s) matches
              (ruleReserve rule (RulesSchema.id rule)
                 (scan_skipIndex (scanManual env (reserves s) [] ∅)) q))
    as (r' & Hr' & Hr'id).
  { apply updateAllMatches_elem_of. right. by exists rule, programs, q. }
  change (programId r' = ProgramSchema.id q) in Hr'id. rewrite Hid in Hr'id.
  exists r'. split.
  { rewrite <- Hr'id. apply getReserve_unique; rewrite Hres; [|done].
    apply createReserves_result_facts. }
  apply createReserves_from in Hr' as (x & Hx & Hxr).
  apply keepFirst_elem_of, js_sort_elem_of in Hx.
  destruct (emittedAs_fields _ _ Hxr) as (Hp & _ & _ & _ & Hs & Hm & _).
  destruct (Hcand x Hx) as (Hxs & Hxc & Hxm).
  { unfold programId. rewrite <- Hp. exact Hr'id. }
  destruct Hxr as (_ & _ & Hkeep). split_and!; [congruence| |congruence].
  rewrite (Hkeep Hxs). done.
Qed.

(** X12. Let the catalogue answer a lookup by id with a program of that
    id, and let the list have one reservation per program. [cancel] of a
    rule reservation whose rule is enabled and still matches the program,
    with the rule store answering, returns normally, and once the re-plan
    it starts has run the program is still reserved: skipped, not in
    conflict and not manual. *)
Theorem cancel_rule_reservation (env : Env) (s : State) (rules : list RulesSchema.t)
    (rule : RulesSchema.t) (programs : list ProgramSchema.t)
    (q : ProgramSchema.t) (p : Z) (r : ReserveProgram) :
  isRunning s = false →
  findIdSound env →
  NoDup (programId <$> reserves s) →
  getReserve s p = Some r → isManual r = false →
  rulesDB_findAll env = inr rules →
  rule ∈ rules → RulesSchema.enable rule = true →
  programDB_findRule env (createSearchOption rule) = inr programs →
  q ∈ programs → ProgramSchema.id q = p →
  (cancel env p s).1 = inr ()
  ∧ ∃ r', getReserve (cancel env p s).2 p = Some r'
          ∧ isSkip r' = true ∧ isConflict r' = false ∧ isManual r' = false.
Proof.
  intros Hrun Hsound Hnd Hget Hman Hrules Hrule Hen Hfind Hq Hid.
  destruct (cancelLoop_split p (reserves s) r Hget)
    as (l1 & l2 & Heq & Hl1 & Hrid & Hloop & _).
  rewrite Hman in Hloop.
  rewrite (cancel_unfold env s p _ Hrun Hloop). split; [done|]. cbn [snd].
  rewrite Heq in Hnd. apply NoDup_ids_split in Hnd. rewrite Hrid in Hnd.
  apply Forall_app in Hnd as [Hn1 Hn2].
  eapply (updateAll_skipped env _ rules rule programs q p); try done.
  - exists (skipped r). split; [|done]. cbn [reserves].
    apply elem_of_app. right. left.
  - cbn [reserves]. intros y Hy Hyid.
    apply elem_of_app in Hy as [Hy|[->|Hy]%elem_of_cons].
    + rewrite Forall_forall in Hn1. by destruct (Hn1 y Hy).
    + done.
    + rewrite Forall_forall in Hn2. by destruct (Hn2 y Hy).
Qed.

Lemma cancel_rule_reservation_witness :
  (cancel Replan.env 1 Displace.planner).1 = inr ()
  ∧ ∃ r', getReserve (cancel Replan.env 1 Displace.planner).2 1 = Some r'
          ∧ isSkip r' = true ∧ isConflict r' = false ∧ isManual r' = false.
Proof.
  refine (cancel_rule_reservation Replan.env Displace.planner [Replan.rule5]
            Replan.rule5 [Scenario.prog 1 100 300] (Scenario.prog 1 100 300) 1
            Scenario.P1 eq_refl _ _ eq_refl eq_refl eq_refl _ eq_refl eq_refl _ eq_refl).
  - intros id' q qs. discriminate.
  - apply NoDup_singleton.
  - apply list_elem_of_here.
  - apply list_elem_of_here.
Defined.

Lemma scanManual_reserves_ids env rs matches si :
  findIdSound env →
  programId <$> scan_reserves (scanManual env rs matches si) = programId <$> rs.
Proof.
  intros Hsound. pose proof (scanManual_reserves env rs matches si) as Hall.
  induction Hall as [|r r' rs rs' Hr _ IH]; [done|].
  rewrite !fmap_cons, IH. f_equal.
  destruct Hr as [->|(q & qs & Hf & ->)]; [done|].
  unfold programId at 1. simpl. by eapply Hsound.
Qed.

(** X13. Let the catalogue answer a lookup by id with a program of that
    id, and let the list have one reservation per program. [cancel] of a
    manual reservation returns normally, and once the re-plan it starts has
    run, whether that succeeds or fails on the rule store, no manual
    reservation of the program is left; if a rule brings the program back,
    it is as a rule reservation. *)
Theorem cancel_manual_reservation (env : Env) (s : State) (p : Z) (r : ReserveProgram) :
  isRunning s = false →
  findIdSound env →
  NoDup (programId <$> reserves s) →
  getReserve s p = Some r → isManual r = true →
  (cancel env p s).1 = inr ()
  ∧ ∀ r', r' ∈ reserves (cancel env p s).2 → programId r' = p → isManual r' = false.
Proof.
  intros Hrun Hsound Hnd Hget Hman.
  destruct (cancelLoop_split p (reserves s) r Hget)
    as (l1 & l2 & Heq & Hl1 & Hrid & Hloop & _).
  rewrite Hman in Hloop. simpl in Hloop.
  rewrite (cancel_unfold env s p _ Hrun Hloop). split; [done|]. cbn [snd].
  rewrite Heq in Hnd. apply NoDup_ids_split in Hnd. rewrite Hrid in Hnd.
  set (s1 := mkState false (l1 ++ l2) (tuners s) ((l1 ++ l2) :: written s)).
  intros r' Hr' Hid.
  destruct (rulesDB_findAll env) as [e|rules] eqn:Hrules.
  - exfalso. rewrite (updateAll_failure env s1 e eq_refl Hrules) in Hr'.
    cbn [snd reserves] in Hr'.
    apply (list_elem_of_fmap_2 programId) in Hr'.
    rewrite scanManual_reserves_ids in Hr' by done.
    apply list_elem_of_fmap in Hr' as (y & Hy & Hin).
    rewrite Forall_forall in Hnd. apply (Hnd y Hin). congruence.
  - rewrite (updateAll_success_reserves env s1 rules eq_refl Hrules) in Hr'.
    apply createReserves_from in Hr' as (x & Hx & Hxr).
    apply keepFirst_elem_of, js_sort_elem_of in Hx.
    destruct (emittedAs_fields _ _ Hxr) as (Hp & _ & _ & _ & _ & Hm & _).
    rewrite Hm.
    apply updateAllMatches_elem_of in Hx
      as [(y & q & qs & Hy & _ & _ & Hf & ->)|(rule & ps & q & _ & _ & _ & _ & ->)];
      [|done].
    exfalso. unfold programId in Hid. rewrite Hp in Hid. simpl in Hid.
    rewrite (Hsound _ _ _ Hf) in Hid.
    rewrite Forall_forall in Hnd. by apply (Hnd y Hy).
Qed.

Lemma cancel_manual_reservation_witness :
  (cancel Trace.early 1 idleWithManual).1 = inr ()
  ∧ ∀ r', r' ∈ reserves (cancel Trace.early 1 idleWithManual).2 →
          programId r' = 1 → isManual r' = false.
Proof.
  refine (cancel_manual_reservation Trace.early idleWithManual 1
            (Scenario.manual (Scenario.prog 1 100 200) 1)
            eq_refl findIdSound_early _ eq_refl eq_refl).
  apply NoDup_singleton.
Defined.

(** X14. [removeSkip] of a reservation that has no [ruleId] clears its
    [isSkip] and the flag and does nothing else: no re-plan runs, the
    tuners are as before, and nothing is written, so the document still
    has the reservation as it was. *)
Theorem removeSkip_without_rule (env : Env) (s : State) (p : Z) (r : ReserveProgram) :
  isRunning s = false →
  getReserve s p = Some r → ruleId r = None →
  let s' := (removeSkip env p s).2 in
  (removeSkip env p s).1 = inr ()
  ∧ getReserve s' p = Some (set_isSkip false r)
  ∧ programId <$> reserves s' = programId <$> reserves s
  ∧ isRunning s' = false ∧ tuners s' = tuners s ∧ written s' = written s.
Proof.
  intros Hrun Hget Hrid s'. subst s'.
  destruct (cancelLoop_split p (reserves s) r Hget)
    as (l1 & l2 & Heq & Hl1 & Hid & _ & Hloop).
  rewrite (removeSkip_unfold env s p _ _ Hrun Hloop), Hrid.
  cbn [fst snd isRunning tuners written reserves]. split_and!; try done.
  - unfold getReserve. cbn [reserves].
    clear Heq Hloop. induction Hl1 as [|y l1 Hy _ IH]; simpl.
    + by rewrite bool_decide_true.
    + by rewrite bool_decide_false.
  - rewrite Heq, !fmap_app, !fmap_cons. done.
Qed.

Lemma removeSkip_without_rule_witness :
  getReserve (removeSkip Trace.early 1 idleWithManual).2 1
  = Some (set_isSkip false (Scenario.manual (Scenario.prog 1 100 200) 1)).
Proof.
  exact (proj1 (proj2 (removeSkip_without_rule Trace.early idleWithManual 1
                         (Scenario.manual (Scenario.prog 1 100 200) 1)
                         eq_refl eq_refl eq_refl))).
Defined.

(** The candidates of [updateRule] for a program whose only reservation
    is one of the rule itself and is not skipped: the fresh matches,
    which are not skipped either. *)
Lemma updateRule_candidates_for s ruleId' rule programs p x :
  (∀ y, y ∈ reserves s → programId y = p →
        ruleId y = Some ruleId' ∧ isSkip y = false) →
  x ∈ updateRuleMatches s ruleId' rule programs → programId x = p →
  isSkip x = false ∧ ruleId x = Some ruleId' ∧ isManual x = false
  ∧ ∃ r q, rule = Some r ∧ q ∈ programs ∧ ProgramSchema.id q = p.
Proof.
  intros Hall Hx Hid.
  apply updateRuleMatches_elem_of in Hx as [(y & Hy & Hne & ->)|(r & q & -> & Hq & ->)].
  - destruct (Hall y Hy Hid) as [? _]. done.
  - unfold programId in Hid. simpl in Hid. simpl. split_and!; try done.
    + rewrite Hid, scanOthers_skipIndex; [done|].
      intros y Hy Hyid. by destruct (Hall y Hy Hyid).
    + by exists r, q.
Qed.

(** X15. Let the list have one reservation per program. [removeSkip] of a
    reservation of rule [ruleId'] returns normally and starts [updateRule].
    If the rule is there, enabled, and still matches the program, the
    program is afterwards reserved by that rule and not skipped. If the
    re-plan succeeds but the rule is gone, disabled or no longer matches
    the program, the program is no longer reserved at all. *)
Theorem removeSkip_rule_reservation (env : Env) (s : State) (p ruleId' : Z)
    (r : ReserveProgram) :
  isRunning s = false →
  NoDup (programId <$> reserves s) →
  getReserve s p = Some r → ruleId r = Some ruleId' →
  let s' := (removeSkip env p s).2 in
  (removeSkip env p s).1 = inr ()
  ∧ (∀ rule rest programs q,
       rulesDB_findId env ruleId' = inr (rule :: rest) →
       RulesSchema.enable rule = true →
       programDB_findRule env (createSearchOption rule) = inr programs →
       q ∈ programs → ProgramSchema.id q = p →
       ∃ r', getReserve s' p = Some r'
             ∧ isSkip r' = false ∧ ruleId r' = Some ruleId' ∧ isManual r' = false)
  ∧ (∀ rule programs,
       updateRuleInput env ruleId' = inr (rule, programs) →
       (rule = None ∨ Forall (λ q, ProgramSchema.id q ≠ p) programs) →
       getReserve s' p = None).
Proof.
  intros Hrun Hnd Hget Hrid s'. subst s'.
  destruct (cancelLoop_split p (reserves s) r Hget)
    as (l1 & l2 & Heq & Hl1 & Hid & _ & Hloop).
  rewrite (removeSkip_unfold env s p _ _ Hrun Hloop), Hrid.
  cbn [fst snd]. split; [done|].
  rewrite Heq in Hnd. apply NoDup_ids_split in Hnd. rewrite Hid in Hnd.
  set (s1 := mkState false (l1 ++ set_isSkip false r :: l2) (tuners s) (written s)).
  assert (∀ y, y ∈ reserves s1 → programId y = p →
               ruleId y = Some ruleId' ∧ isSkip y = false) as Hall.
  { cbn [reserves s1]. intros y Hy Hyid. rewrite Forall_app, !Forall_forall in Hnd.
    destruct Hnd as [Hn1 Hn2].
    apply elem_of_app in Hy as [Hy|[->|Hy]%elem_of_cons].
    - by destruct (Hn1 y Hy).
    - done.
    - by destruct (Hn2 y Hy). }
  rewrite (updateRule_unfold env s1 ruleId' eq_refl).
  split.
  - intros rule rest programs q Hfind Hen Hprog Hq Hqid.
    assert (updateRuleInput env ruleId' = inr (Some rule, programs)) as ->.
    { unfold updateRuleInput. by rewrite Hfind, Hen, Hprog. }
    cbn [snd]. set (matches := updateRuleMatches s1 ruleId' (Some rule) programs).
    destruct (createReserves_covers (tuners s1) matches
                (ruleReserve rule ruleId' (scanOthers ruleId' (reserves s1) ∅).2 q))
      as (r' & Hr' & Hr'id).
    { unfold matches, updateRuleMatches. apply elem_of_app. right.
      by apply list_elem_of_fmap_2. }
    change (programId r' = ProgramSchema.id q) in Hr'id. rewrite Hqid in Hr'id.
    exists r'. split.
    { rewrite <- Hr'id. apply getReserve_unique; cbn [reserves]; [|done].
      apply createReserves_result_facts. }
    apply createReserves_from in Hr' as (x & Hx & Hxr).
    apply keepFirst_elem_of, js_sort_elem_of in Hx.
    destruct (emittedAs_fields _ _ Hxr) as (Hp & Hr & _ & _ & Hs & Hm & _).
    destruct (updateRule_candidates_for s1 ruleId' _ _ p x Hall Hx)
      as (Hxs & Hxr' & Hxm & _).
    { unfold programId. rewrite <- Hp. exact Hr'id. }
    split_and!; congruence.
  - intros rule programs Hinput Hgone. rewrite Hinput. cbv zeta. cbn [snd].
    match goal with |- getReserve ?st p = None =>
      destruct (getReserve st p) as [r'|] eqn:Hget'; [exfalso|done] end.
    apply getReserve_elem_of in Hget' as [Hr' Hr'id]. cbn [reserves] in Hr'.
    apply createReserves_from in Hr' as (x & Hx & Hxr).
    apply keepFirst_elem_of, js_sort_elem_of in Hx.
    destruct (emittedAs_fields _ _ Hxr) as (Hp & _).
    destruct (updateRule_candidates_for s1 ruleId' _ _ p x Hall Hx)
      as (_ & _ & _ & r0 & q & Hr0 & Hq & Hqid).
    { unfold programId. rewrite <- Hp. exact Hr'id. }
    destruct Hgone as [->|Hno]; [done|].
    rewrite Forall_forall in Hno. by apply (Hno q).
Qed.

Lemma removeSkip_rule_reservation_witness :
  ∃ r', getReserve (removeSkip Replan.env 1 Replan.planner).2 1 = Some r'
        ∧ isSkip r' = false ∧ ruleId r' = Some 5 ∧ isManual r' = false.
Proof.
  refine (proj1 (proj2 (removeSkip_rule_reservation Replan.env Replan.planner 1 5
                          (set_isSkip true Scenario.P1) eq_refl _ eq_refl eq_refl))
            Replan.rule5 [] [Scenario.prog 1 100 300] (Scenario.prog 1 100 300)
            eq_refl eq_refl eq_refl _ eq_refl).
  - apply NoDup_singleton.
  - apply list_elem_of_here.
Defined.

(** ** [addReserve] *)

Lemma getReserve_None s id' :
  getReserve s id' = None ↔ Forall (λ r, programId r ≠ id') (reserves s).
Proof.
  unfold getReserve. split.
  - intros Hnone. apply Forall_forall. intros r Hr Hid.
    apply list_elem_of_In in Hr. pose proof (find_none _ _ Hnone r Hr) as Hf.
    simpl in Hf. by rewrite bool_decide_true in Hf.
  - intros Hall. destruct (find _ _) as [r|] eqn:Hfind; [|done].
    apply find_some in Hfind as [Hin Hid]. apply bool_decide_eq_true in Hid.
    rewrite Forall_forall in Hall. apply list_elem_of_In in Hin.
    by destruct (Hall r Hin).
Qed.

(** A program that is reserved already is refused, and the planner is
    left as it was. *)
Lemma addReserve_reserved env s programId' encode q qs r :
  isRunning s = false →
  (∀ e, encode = Some e → checkEncodeOption env e = true) →
  programDB_findId env programId' = inr (q :: qs) →
  getReserve s programId' = Some r →
  addReserve env programId' encode s = (inl ReservationManagerAddFailed, s).
Proof.
  intros Hrun Hvalid Hfind Hget.
  assert (match encode with
          | Some e => negb (checkEncodeOption env e)
          | None => false
          end = false) as Hcheck.
  { destruct encode as [e|]; [|done]. by rewrite (Hvalid e eq_refl). }
  unfold addReserve, mbind, M_bind, gets, modify, awaitOr, throw, mret, M_ret.
  rewrite Hrun, Hcheck, Hfind. cbn -[createReserves js_sort].
  rewrite collectOverlap_reserved; [cbn; by rewrite idle_restore|].
  apply getReserve_elem_of in Hget as [Hin Hid].
  apply Exists_exists. by exists r.
Qed.

(** X16. On an idle planner a refused [addReserve] leaves the planner
    exactly as it was: with an encode option that the validator rejects it
    throws the add-failed error; otherwise it throws the error of a failed
    catalogue lookup, the not-found error when the catalogue has no such
    program, and the add-failed error when the program is reserved
    already. *)
Theorem addReserve_refusals (env : Env) (s : State) (programId' : Z)
    (encode : option EncodeInterface) :
  isRunning s = false →
  (∀ e, encode = Some e → checkEncodeOption env e = false →
        addReserve env programId' encode s = (inl ReservationManagerAddFailed, s))
  ∧ ((∀ e, encode = Some e → checkEncodeOption env e = true) →
     (∀ err, programDB_findId env programId' = inl err →
             addReserve env programId' encode s = (inl err, s))
     ∧ (programDB_findId env programId' = inr [] →
        addReserve env programId' encode s = (inl ProgramIsNotFound, s))
     ∧ (∀ q qs r, programDB_findId env programId' = inr (q :: qs) →
                  getReserve s programId' = Some r →
                  addReserve env programId' encode s
                  = (inl ReservationManagerAddFailed, s))).
Proof.
  intros Hrun. split.
  - intros e -> Hbad. unfold addReserve, mbind, M_bind, gets, throw.
    by rewrite Hrun, Hbad.
  - intros Hvalid.
    assert (match encode with
            | Some e => negb (checkEncodeOption env e)
            | None => false
            end = false) as Hcheck.
    { destruct encode as [e|]; [|done]. by rewrite (Hvalid e eq_refl). }
    split_and!.
    + intros err Hfind.
      unfold addReserve, mbind, M_bind, gets, modify, awaitOr, throw.
      rewrite Hrun, Hcheck, Hfind. cbn. by rewrite idle_restore.
    + intros Hfind.
      unfold addReserve, mbind, M_bind, gets, modify, awaitOr, throw, mret, M_ret.
      rewrite Hrun, Hcheck, Hfind. cbn. by rewrite idle_restore.
    + intros q qs r Hfind Hget.
      by apply (addReserve_reserved env s programId' encode q qs r).
Qed.

Lemma addReserve_refusals_witness :
  addReserve Displace.env 3 None Displace.planner
  = (inl ProgramIsNotFound, Displace.planner).
Proof.
  refine (proj1 (proj2 (proj2 (addReserve_refusals Displace.env Displace.planner 3 None
                                 eq_refl) _)) eq_refl).
  intros e. discriminate.
Defined.

(** X17. Let [addReserve] succeed for a program that the catalogue gives
    under the id asked for. Then the program is found by [getReserve]: a
    manual reservation with the program of the catalogue, the clock as
    [manualId], the encode option of the call, and neither skipped nor in
    conflict. If the list had one reservation per program before, it has
    afterwards, and every reservation of before is found as it was. *)
Theorem addReserve_then_getReserve (env : Env) (s : State) (programId' : Z)
    (encode : option EncodeInterface) (q : ProgramSchema.t)
    (qs : list ProgramSchema.t) :
  programDB_findId env programId' = inr (q :: qs) →
  ProgramSchema.id q = programId' →
  (addReserve env programId' encode s).1 = inr () →
  let s' := (addReserve env programId' encode s).2 in
  getReserve s' programId'
  = Some (mkReserve q None None encode false true (Some (getTime env)) false)
  ∧ (NoDup (programId <$> reserves s) →
     NoDup (programId <$> reserves s')
     ∧ ∀ r, r ∈ reserves s → getReserve s' (programId r) = Some r).
Proof.
  intros Hfind Hqid Hok s'. subst s'.
  assert (isRunning s = false) as Hrun.
  { destruct (isRunning s) eqn:Hrun; [|done].
    unfold addReserve, mbind, M_bind, gets, throw in Hok. by rewrite Hrun in Hok. }
  assert (∀ e, encode = Some e → checkEncodeOption env e = true) as Hvalid.
  { intros e ->. destruct (checkEncodeOption env e) eqn:Hc; [done|].
    unfold addReserve, mbind, M_bind, gets, throw in Hok.
    by rewrite Hrun, Hc in Hok. }
  assert (Forall (λ r, programId r ≠ programId') (reserves s)) as Hfree.
  { apply getReserve_None. destruct (getReserve s programId') as [r|] eqn:Hget; [|done].
    by rewrite (addReserve_reserved env s programId' encode q qs r
                  Hrun Hvalid Hfind Hget) in Hok. }
  rewrite (addReserve_unfold env s programId' encode q qs Hrun Hvalid Hfind Hfree) in Hok |- *.
  cbv zeta in Hok |- *.
  destruct (existsb isConflict _); [done|]. cbn [snd reserves set_isRunning writeReservesFile set_reserves].
  fold (newReserve env q encode).
  set (new := newReserve env q encode).
  assert (programId new = programId') as Hnew by done.
  assert (∀ r, r ∈ js_sort byStartAt (reserves s ++ [new]) ↔ r ∈ reserves s ∨ r = new)
    as Hmem.
  { intros r. rewrite js_sort_elem_of, elem_of_app, list_elem_of_singleton. done. }
  split.
  - destruct (getReserve _ programId') as [r|] eqn:Hget.
    + apply getReserve_elem_of in Hget as [Hin Hid]. cbn [reserves] in Hin.
      apply Hmem in Hin as [Hin| ->]; [|done].
      rewrite Forall_forall in Hfree. by destruct (Hfree r Hin).
    + apply getReserve_None in Hget. cbn [reserves] in Hget.
      rewrite Forall_forall in Hget. destruct (Hget new); [|done].
      apply Hmem. by right.
  - intros Hnd.
    assert (NoDup (programId <$> js_sort byStartAt (reserves s ++ [new]))) as Hnd'.
    { rewrite js_sort_perm, fmap_app. apply NoDup_app. split_and!; [done| |].
      - intros i Hi [->|[]%elem_of_nil]%elem_of_cons.
        apply list_elem_of_fmap in Hi as (r & Hr & Hin).
        rewrite Forall_forall in Hfree. apply (Hfree r Hin). congruence.
      - apply NoDup_singleton. }
    split; [done|]. intros r Hr.
    apply getReserve_unique; cbn [reserves]; [done|]. apply Hmem. by left.
Qed.

Lemma addReserve_then_getReserve_witness :
  getReserve (addReserve Trace.early 1 None Trace.start).2 1
  = Some (mkReserve (Scenario.prog 1 100 200) None None None false true (Some 10) false).
Proof.
  exact (proj1 (addReserve_then_getReserve Trace.early Trace.start 1 None
                  (Scenario.prog 1 100 200) [] eq_refl eq_refl eq_refl)).
Defined.

(** X18. On a planner without tuners every valid [addReserve] for a
    known program that is not reserved yet is refused with the conflict
    error, and the planner is left exactly as it was. *)
Theorem addReserve_no_tuner (env : Env) (s : State) (programId' : Z)
    (encode : option EncodeInterface) (q : ProgramSchema.t)
    (qs : list ProgramSchema.t) :
  isRunning s = false →
  tuners s = [] →
  (∀ e, encode = Some e → checkEncodeOption env e = true) →
  programDB_findId env programId' = inr (q :: qs) →
  getReserve s programId' = None →
  addReserve env programId' encode s = (inl ReservationManagerAddReserveConflict, s).
Proof.
  intros Hrun Hts Hvalid Hfind Hnone.
  apply getReserve_None in Hnone.
  rewrite (addReserve_unfold env s programId' encode q qs Hrun Hvalid Hfind Hnone).
  cbv zeta. rewrite Hts.
  set (new := newReserve env q encode).
  set (cands := candidateSet (reserves s) new).
  assert (existsb isConflict (createReserves [] cands).2 = true) as ->.
  { destruct (createReserves_covers [] cands new) as (r & Hr & _).
    { unfold cands, candidateSet. apply elem_of_app. right. left. }
    apply existsb_isConflict. exists r. split; [done|].
    apply (createReserves_no_tuner_marks cands r Hr).
    apply createReserves_elem_of in Hr as (x & Hx & Heq).
    change (isSkip (eraseConflict r) = false). rewrite <- Heq.
    unfold cands, candidateSet in Hx.
    apply elem_of_app in Hx as [Hx| ->%list_elem_of_singleton]; [|done].
    apply list_elem_of_In, List.filter_In in Hx as [_ Hx].
    apply andb_true_iff in Hx as [[_ Hs]%andb_true_iff _].
    simpl. by apply negb_true_iff in Hs. }
  rewrite createReserves_no_tuner_tuners.
  f_equal. destruct s. simpl in *. by subst.
Qed.

Lemma addReserve_no_tuner_witness :
  addReserve Displace.env 2 None (mkState false [] [] [])
  = (inl ReservationManagerAddReserveConflict, mkState false [] [] []).
Proof.
  refine (addReserve_no_tuner Displace.env (mkState false [] [] []) 2 None
            (Scenario.prog 2 150 250) [] eq_refl eq_refl _ eq_refl eq_refl).
  intros e. discriminate.
Defined.

(** ** A planner whose flag is left set *)

Lemma call_busy env c s :
  isRunning s = true →
  isRunning (call env c s).2 = true
  ∧ written (call env c s).2 = written s
  ∧ reserves (call env c s).2 ⊆+ reserves s.
Proof.
  intros Hrun. destruct c; simpl.
  - done.
  - unfold addReserve, mbind, M_bind, gets, throw. by rewrite Hrun.
  - unfold cancel, mbind, M_bind, gets, throw. by rewrite Hrun.
  - unfold removeSkip, mbind, M_bind, gets, throw. by rewrite Hrun.
  - unfold updateAll, mbind, M_bind, gets, throw. by rewrite Hrun.
  - unfold updateRule, mbind, M_bind, gets, throw. by rewrite Hrun.
  - split_and!; [done..|]. apply sublist_submseteq.
    generalize (reserves s). intros l. induction l as [|r l IH]; simpl; [done|].
    destruct (negb _); [by apply sublist_skip|by apply sublist_cons].
Qed.

(** X19. Once [isRunning] is left set, no sequence of public calls clears
    it: after any calls, whatever the collaborators answer, the flag is
    still set, nothing more has been written, and the list holds only
    reservations it held before. Only a restart, which reads the document
    into a new planner, clears the flag. *)
Theorem flag_never_recovers (cs : list (Env * Call)) (s : State) :
  isRunning s = true →
  isRunning (runCalls cs s) = true
  ∧ written (runCalls cs s) = written s
  ∧ reserves (runCalls cs s) ⊆+ reserves s
  ∧ isRunning (readReservesFile (runCalls cs s)) = false.
Proof.
  intros Hrun. unfold runCalls.
  assert (isRunning (fold_left (λ s ec, (call ec.1 ec.2 s).2) cs s) = true
          ∧ written (fold_left (λ s ec, (call ec.1 ec.2 s).2) cs s) = written s
          ∧ reserves (fold_left (λ s ec, (call ec.1 ec.2 s).2) cs s) ⊆+ reserves s)
    as (H1 & H2 & H3).
  { revert s Hrun. induction cs as [|[env c] cs IH]; intros s Hrun; [done|].
    simpl. destruct (call_busy env c s Hrun) as (Hr & Hw & Hs).
    destruct (IH _ Hr) as (IH1 & IH2 & IH3). split_and!; [done|congruence|].
    by etrans. }
  by split_and!.
Qed.

Lemma flag_never_recovers_witness :
  isRunning (runCalls [(Trace.late, CallClean); (Trace.late, CallUpdateAll)] Trace.busy)
  = true.
Proof.
  exact (proj1 (flag_never_recovers [(Trace.late, CallClean); (Trace.late, CallUpdateAll)]
                  Trace.busy eq_refl)).
Defined.

(** ** The readers *)

Lemma filter_skip_only (l : list ReserveProgram) :
  Forall skipExcludesConflict l →
  List.filter isSkip l = List.filter (λ r, negb (isConflict r) && isSkip r) l.
Proof.
  induction 1 as [|r l Hr _ IH]; [done|]. simpl.
  unfold skipExcludesConflict in Hr.
  destruct (isConflict r), (isSkip r); try done; simpl; by rewrite IH.
Qed.

Lemma filter_three_lengths (l : list ReserveProgram) :
  Forall skipExcludesConflict l →
  (length (List.filter (λ r, negb (isConflict r) && negb (isSkip r)) l)
   + length (List.filter isConflict l) + length (List.filter isSkip l))%nat
  = length l
  ∧ List.filter isSkip l = List.filter (λ r, negb (isConflict r) && isSkip r) l.
Proof.
  intros Hinv. pose proof (filter_skip_only l Hinv) as Hskip.
  split; [|done]. rewrite Hskip.
  pose proof (Permutation_length (three_way_perm l)) as Hlen.
  rewrite !length_app in Hlen. lia.
Qed.

(** X20. In every state the planner can be in, the three filtered readers
    split the list: the totals of [getReserves], [getConflicts] and
    [getSkips] add up to the number of reservations, and the three id
    lists of [getReservesAllId] are the ids of what these readers return
    without a limit. *)
Theorem readers_split (s : State) :
  reachable s →
  (lim_total (getReserves s None 0) + lim_total (getConflicts s None 0)
   + lim_total (getSkips s None 0))%nat = length (reserves s)
  ∧ all_reserves (getReservesAllId s) = toItem <$> lim_reserves (getReserves s None 0)
  ∧ all_conflicts (getReservesAllId s) = toItem <$> lim_reserves (getConflicts s None 0)
  ∧ all_skips (getReservesAllId s) = toItem <$> lim_reserves (getSkips s None 0).
Proof.
  intros [Hinv _]%reachable_inv.
  destruct (filter_three_lengths (reserves s) Hinv) as [Hlen Hskips].
  unfold getReservesAllId. rewrite allIdStep_fold.
  unfold getReserves, getConflicts, getSkips. cbn.
  split_and!; try done. by rewrite Hskips.
Qed.

Lemma readers_split_witness :
  (lim_total (getReserves (call Replan.env CallUpdateAll (mkState false [] [] [])).2 None 0)
   + lim_total (getConflicts (call Replan.env CallUpdateAll (mkState false [] [] [])).2 None 0)
   + lim_total (getSkips (call Replan.env CallUpdateAll (mkState false [] [] [])).2 None 0))%nat
  = length (reserves (call Replan.env CallUpdateAll (mkState false [] [] [])).2).
Proof.
  refine (proj1 (readers_split _ _)).
  apply reachable_call, reachable_start.
Defined.

Lemma js_slice_page {A} (offset n : Z) (l : list A) :
  0 ≤ offset → 0 ≤ n →
  js_slice offset (n + offset) l = take (Z.to_nat n) (drop (Z.to_nat offset) l).
Proof.
  intros Ho Hn. unfold js_slice. cbv zeta.
  destruct (Z.ltb_spec offset 0); [lia|]. destruct (Z.ltb_spec (n + offset) 0); [lia|].
  apply list_eq. intros i. rewrite !lookup_take, !lookup_drop.
  repeat case_decide; try done; try lia.
  - f_equal. lia.
  - symmetry. apply lookup_ge_None_2. lia.
Qed.

(** X21. Paging of [getReservesAll] with a limit and an offset that are
    not negative: the page is the [limit] reservations after the first
    [offset]; it is empty when the offset is past the end; and a page
    followed by the next page is the page of both. Without a limit the
    whole list is returned and the offset is ignored. *)
Theorem getReservesAll_paging (s : State) (limit offset : Z) :
  0 ≤ offset → 0 ≤ limit →
  getReservesAll s (Some limit) offset
  = take (Z.to_nat limit) (drop (Z.to_nat offset) (reserves s))
  ∧ (Z.of_nat (length (reserves s)) ≤ offset → getReservesAll s (Some limit) offset = [])
  ∧ (∀ limit', 0 ≤ limit' →
       getReservesAll s (Some limit) offset
       ++ getReservesAll s (Some limit') (offset + limit)
       = getReservesAll s (Some (limit + limit')) offset)
  ∧ getReservesAll s None offset = reserves s.
Proof.
  intros Ho Hl. unfold getReservesAll, limited.
  rewrite js_slice_page by done. split_and!; [done| | |done].
  - intros Hout. rewrite drop_ge by lia. apply take_nil.
  - intros limit' Hl'. rewrite !js_slice_page by lia.
    rewrite Z2Nat.inj_add by lia.
    rewrite (Z2Nat.inj_add limit limit') by lia.
    rewrite <- drop_drop. generalize (drop (Z.to_nat offset) (reserves s)).
    intros l. by rewrite take_take_drop.
Qed.

Lemma getReservesAll_paging_witness :
  getReservesAll Trace.busy (Some 1) 1 = [].
Proof.
  refine (proj1 (proj2 (getReservesAll_paging Trace.busy 1 1 _ _)) _);
    vm_compute; discriminate.
Defined.

(** ** [clean] *)

Lemma filter_sublist {A} (f : A → bool) (l : list A) : List.filter f l `sublist_of` l.
Proof.
  induction l as [|x l IH]; simpl; [done|].
  destruct (f x); [by apply sublist_skip|by apply sublist_cons].
Qed.

Lemma startAt_le_trans : Transitive startAt_le.
Proof. intros a b c. unfold startAt_le. lia. Qed.

Lemma sublist_Sorted_startAt (l k : list ReserveProgram) :
  l `sublist_of` k → Sorted startAt_le k → Sorted startAt_le l.
Proof.
  intros Hsub Hk. apply StronglySorted_Sorted.
  apply (Sorted_StronglySorted startAt_le_trans) in Hk.
  induction Hsub as [|x l k Hsub IH|x l k Hsub IH].
  - constructor.
  - apply StronglySorted_inv in Hk as [Hk Hx]. constructor; [by apply IH|].
    eapply Forall_forall. intros y Hy. rewrite Forall_forall in Hx. apply Hx.
    by eapply sublist_submseteq, elem_of_submseteq in Hsub.
  - apply StronglySorted_inv in Hk as [Hk _]. by apply IH.
Qed.

Lemma sublist_uniquePrograms (l k : list ReserveProgram) :
  l `sublist_of` k → uniquePrograms k → uniquePrograms l.
Proof.
  unfold uniquePrograms. intros Hsub Hk.
  eapply sublist_NoDup; first [exact Hk | by apply fmap_sublist].
Qed.

(** X22. [clean] always returns normally. It keeps, in their order, the
    reservations that have not ended before the clock, one that ends at
    the very instant included, and drops the others; it changes neither
    the flag nor the tuners and writes nothing, so the document still has
    what was dropped. A list sorted by [startAt] stays sorted, a list with
    one reservation per program stays so, and a second [clean] at the same
    instant changes nothing. *)
Theorem clean_effect (env : Env) (s : State) :
  let s' := (clean env s).2 in
  (clean env s).1 = inr ()
  ∧ (∀ r, r ∈ reserves s' ↔
          r ∈ reserves s ∧ getTime env ≤ ProgramSchema.endAt (program r))
  ∧ reserves s' `sublist_of` reserves s
  ∧ isRunning s' = isRunning s ∧ tuners s' = tuners s ∧ written s' = written s
  ∧ (Sorted startAt_le (reserves s) → Sorted startAt_le (reserves s'))
  ∧ (uniquePrograms (reserves s) → uniquePrograms (reserves s'))
  ∧ (clean env s').2 = s'.
Proof.
  cbn. split_and!; try done.
  - intros r. rewrite !list_elem_of_In, List.filter_In.
    apply and_iff_compat_l. rewrite negb_true_iff, Z.ltb_ge. done.
  - apply filter_sublist.
  - apply sublist_Sorted_startAt, filter_sublist.
  - apply sublist_uniquePrograms, filter_sublist.
  - unfold set_reserves. cbn. f_equal.
    rewrite filter_filter. apply filter_ext_in. intros x _. by destruct (negb _).
Qed.

Lemma clean_effect_witness :
  Sorted startAt_le (reserves (clean Trace.late Trace.busy).2).
Proof.
  refine (proj1 (proj2 (proj2 (proj2 (proj2 (proj2 (proj2
            (clean_effect Trace.late Trace.busy))))))) _).
  repeat constructor.
Defined.

(** ** One reservation per program *)

(** ** One reservation per program *)

Lemma createReserves_unique ts matches : uniquePrograms (createReserves ts matches).2.
Proof. apply createReserves_result_facts. Qed.

Lemma updateAll_unique env s :
  findIdSound env → uniqueInv s → uniqueInv (updateAll env s).2.
Proof.
  intros Hsound [Hr Hw].
  destruct (isRunning s) eqn:Hrun.
  { unfold updateAll, mbind, M_bind, gets, throw. by rewrite Hrun. }
  destruct (rulesDB_findAll env) as [e|rules] eqn:Hrules.
  - rewrite (updateAll_failure env s e Hrun Hrules). split; [|done]. cbn.
    unfold uniquePrograms. by rewrite scanManual_reserves_ids.
  - rewrite (updateAll_success env s rules Hrun Hrules). cbn.
    split; [apply createReserves_unique|].
    constructor; [apply createReserves_unique|done].
Qed.

Lemma updateRule_unique env ruleId' s :
  uniqueInv s → uniqueInv (updateRule env ruleId' s).2.
Proof.
  intros [Hr Hw].
  destruct (isRunning s) eqn:Hrun.
  { unfold updateRule, mbind, M_bind, gets, throw. by rewrite Hrun. }
  rewrite (updateRule_unfold env s ruleId' Hrun).
  destruct (updateRuleInput env ruleId') as [e|[rule programs]]; [done|]. cbn.
  split; [apply createReserves_unique|].
  constructor; [apply createReserves_unique|done].
Qed.

Lemma cancelLoop_sublist id' rs rs' :
  cancelLoop id' rs = Some rs' → programId <$> rs' `sublist_of` programId <$> rs.
Proof.
  revert rs'. induction rs as [|r rs IH]; intros rs'; simpl; [done|].
  destruct (bool_decide (programId r = id')).
  - destruct (isManual r); intros [= <-]; [by apply sublist_cons|done].
  - destruct (cancelLoop id' rs) as [rest|]; [|done]. intros [= <-].
    rewrite fmap_cons. apply sublist_skip. by apply IH.
Qed.

Lemma removeSkipLoop_ids id' rs rs' rid :
  removeSkipLoop id' rs = Some (rs', rid) → programId <$> rs' = programId <$> rs.
Proof.
  revert rs'. induction rs as [|r rs IH]; intros rs'; simpl; [done|].
  destruct (bool_decide (programId r = id')).
  - by intros [= <- _].
  - destruct (removeSkipLoop id' rs) as [[rest rid']|]; [|done]. simpl.
    intros [= <- <-]. rewrite !fmap_cons. f_equal. by apply IH.
Qed.

Lemma cancel_unique env id' s :
  findIdSound env → uniqueInv s → uniqueInv (cancel env id' s).2.
Proof.
  intros Hsound [Hr Hw].
  destruct (isRunning s) eqn:Hrun.
  { unfold cancel, mbind, M_bind, gets, throw. by rewrite Hrun. }
  destruct (cancelLoop id' (reserves s)) as [rs'|] eqn:Hloop.
  - rewrite (cancel_unfold env s id' rs' Hrun Hloop). cbn [snd].
    assert (uniquePrograms rs') as Hrs'.
    { unfold uniquePrograms. pose proof (cancelLoop_sublist _ _ _ Hloop) as Hsub.
      eapply sublist_NoDup; first [exact Hr | exact Hsub]. }
    apply updateAll_unique; [done|]. split; [done|]. by constructor.
  - unfold cancel, mbind, M_bind, gets, modify. rewrite Hrun.
    cbn [fst snd reserves set_isRunning]. by rewrite Hloop.
Qed.

Lemma removeSkip_unique env id' s : uniqueInv s → uniqueInv (removeSkip env id' s).2.
Proof.
  intros [Hr Hw].
  destruct (isRunning s) eqn:Hrun.
  { unfold removeSkip, mbind, M_bind, gets, throw. by rewrite Hrun. }
  destruct (removeSkipLoop id' (reserves s)) as [[rs' rid]|] eqn:Hloop.
  - rewrite (removeSkip_unfold env s id' rs' rid Hrun Hloop). cbn [snd].
    assert (uniqueInv (mkState false rs' (tuners s) (written s))) as Hinv.
    { split; [|done]. unfold uniquePrograms. cbn.
      by rewrite (removeSkipLoop_ids _ _ _ _ Hloop). }
    destruct rid; [by apply updateRule_unique|done].
  - unfold removeSkip, mbind, M_bind, gets, modify, mret, M_ret. rewrite Hrun.
    cbn [fst snd reserves set_isRunning]. by rewrite Hloop.
Qed.

Lemma collectOverlap_free programId' new rs acc copies :
  collectOverlap programId' new rs acc = Some copies →
  Forall (λ r, programId r ≠ programId') rs.
Proof.
  revert acc. induction rs as [|r rs IH]; intros acc; simpl; [done|].
  destruct (decide (programId r = programId')) as [Heq|Hne].
  { by rewrite bool_decide_true. }
  rewrite bool_decide_false by done.
  destruct (_ && _); intros H; (constructor; [done|by eapply IH]).
Qed.

Lemma addReserve_unique env programId' encode s :
  findIdSound env → uniqueInv s → uniqueInv (addReserve env programId' encode s).2.
Proof.
  intros Hsound [Hr Hw].
  unfold addReserve, mbind, M_bind, gets, modify, awaitOr, throw, mret, M_ret.
  destruct (isRunning s) eqn:Hrun; [done|].
  destruct (match encode with Some e => _ | None => _ end); [done|].
  destruct (programDB_findId env programId') as [e|[|p ps]] eqn:Hfind; [done..|].
  cbn -[createReserves js_sort].
  destruct (collectOverlap _ _ _ _) as [copies|] eqn:Hcol; [|done].
  apply collectOverlap_free in Hcol.
  cbn -[createReserves js_sort].
  destruct (createReserves _ _) as [ts' newReserves].
  cbn -[js_sort]. destruct (existsb isConflict newReserves); cbn -[js_sort]; [done|].
  assert (uniquePrograms (js_sort byStartAt
            (reserves s ++ [mkReserve p None None encode false true
                                      (Some (getTime env)) false]))) as Hnew.
  { unfold uniquePrograms. rewrite js_sort_perm, fmap_app. apply NoDup_app.
    split_and!; [done| |apply NoDup_singleton].
    intros i Hi Hi'. simpl in Hi'. apply list_elem_of_singleton in Hi'.
    apply list_elem_of_fmap in Hi as (r & Hri & Hin).
    rewrite Forall_forall in Hcol. apply (Hcol r Hin).
    rewrite <- Hri, Hi'. unfold programId. simpl. by eapply Hsound. }
  split; [done|]. by constructor.
Qed.

Lemma clean_unique env s : uniqueInv s → uniqueInv (clean env s).2.
Proof.
  intros [Hr Hw]. split; [|done]. cbn.
  by eapply sublist_uniquePrograms; [apply filter_sublist|].
Qed.

Lemma call_unique env c s :
  findIdSound env → uniqueInv s → uniqueInv (call env c s).2.
Proof.
  intros Hsound. destruct c; simpl.
  - done.
  - by apply addReserve_unique.
  - by apply cancel_unique.
  - apply removeSkip_unique.
  - by apply updateAll_unique.
  - apply updateRule_unique.
  - apply clean_unique.
Qed.

(** X23. As long as the catalogue answers a lookup by id with a program
    of that id, the planner never holds two reservations for the same
    program, whatever is called, whether calls succeed or throw, and
    across restarts; the same holds of every document it writes. *)
Theorem one_reservation_per_program (s : State) :
  reachableSound s →
  NoDup (programId <$> reserves s)
  ∧ Forall (λ doc, NoDup (programId <$> doc)) (written s).
Proof.
  induction 1 as [|env c s Hsound _ IH|s _ [IHr IHw]].
  - split; [constructor|done].
  - by apply call_unique.
  - split; [|done]. simpl. destruct IHw; simpl; [constructor|done].
Qed.

Lemma one_reservation_per_program_witness :
  NoDup (programId <$> reserves (call Trace.early (CallAddReserve 1 None)
                                   (mkState false [] [] [])).2).
Proof.
  refine (proj1 (one_reservation_per_program _ _)).
  apply reachableSound_call; [exact findIdSound_early|apply reachableSound_start].
Defined.

(** ** The order of the list while the rule store answers *)

Lemma Sorted_startAt_fmap (l : list ReserveProgram) :
  Sorted startAt_le l ↔ Sorted Z.le (ProgramSchema.startAt ∘ program <$> l).
Proof.
  split.
  - induction 1 as [|x l Hl IH Hhd]; simpl; constructor; [done|].
    destruct Hhd; simpl; by constructor.
  - induction l as [|x l IH]; simpl; [constructor|].
    intros [Hl Hhd]%Sorted_inv. constructor; [by apply IH|].
    destruct l; simpl in *; constructor. by apply HdRel_inv in Hhd.
Qed.

Lemma sublist_Sorted_Z (l k : list Z) : l `sublist_of` k → Sorted Z.le k → Sorted Z.le l.
Proof.
  intros Hsub Hk. apply StronglySorted_Sorted.
  apply Sorted_StronglySorted in Hk; [|intros a b c; lia].
  induction Hsub as [|x l k Hsub IH|x l k Hsub IH].
  - constructor.
  - apply StronglySorted_inv in Hk as [Hk Hx]. constructor; [by apply IH|].
    eapply Forall_forall. intros y Hy. rewrite Forall_forall in Hx. apply Hx.
    by eapply sublist_submseteq, elem_of_submseteq in Hsub.
  - apply StronglySorted_inv in Hk as [Hk _]. by apply IH.
Qed.

Lemma cancelLoop_starts id' rs rs' :
  cancelLoop id' rs = Some rs' →
  (ProgramSchema.startAt ∘ program <$> rs')
    `sublist_of` (ProgramSchema.startAt ∘ program <$> rs).
Proof.
  revert rs'. induction rs as [|r rs IH]; intros rs'; simpl; [done|].
  destruct (bool_decide (programId r = id')).
  - destruct (isManual r); intros [= <-]; [by apply sublist_cons|done].
  - destruct (cancelLoop id' rs) as [rest|]; [|done]. intros [= <-].
    rewrite fmap_cons. apply sublist_skip. by apply IH.
Qed.

Lemma removeSkipLoop_starts id' rs rs' rid :
  removeSkipLoop id' rs = Some (rs', rid) →
  ProgramSchema.startAt ∘ program <$> rs' = ProgramSchema.startAt ∘ program <$> rs.
Proof.
  revert rs'. induction rs as [|r rs IH]; intros rs'; simpl; [done|].
  destruct (bool_decide (programId r = id')).
  - by intros [= <- _].
  - destruct (removeSkipLoop id' rs) as [[rest rid']|]; [|done]. simpl.
    intros [= <- <-]. rewrite !fmap_cons. f_equal. by apply IH.
Qed.

Lemma updateAll_sorted env s rules :
  rulesDB_findAll env = inr rules → sortedInv s → sortedInv (updateAll env s).2.
Proof.
  intros Hrules [Hr Hw].
  destruct (isRunning s) eqn:Hrun.
  { unfold updateAll, mbind, M_bind, gets, throw. by rewrite Hrun. }
  rewrite (updateAll_success env s rules Hrun Hrules). cbn.
  split; [apply createReserves_Sorted|].
  constructor; [apply createReserves_Sorted|done].
Qed.

Lemma updateRule_sorted env ruleId' s : sortedInv s → sortedInv (updateRule env ruleId' s).2.
Proof.
  intros [Hr Hw].
  destruct (isRunning s) eqn:Hrun.
  { unfold updateRule, mbind, M_bind, gets, throw. by rewrite Hrun. }
  rewrite (updateRule_unfold env s ruleId' Hrun).
  destruct (updateRuleInput env ruleId') as [e|[rule programs]]; [done|]. cbn.
  split; [apply createReserves_Sorted|].
  constructor; [apply createReserves_Sorted|done].
Qed.

Lemma cancel_sorted env id' s rules :
  rulesDB_findAll env = inr rules → sortedInv s → sortedInv (cancel env id' s).2.
Proof.
  intros Hrules [Hr Hw].
  destruct (isRunning s) eqn:Hrun.
  { unfold cancel, mbind, M_bind, gets, throw. by rewrite Hrun. }
  destruct (cancelLoop id' (reserves s)) as [rs'|] eqn:Hloop.
  - rewrite (cancel_unfold env s id' rs' Hrun Hloop). cbn [snd].
    assert (Sorted startAt_le rs') as Hrs'.
    { apply Sorted_startAt_fmap.
      eapply sublist_Sorted_Z; [exact (cancelLoop_starts _ _ _ Hloop)|].
      by apply Sorted_startAt_fmap. }
    apply (updateAll_sorted env _ rules Hrules). split; [done|]. by constructor.
  - unfold cancel, mbind, M_bind, gets, modify. rewrite Hrun.
    cbn [fst snd reserves set_isRunning]. by rewrite Hloop.
Qed.

Lemma removeSkip_sorted env id' s : sortedInv s → sortedInv (removeSkip env id' s).2.
Proof.
  intros [Hr Hw].
  destruct (isRunning s) eqn:Hrun.
  { unfold removeSkip, mbind, M_bind, gets, throw. by rewrite Hrun. }
  destruct (removeSkipLoop id' (reserves s)) as [[rs' rid]|] eqn:Hloop.
  - rewrite (removeSkip_unfold env s id' rs' rid Hrun Hloop). cbn [snd].
    assert (sortedInv (mkState false rs' (tuners s) (written s))) as Hinv.
    { split; [|done]. cbn. apply Sorted_startAt_fmap.
      rewrite (removeSkipLoop_starts _ _ _ _ Hloop). by apply Sorted_startAt_fmap. }
    destruct rid; [by apply updateRule_sorted|done].
  - unfold removeSkip, mbind, M_bind, gets, modify, mret, M_ret. rewrite Hrun.
    cbn [fst snd reserves set_isRunning]. by rewrite Hloop.
Qed.

Lemma addReserve_sorted env programId' encode s :
  sortedInv s → sortedInv (addReserve env programId' encode s).2.
Proof.
  intros [Hr Hw].
  unfold addReserve, mbind, M_bind, gets, modify, awaitOr, throw, mret, M_ret.
  destruct (isRunning s) eqn:Hrun; [done|].
  destruct (match encode with Some e => _ | None => _ end); [done|].
  destruct (programDB_findId env programId') as [e|[|p ps]] eqn:Hfind; [done..|].
  cbn -[createReserves js_sort].
  destruct (collectOverlap _ _ _ _) as [copies|] eqn:Hcol; [|done].
  cbn -[createReserves js_sort].
  destruct (createReserves _ _) as [ts' newReserves].
  cbn -[js_sort]. destruct (existsb isConflict newReserves); cbn -[js_sort]; [done|].
  split; [apply js_sort_byStartAt_Sorted|].
  constructor; [apply js_sort_byStartAt_Sorted|done].
Qed.

Lemma clean_sorted env s : sortedInv s → sortedInv (clean env s).2.
Proof.
  intros [Hr Hw]. split; [|done]. cbn.
  by eapply sublist_Sorted_startAt; [apply filter_sublist|].
Qed.

(** X24. Let the calls be made one after the other, each once the call
    before it, and the re-plan that [cancel] or [removeSkip] may have
    started, has run to its end. As long as the rule store answers every
    [findAll], the list is sorted by [startAt] after every such call,
    whether the call succeeds or throws, and across restarts; so is every
    document written. Nothing is said of the moments at which a re-plan is
    still running: [updateAll] replaces the programs of the manual
    reservations in place before it commits the sorted list, and until then
    the list need not be in order. *)
Theorem sorted_while_rule_store_answers (s : State) :
  reachableSteady s →
  Sorted startAt_le (reserves s) ∧ Forall (Sorted startAt_le) (written s).
Proof.
  induction 1 as [|env c s rules Hrules _ IH|s _ [IHr IHw]].
  - split; [constructor|done].
  - destruct c; simpl.
    + done.
    + by apply addReserve_sorted.
    + by apply (cancel_sorted env _ s rules).
    + by apply removeSkip_sorted.
    + by apply (updateAll_sorted env s rules).
    + by apply updateRule_sorted.
    + by apply clean_sorted.
  - split; [|done]. simpl. destruct IHw; simpl; [constructor|done].
Qed.

Lemma sorted_while_rule_store_answers_witness :
  Sorted startAt_le (reserves (call Trace.early (CallAddReserve 1 None)
                                 (mkState false [] [] [])).2).
Proof.
  refine (proj1 (sorted_while_rule_store_answers _ _)).
  apply (reachableSteady_call Trace.early _ _ []); [reflexivity|].
  apply reachableSteady_start.
Defined.

(** ** What earlier runs leave in the tuners *)

Lemma sweepStep_cleared s1 s2 l :
  sw_matches s1 = sw_matches s2 → sw_reserves s1 = sw_reserves s2 →
  Tuner.clear <$> sw_tuners s1 = Tuner.clear <$> sw_tuners s2 →
  sw_matches (sweepStep s1 l) = sw_matches (sweepStep s2 l)
  ∧ sw_reserves (sweepStep s1 l) = sw_reserves (sweepStep s2 l)
  ∧ Tuner.clear <$> sw_tuners (sweepStep s1 l) = Tuner.clear <$> sw_tuners (sweepStep s2 l).
Proof.
  intros Hm Hr Ht. unfold sweepStep. rewrite Hm, Hr, Ht.
  destruct (sw_matches s2 !! idx l) as [m|]; [|done].
  destruct (isSkip m); [done|].
  by destruct (evaluate _ _ _).
Qed.

(** X25. What an earlier run has left in the tuners does not matter to
    the resolver: two tuner arrays that are the same once cleared give the
    same list. *)
Theorem createReserves_ignores_leftovers (ts1 ts2 : list Tuner.t)
    (matches : list ReserveProgram) :
  Tuner.clear <$> ts1 = Tuner.clear <$> ts2 →
  (createReserves ts1 matches).2 = (createReserves ts2 matches).2.
Proof.
  intros Hts. unfold createReserves. cbn [snd].
  set (sorted := js_sort sortReserveProgram matches).
  assert (sw_matches (sweep ts1 sorted (sortedEvents sorted))
          = sw_matches (sweep ts2 sorted (sortedEvents sorted))) as ->; [|done].
  unfold sweep.
  assert (∀ events s1 s2,
            sw_matches s1 = sw_matches s2 → sw_reserves s1 = sw_reserves s2 →
            Tuner.clear <$> sw_tuners s1 = Tuner.clear <$> sw_tuners s2 →
            sw_matches (fold_left sweepStep events s1)
            = sw_matches (fold_left sweepStep events s2)) as Hfold.
  { induction events as [|l events IH]; intros s1 s2 Hm Hr Ht; [done|].
    simpl. destruct (sweepStep_cleared s1 s2 l Hm Hr Ht) as (? & ? & ?).
    by apply IH. }
  by apply Hfold.
Qed.

Lemma createReserves_ignores_leftovers_witness :
  (createReserves [Tuner.mk 0 [GR] [Scenario.prog 9 0 1000]] [Scenario.P1]).2
  = (createReserves [Scenario.T0] [Scenario.P1]).2.
Proof.
  exact (createReserves_ignores_leftovers
           [Tuner.mk 0 [GR] [Scenario.prog 9 0 1000]] [Scenario.T0] [Scenario.P1] eq_refl).
Defined.

(** ** The candidate that comes first in authority order *)

Lemma js_sort_least {A} (cmp : A → A → Z) (x : A) (l1 l2 : list A) :
  (∀ y, y ∈ l1 ++ l2 → cmp x y ≤ 0 ∧ 0 < cmp y x) →
  js_sort cmp (l1 ++ x :: l2) = x :: js_sort cmp (l1 ++ l2).
Proof.
  intros Hleast.
  assert (∀ l, (∀ y, y ∈ l → cmp x y ≤ 0) → js_insert cmp x l = x :: l) as Hfront.
  { intros l Hl. destruct l as [|z l]; [done|]. simpl.
    destruct (Z.leb_spec (cmp x z) 0); [done|].
    assert (cmp x z ≤ 0) by (apply Hl; left). lia. }
  induction l1 as [|y l1 IH].
  - change (js_insert cmp x (js_sort cmp l2) = x :: js_sort cmp l2).
    apply Hfront. intros y Hy. rewrite js_sort_elem_of in Hy.
    by destruct (Hleast y Hy).
  - change (js_insert cmp y (js_sort cmp (l1 ++ x :: l2))
            = x :: js_insert cmp y (js_sort cmp (l1 ++ l2))).
    rewrite IH.
    + simpl. destruct (Hleast y) as [_ Hy]; [left|].
      destruct (Z.leb_spec (cmp y x) 0); [lia|done].
    + intros z Hz. apply Hleast. by right.
Qed.

Lemma sortReserveProgram_erase a a' b b' :
  eraseConflict a = eraseConflict a' → eraseConflict b = eraseConflict b' →
  sortReserveProgram a b = sortReserveProgram a' b'.
Proof.
  unfold eraseConflict, set_isConflict, sortReserveProgram.
  intros [= _ Hr _ _ _ Hm Hi] [= _ Hr' _ _ _ Hm' Hi']. by rewrite Hr, Hm, Hi, Hr', Hm', Hi'.
Qed.

Lemma sortReserveProgram_skew a b : sortReserveProgram b a = - sortReserveProgram a b.
Proof.
  unfold sortReserveProgram, js_sub.
  destruct (isManual a), (isManual b); simpl; try done.
  - destruct (manualId a), (manualId b); lia.
  - destruct (ruleId a), (ruleId b); lia.
Qed.

(** *** The tuners between events *)

Lemma addToTuners_clear ts p ts' :
  addToTuners ts p = Some ts' → Tuner.clear <$> ts' = Tuner.clear <$> ts.
Proof.
  revert ts'. induction ts as [|tn ts IH]; intros ts'; simpl; [done|].
  unfold Tuner.add at 1. destruct (Tuner.accepts tn p).
  - by intros [= <-].
  - destruct (addToTuners ts p) as [rest|]; [|done]. simpl.
    intros [= <-]. rewrite fmap_cons. f_equal. by apply IH.
Qed.

Lemma evaluate_clear ts matches reserves :
  Tuner.clear <$> (evaluate ts matches reserves).1 = Tuner.clear <$> ts.
Proof.
  revert ts matches. induction reserves as [|r rest IH]; intros ts matches; [done|].
  rewrite evaluate_cons. destruct (matches !! r.2) as [m|]; [|apply IH].
  destruct (isSkip m); [apply IH|].
  destruct (addToTuners ts (program m)) as [ts'|] eqn:Hadd; [|apply IH].
  rewrite IH. exact (addToTuners_clear _ _ _ Hadd).
Qed.

Lemma clear_clear (ts : list Tuner.t) :
  Tuner.clear <$> (Tuner.clear <$> ts) = Tuner.clear <$> ts.
Proof. rewrite <- list_fmap_compose. by apply list_fmap_ext. Qed.

(** *** One event, in a sweep that keeps one entry per index *)

Lemma startIdx_cons l events :
  startIdx (l :: events)
  = if isStart l then idx l :: startIdx events else startIdx events.
Proof. unfold startIdx. simpl. by destruct (isStart l). Qed.

Lemma sweepStep_inv ts sorted s l :
  sweepInv ts sorted s →
  (isStart l = true → idx l ∉ (sw_reserves s).*2) →
  sweepInv ts sorted (sweepStep s l)
  ∧ ∀ i, i ∈ (sw_reserves (sweepStep s l)).*2 →
         i ∈ (sw_reserves s).*2 ∨ (isStart l = true ∧ i = idx l).
Proof.
  intros (Hall & Hnd & Hent & Hts) Hfresh.
  destruct (sw_matches s !! idx l) as [m|] eqn:Hm.
  2:{ rewrite sweepStep_idle; [|intros m; congruence]. split; [done|]. by left. }
  destruct (isSkip m) eqn:Hskip.
  { rewrite sweepStep_idle; [|intros m'; congruence]. split; [done|]. by left. }
  rewrite (sweepStep_active s l m Hm Hskip). cbv zeta. unfold sweepInv.
  cbn [sw_matches sw_reserves sw_tuners].
  assert (∃ y, sorted !! idx l = Some y ∧ eraseConflict m = eraseConflict y)
    as (y & Hy & Hmy).
  { destruct (Forall2_lookup_r _ _ _ _ _ Hall Hm) as (y & Hy & Hym).
    exists y. split; [done|]. by destruct Hym as (<- & _). }
  assert (∀ e, e ∈ nextActive (sw_reserves s) m l →
               (e ∈ sw_reserves s ∨ (isStart l = true ∧ e = (m, idx l)))) as Hmem.
  { intros e. rewrite nextActive_perm. destruct (isStart l).
    - intros [He| ->%list_elem_of_singleton]%elem_of_app; [by left|by right].
    - intros [_ He]%list_elem_of_filter. by left. }
  split; [split_and!|].
  - eapply Forall2_emittedAs_trans; [exact Hall|]. apply evaluate_emittedAs.
  - rewrite nextActive_perm. destruct (isStart l).
    + rewrite fmap_app. apply NoDup_app. split_and!; [done| |apply NoDup_singleton].
      intros i Hi ->%list_elem_of_singleton. by apply Hfresh.
    + assert ((filter (λ r, r.2 ≠ idx l) (sw_reserves s)).*2
              `sublist_of` (sw_reserves s).*2) as Hsub
        by apply fmap_sublist, sublist_filter.
      by eapply sublist_NoDup.
  - intros e [He|[_ ->]]%Hmem; [by apply Hent|]. by exists y.
  - by rewrite evaluate_clear, clear_clear.
  - intros i (e & -> & [He|[Hs ->]]%Hmem)%list_elem_of_fmap.
    + left. by apply list_elem_of_fmap_2.
    + by right.
Qed.

Section first_candidate.
Context (ts : list Tuner.t) (x : ReserveProgram) (rest : list ReserveProgram).
Context (Hleast : ∀ y, y ∈ rest → sortReserveProgram x y < 0).
Context (Hskip : isSkip x = false).

(** When the first candidate is active it is at the head of the active
    set. *)
Lemma active_head (active : list (ReserveProgram * nat)) :
  Sorted (λ a b, authority a.1 b.1) active →
  (∀ e, e ∈ active →
        ∃ y, (x :: rest) !! e.2 = Some y ∧ eraseConflict e.1 = eraseConflict y) →
  (∃ e, e ∈ active ∧ e.2 = 0%nat) →
  ∃ e tl, active = e :: tl ∧ e.2 = 0%nat.
Proof.
  induction 1 as [|a tl Htl IH Hhd]; intros Hent (e & He & He0).
  { by apply elem_of_nil in He. }
  destruct (decide (a.2 = 0%nat)) as [Ha|Ha]; [by exists a, tl|].
  exfalso. apply elem_of_cons in He as [->|He]; [done|].
  destruct IH as (b & tl' & -> & Hb).
  { intros e' He'. apply Hent. by right. }
  { by exists e. }
  apply HdRel_inv in Hhd. apply sortReserveProgram_authority in Hhd.
  destruct (Hent a) as (ya & Hya & Hea); [left|].
  destruct (Hent b) as (yb & Hyb & Heb); [right; left|].
  rewrite Hb in Hyb. simpl in Hyb. injection Hyb as <-.
  destruct (a.2) as [|i] eqn:Hi; [done|]. simpl in Hya.
  assert (sortReserveProgram x ya < 0) as Hlt.
  { apply Hleast. by eapply list_elem_of_lookup_2. }
  rewrite (sortReserveProgram_erase a.1 ya b.1 x Hea Heb) in Hhd.
  rewrite sortReserveProgram_skew in Hhd. lia.
Qed.

Lemma step_first l s m0 :
  sweepInv ts (x :: rest) s →
  (isStart l = true → idx l ∉ (sw_reserves s).*2) →
  sw_matches s !! 0%nat = Some m0 →
  ∃ m0', sw_matches (sweepStep s l) !! 0%nat = Some m0'
    ∧ (isConflict m0' = true →
       isConflict m0 = true ∨ addToTuners (Tuner.clear <$> ts) (program x) = None)
    ∧ (isConflict m0 = true → isConflict m0' = true)
    ∧ (isStart l = true → idx l = 0%nat →
       addToTuners (Tuner.clear <$> ts) (program x) = None → isConflict m0' = true).
Proof.
  intros Hinv Hfresh Hm0.
  destruct (sweepStep_inv ts (x :: rest) s l Hinv Hfresh) as [(_ & Hnd' & Hent' & _) _].
  destruct Hinv as (Hall & Hnd & Hent & Hts).
  assert (emittedAs x m0) as Hxm0.
  { destruct (Forall2_lookup_r _ _ _ _ _ Hall Hm0) as (y & Hy & Hym).
    by injection Hy as <-. }
  destruct (emittedAs_fields _ _ Hxm0) as (Hp & _ & _ & _ & Hs & _).
  destruct (sw_matches s !! idx l) as [m|] eqn:Hm.
  2:{ rewrite sweepStep_idle; [|intros m; congruence]. exists m0.
      split_and!; [done|by left|done|]. intros _ Hidx. rewrite Hidx in Hm. congruence. }
  destruct (isSkip m) eqn:Hmskip.
  { rewrite sweepStep_idle; [|intros m'; congruence]. exists m0.
    split_and!; [done|by left|done|]. intros _ Hidx. rewrite Hidx in Hm. congruence. }
  rewrite (sweepStep_active s l m Hm Hmskip) in Hnd', Hent' |- *.
  cbn [sw_matches sw_reserves] in *.
  set (active := nextActive (sw_reserves s) m l) in *.
  destruct (evaluate_flags (Tuner.clear <$> sw_tuners s) (sw_matches s) active 0 m0 Hm0)
    as (b & Hb & Hiff).
  assert ((∃ e, e ∈ active ∧ e.2 = 0%nat) →
          rejected (Tuner.clear <$> sw_tuners s) (sw_matches s) active 0 m0
          ↔ addToTuners (Tuner.clear <$> ts) (program x) = None) as Hrej.
  { intros Hex.
    destruct (active_head active (nextActive_Sorted _ _ _) Hent' Hex) as (e & tl & Heq & He0).
    split.
    - intros (k & r & Hk & Hr & _ & Hno).
      assert (k = 0%nat) as ->.
      { eapply (NoDup_lookup _ _ _ 0%nat Hnd').
        - rewrite list_lookup_fmap, Hk. simpl. by rewrite Hr.
        - rewrite Heq. simpl. by rewrite He0. }
      simpl in Hno. by rewrite Hts, Hp in Hno.
    - intros Hno. exists 0%nat, e. rewrite Heq. split_and!; [done|done|congruence|].
      simpl. by rewrite Hts, Hp. }
  exists (set_isConflict b m0). split_and!; [done| | |].
  - simpl. intros ->. destruct (proj1 Hiff eq_refl) as [?|Hr]; [by left|right].
    apply Hrej; [|done]. destruct Hr as (k & r & Hk & Hr0 & _).
    exists r. split; [by eapply list_elem_of_lookup_2|done].
  - simpl. intros Hc. apply Hiff. by left.
  - simpl. intros Hstart Hidx Hno. apply Hiff. right. apply Hrej; [|done].
    exists (m, idx l). split; [|done].
    unfold active. rewrite nextActive_perm, Hstart. apply elem_of_app. right. left.
Qed.

Lemma fold_first events :
  ∀ s m0,
    sweepInv ts (x :: rest) s →
    NoDup (startIdx events) →
    (∀ i, i ∈ startIdx events → i ∉ (sw_reserves s).*2) →
    sw_matches s !! 0%nat = Some m0 →
    ∃ m0', sw_matches (fold_left sweepStep events s) !! 0%nat = Some m0'
      ∧ (isConflict m0' = true →
         isConflict m0 = true ∨ addToTuners (Tuner.clear <$> ts) (program x) = None)
      ∧ (isConflict m0 = true → isConflict m0' = true)
      ∧ (0%nat ∈ startIdx events →
         addToTuners (Tuner.clear <$> ts) (program x) = None → isConflict m0' = true).
Proof.
  induction events as [|l events IH]; intros s m0 Hinv Hnd Hfresh Hm0.
  { exists m0. split_and!; [done|by left|done|]. by intros ?%elem_of_nil. }
  rewrite startIdx_cons in Hnd, Hfresh.
  assert (isStart l = true → idx l ∉ (sw_reserves s).*2) as Hfresh0.
  { intros Hs. apply Hfresh. rewrite Hs. left. }
  destruct (step_first l s m0 Hinv Hfresh0 Hm0) as (m1 & Hm1 & H1a & H1b & H1c).
  destruct (sweepStep_inv ts (x :: rest) s l Hinv Hfresh0) as [Hinv1 Hidx1].
  destruct (IH (sweepStep s l) m1) as (m' & Hm' & H2a & H2b & H2c); try done.
  { destruct (isStart l); [by apply NoDup_cons in Hnd as [_ ?]|done]. }
  { intros i Hi [Hold|[Hs ->]]%Hidx1.
    - apply (Hfresh i); [|done]. destruct (isStart l); [by right|done].
    - rewrite Hs in Hnd. by apply NoDup_cons in Hnd as [? _]. }
  cbn [fold_left]. exists m'. split_and!; [done| | |].
  - intros Hc. destruct (H2a Hc) as [Hc1|?]; [|by right]. by apply H1a.
  - auto.
  - rewrite startIdx_cons. intros Hin Hno.
    destruct (isStart l) eqn:Hs; [|by apply H2c].
    apply elem_of_cons in Hin as [Hidx|Hin]; [|by apply H2c].
    apply H2b, H1c; done.
Qed.

End first_candidate.

(** *** The events of a list whose head is the first candidate *)

Lemma startIdx_buildList l i seen :
  NoDup (startIdx (buildList l i seen))
  ∧ ∀ j, j ∈ startIdx (buildList l i seen) → (i ≤ j)%nat.
Proof.
  revert i seen. induction l as [|r rest IH]; intros i seen; simpl.
  { split; [apply NoDup_nil_2|]. by intros j ?%elem_of_nil. }
  destruct (seen !! programId r).
  - destruct (IH (S i) seen) as [Hnd Hge]. split; [done|].
    intros j Hj%Hge. lia.
  - destruct (IH (S i) (<[programId r := true]> seen)) as [Hnd Hge].
    rewrite !startIdx_cons. cbn [isStart idx]. split.
    + apply NoDup_cons. split; [|done]. intros Hi%Hge. lia.
    + intros j [->|Hj%Hge]%elem_of_cons; lia.
Qed.

Lemma startIdx_perm events events' :
  events ≡ₚ events' → startIdx events ≡ₚ startIdx events'.
Proof. intros Hp. unfold startIdx. by rewrite Hp. Qed.

Lemma addToTuners_None ts p :
  addToTuners ts p = None ↔ Forall (λ tn, Tuner.accepts tn p = false) ts.
Proof.
  induction ts as [|tn ts IH]; simpl; [done|].
  unfold Tuner.add at 1. destruct (Tuner.accepts tn p) eqn:Hacc.
  - split; [done|]. intros Hall. apply Forall_cons in Hall as [Hno _]. congruence.
  - rewrite Forall_cons, <- IH. destruct (addToTuners ts p); simpl; split; try done.
    by intros [_ ?].
Qed.

(** A tuner that holds nothing takes a program iff it receives the channel
    type of the program. *)
Lemma addToTuners_clear_None ts p :
  addToTuners (Tuner.clear <$> ts) p = None
  ↔ Forall (λ tn, ProgramSchema.channelType p ∉ Tuner.types tn) ts.
Proof.
  rewrite addToTuners_None, Forall_fmap. apply Forall_iff. intros tn.
  unfold compose, Tuner.accepts, Tuner.clear. cbn.
  rewrite andb_true_r. apply bool_decide_eq_false.
Qed.

Lemma NoDup_fmap_eq {A B} (f : A → B) (l : list A) (a b : A) :
  NoDup (f <$> l) → a ∈ l → b ∈ l → f a = f b → a = b.
Proof.
  intros Hnd (i & Hi)%list_elem_of_lookup (j & Hj)%list_elem_of_lookup Hab.
  assert (i = j) as ->.
  { apply (NoDup_lookup (f <$> l) i j (f a) Hnd).
    - by rewrite list_lookup_fmap, Hi.
    - by rewrite list_lookup_fmap, Hj, Hab. }
  congruence.
Qed.

(** X26. A candidate that comes strictly before every other candidate in
    the order of [sortReserveProgram], and is not skipped, is never
    displaced: the resolver returns exactly one reservation for its
    program, the candidate itself up to [isConflict], and that reservation
    is in conflict iff the candidate came in marked or no tuner receives
    the channel type of its program (a tuner as section 4.A describes
    it). What the other candidates are, and what the tuners held, does not
    matter. *)
Theorem first_candidate_conflict (ts : list Tuner.t) (l1 l2 : list ReserveProgram)
    (x : ReserveProgram) :
  (∀ y, y ∈ l1 ++ l2 → sortReserveProgram x y < 0) →
  isSkip x = false →
  ∃ r, r ∈ (createReserves ts (l1 ++ x :: l2)).2
       ∧ eraseConflict r = eraseConflict x
       ∧ (∀ r', r' ∈ (createReserves ts (l1 ++ x :: l2)).2 →
                programId r' = programId x → r' = r)
       ∧ (isConflict r = true
          ↔ isConflict x = true
            ∨ Forall (λ tn, ProgramSchema.channelType (program x) ∉ Tuner.types tn) ts).
Proof.
  intros Hleast Hskip.
  assert (js_sort sortReserveProgram (l1 ++ x :: l2)
          = x :: js_sort sortReserveProgram (l1 ++ l2)) as Hsort.
  { apply js_sort_least. intros y Hy. specialize (Hleast y Hy).
    rewrite (sortReserveProgram_skew x y). lia. }
  set (rest := js_sort sortReserveProgram (l1 ++ l2)) in *.
  assert (∀ y, y ∈ rest → sortReserveProgram x y < 0) as Hrest.
  { intros y Hy. apply Hleast. unfold rest in Hy. by rewrite js_sort_elem_of in Hy. }
  set (events := sortedEvents (x :: rest)).
  assert (buildList (x :: rest) 0 ∅
          = mkEvent (ProgramSchema.startAt (program x)) true 0
            :: mkEvent (ProgramSchema.endAt (program x)) false 0
            :: buildList rest 1 (<[programId x := true]> ∅)) as Hbuild.
  { cbn [buildList]. by rewrite lookup_empty. }
  assert (events ≡ₚ buildList (x :: rest) 0 ∅) as Hperm by apply js_sort_perm.
  destruct (fold_first ts x rest Hrest Hskip events (mkSweep ts (x :: rest) []) x)
    as (r & Hr & Hfrom & _ & Hto).
  { split_and!; [apply Forall2_emittedAs_refl|apply NoDup_nil_2| |done].
    by intros e ?%elem_of_nil. }
  { rewrite (startIdx_perm _ _ Hperm). apply startIdx_buildList. }
  { by intros i _ ?%elem_of_nil. }
  { done. }
  fold (sweep ts (x :: rest) events) in Hr.
  assert (emittedAs x r) as Hxr.
  { pose proof (fold_sweepStep_emittedAs events (mkSweep ts (x :: rest) [])) as Hall.
    fold (sweep ts (x :: rest) events) in Hall. cbn [sw_matches] in Hall.
    destruct (Forall2_lookup_r _ _ _ _ _ Hall Hr) as (y & [= <-] & Hyr). done. }
  assert (r ∈ (createReserves ts (l1 ++ x :: l2)).2) as Hin.
  { rewrite createReserves_emitted. cbv zeta. rewrite Hsort. fold events.
    rewrite Hbuild. unfold emitted. cbn [omap list_omap isStart idx]. rewrite Hr. left. }
  exists r. split_and!; [done|by destruct Hxr as (-> & _)| |].
  - intros r' Hr' Hid.
    apply (NoDup_fmap_eq programId (createReserves ts (l1 ++ x :: l2)).2);
      [apply createReserves_unique|done|done|].
    rewrite Hid. unfold programId. by destruct (emittedAs_fields _ _ Hxr) as (-> & _).
  - rewrite <- addToTuners_clear_None. split; [exact Hfrom|].
    intros [Hc|Hno].
    + destruct Hxr as (_ & Hkeep & _). by apply Hkeep.
    + apply Hto; [|done]. rewrite (startIdx_perm _ _ Hperm), Hbuild, startIdx_cons.
      cbn [isStart idx]. left.
Qed.

Lemma first_candidate_conflict_witness :
  ∃ r, r ∈ (createReserves [Scenario.T0] ([Scenario.P1] ++ Scenario.P2 :: [])).2
       ∧ eraseConflict r = eraseConflict Scenario.P2
       ∧ (∀ r', r' ∈ (createReserves [Scenario.T0] ([Scenario.P1] ++ Scenario.P2 :: [])).2 →
                programId r' = programId Scenario.P2 → r' = r)
       ∧ (isConflict r = true
          ↔ isConflict Scenario.P2 = true
            ∨ Forall (λ tn, ProgramSchema.channelType (program Scenario.P2) ∉ Tuner.types tn)
                     [Scenario.T0]).
Proof.
  refine (first_candidate_conflict [Scenario.T0] [Scenario.P1] [] Scenario.P2 _ eq_refl).
  intros y Hy. apply list_elem_of_singleton in Hy. by rewrite Hy.
Defined.

(** ** C5: the authority order in the resolver *)

Lemma startIdx_app a b : startIdx (a ++ b) = startIdx a ++ startIdx b.
Proof. unfold startIdx. apply omap_app. Qed.

(** The sweep keeps one entry per index in the active set when no index
    starts twice. *)
Lemma fold_sweepInv ts sorted events :
  ∀ s, sweepInv ts sorted s →
       NoDup (startIdx events) →
       (∀ i, i ∈ startIdx events → i ∉ (sw_reserves s).*2) →
       sweepInv ts sorted (fold_left sweepStep events s)
       ∧ ∀ i, i ∈ (sw_reserves (fold_left sweepStep events s)).*2 →
              i ∈ (sw_reserves s).*2 ∨ i ∈ startIdx events.
Proof.
  induction events as [|l events IH]; intros s Hinv Hnd Hfresh.
  { split; [done|]. intros i Hi. by left. }
  rewrite startIdx_cons in Hnd, Hfresh.
  assert (isStart l = true → idx l ∉ (sw_reserves s).*2) as Hfresh0.
  { intros Hs. apply Hfresh. rewrite Hs. left. }
  destruct (sweepStep_inv ts sorted s l Hinv Hfresh0) as [Hinv1 Hidx1].
  destruct (IH (sweepStep s l)) as [Hinv' Hidx']; try done.
  { destruct (isStart l); [by apply NoDup_cons in Hnd as [_ ?]|done]. }
  { intros i Hi [Hold|[Hs ->]]%Hidx1.
    - apply (Hfresh i); [|done]. destruct (isStart l); [by right|done].
    - rewrite Hs in Hnd. by apply NoDup_cons in Hnd as [? _]. }
  cbn [fold_left]. split; [done|]. intros i Hi. rewrite startIdx_cons.
  destruct (Hidx' i Hi) as [[Hold|[Hs ->]]%Hidx1|Hlater].
  - by left.
  - right. rewrite Hs. left.
  - right. destruct (isStart l); [by right|done].
Qed.

(** A skipped candidate never enters the active set. *)
Lemma sweep_active_unskipped tuners matches events :
  Forall (λ e, isSkip e.1 = false) (sw_reserves (sweep tuners matches events)).
Proof.
  unfold sweep.
  apply (sweep_invariant (λ s, Forall (λ e, isSkip e.1 = false) (sw_reserves s)));
    [|constructor].
  intros s l Hs. destruct (sweepStep_matches s l) as [->|(m & _ & Hskip & -> & _)]; [done|].
  rewrite nextActive_perm. destruct (isStart l).
  - apply Forall_app. split; [done|]. by apply Forall_singleton.
  - rewrite Forall_forall in Hs |- *. intros e [_ He]%list_elem_of_filter. by apply Hs.
Qed.

(** The head of the active set is offered the tuners as they are at the
    start of the allocation. *)
Lemma rejected_head tuners matches e tl m0 :
  NoDup (e :: tl).*2 → isSkip m0 = false →
  rejected tuners matches (e :: tl) e.2 m0 ↔ addToTuners tuners (program m0) = None.
Proof.
  intros Hnd Hskip. split.
  - intros (k & r & Hk & Hr & _ & Hno).
    assert (k = 0%nat) as ->.
    { apply (NoDup_lookup _ k 0%nat e.2 Hnd).
      - by rewrite list_lookup_fmap, Hk, <- Hr.
      - done. }
    done.
  - intros Hno. by exists 0%nat, e.
Qed.

(** C5. [createReserves] puts the candidates in the authority order, a
    manual reservation before a rule reservation, manual ones by [manualId]
    and rule ones by [ruleId]; the order holds between neighbours in any
    case, and between any two reservations when each has the id of its
    origin. It emits, of that list, the first occurrence of each program
    id and nothing else, with the flags that the sweep has given.

    The same order is the priority for the tuners. At every point of the
    sweep the active set is in that order. At every event of a candidate
    that is not skipped, the active set is the old one with the candidate
    pushed or filtered out; the allocation starts from the tuners holding
    nothing and goes through the active set from its head, so that a
    candidate is marked when it was marked already or no tuner takes it
    once the active candidates before it have been placed; and the
    candidate at the head, the first in the order among the active ones,
    is marked only when it was marked already or no tuner receives its
    channel type (a tuner as section 4.A describes it). An event of a
    skipped candidate changes nothing: a skipped candidate takes no
    tuner. *)
Theorem createReserves_authority (ts : list Tuner.t) (matches : list ReserveProgram) :
  let sorted := js_sort sortReserveProgram matches in
  let events := sortedEvents sorted in
  sorted ≡ₚ matches
  ∧ Sorted authority sorted
  ∧ (Forall hasOriginId matches → StronglySorted authority sorted)
  ∧ (createReserves ts matches).2
    ≡ₚ emitted (sw_matches (sweep ts sorted events)) (buildList sorted 0 ∅)
  ∧ eraseConflict <$> (createReserves ts matches).2 ≡ₚ eraseConflict <$> keepFirst sorted
  ∧ (∀ n, let active := sw_reserves (sweep ts sorted (take n events)) in
          Sorted authority active.*1
          ∧ (Forall hasOriginId matches → StronglySorted authority active.*1))
  ∧ (∀ n l m,
       let s := sweep ts sorted (take n events) in
       let s' := sweep ts sorted (take (S n) events) in
       let cleared := Tuner.clear <$> ts in
       events !! n = Some l → sw_matches s !! idx l = Some m → isSkip m = false →
       sw_reserves s' ≡ₚ (if isStart l then sw_reserves s ++ [(m, idx l)]
                          else filter (λ r, r.2 ≠ idx l) (sw_reserves s))
       ∧ sw_tuners s' = (evaluate cleared (sw_matches s) (sw_reserves s')).1
       ∧ (∀ i m0, sw_matches s !! i = Some m0 →
            ∃ b, sw_matches s' !! i = Some (set_isConflict b m0)
                 ∧ (b = true ↔ isConflict m0 = true
                               ∨ rejected cleared (sw_matches s) (sw_reserves s') i m0))
       ∧ (∀ e tl, sw_reserves s' = e :: tl →
            ∃ m0 b, sw_matches s !! e.2 = Some m0
                    ∧ sw_matches s' !! e.2 = Some (set_isConflict b m0)
                    ∧ (b = true
                       ↔ isConflict m0 = true
                         ∨ Forall (λ tn, ProgramSchema.channelType (program m0)
                                         ∉ Tuner.types tn) ts)))
  ∧ (∀ n l m,
       events !! n = Some l →
       sw_matches (sweep ts sorted (take n events)) !! idx l = Some m →
       isSkip m = true →
       sweep ts sorted (take (S n) events) = sweep ts sorted (take n events)).
Proof.
  intros sorted events.
  assert (Sorted authority sorted) as Hsorted.
  { eapply Sorted_weaken; [|apply js_sort_Sorted, sortReserveProgram_total].
    intros a b. apply sortReserveProgram_authority. }
  split_and!.
  - apply js_sort_perm.
  - done.
  - intros Hwf. apply Sorted_authority_strong; [|done].
    by apply js_sort_Forall.
  - apply createReserves_emitted.
  - apply createReserves_keepFirst.
  - intros n active.
    assert (Sorted authority active.*1) as Hact
      by apply Sorted_fmap_fst, sweep_active_Sorted.
    split; [done|]. intros Hwf. apply Sorted_authority_strong; [|done].
    apply sweep_active_hasOriginId. by apply js_sort_Forall.
  - intros n l m s s' cleared Hl Hm Hskip.
    assert (NoDup (startIdx events)) as Hnd.
    { rewrite (startIdx_perm events (buildList sorted 0 ∅)) by apply js_sort_perm.
      apply startIdx_buildList. }
    assert (NoDup (startIdx (take n events))
            ∧ (isStart l = true → idx l ∉ startIdx (take n events))) as [Hndn Hfreshl].
    { rewrite <- (take_drop_middle events n l Hl), startIdx_app, startIdx_cons in Hnd.
      apply NoDup_app in Hnd as (Hn1 & Hn2 & _). split; [done|].
      intros Hs Hin. rewrite Hs in Hn2. apply (Hn2 _ Hin). left. }
    destruct (fold_sweepInv ts sorted (take n events) (mkSweep ts sorted []))
      as [Hinv Hidx]; [|done| |].
    { split_and!; [apply Forall2_emittedAs_refl|apply NoDup_nil_2| |done].
      by intros e ?%elem_of_nil. }
    { by intros i _ ?%elem_of_nil. }
    fold (sweep ts sorted (take n events)) in Hinv, Hidx. fold s in Hinv, Hidx.
    assert (isStart l = true → idx l ∉ (sw_reserves s).*2) as Hfresh.
    { intros Hs Hin. destruct (Hidx _ Hin) as [?%elem_of_nil|Hin']; [done|].
      by apply Hfreshl. }
    pose proof (sweep_active_unskipped ts sorted (take (S n) events)) as Hunsk.
    fold s' in Hunsk.
    assert (s' = sweepStep s l) as Hs'.
    { subst s s'. unfold sweep. by rewrite (take_S_r _ _ _ Hl), fold_left_app. }
    clearbody s'. subst s'.
    destruct (sweepStep_inv ts sorted s l Hinv Hfresh) as [(_ & Hnd' & Hent' & _) _].
    destruct Hinv as (Hall & _ & _ & Hts).
    rewrite (sweepStep_active s l m Hm Hskip) in Hunsk, Hnd', Hent' |- *.
    cbv zeta in Hunsk, Hnd', Hent' |- *.
    cbn [sw_matches sw_reserves sw_tuners] in Hunsk, Hnd', Hent' |- *.
    rewrite Hts. fold cleared.
    set (active := nextActive (sw_reserves s) m l) in *.
    split_and!.
    + apply nextActive_perm.
    + done.
    + intros i m0 Hi. by apply evaluate_flags.
    + intros e tl Hhead. rewrite Hhead in Hunsk, Hnd', Hent' |- *.
      destruct (Hent' e) as (y & Hy & Hey); [left|].
      destruct (Forall2_lookup_l _ _ _ _ _ Hall Hy) as (m0 & Hm0 & Hym0).
      assert (isSkip m0 = false) as Hskip0.
      { destruct (emittedAs_fields _ _ Hym0) as (_ & _ & _ & _ & -> & _).
        apply Forall_cons in Hunsk as [He _].
        apply (f_equal isSkip) in Hey. simpl in Hey. congruence. }
      destruct (evaluate_flags cleared (sw_matches s) (e :: tl) e.2 m0 Hm0)
        as (b & Hb & Hiff).
      exists m0, b. split_and!; [done|done|].
      rewrite Hiff, (rejected_head cleared (sw_matches s) e tl m0 Hnd' Hskip0).
      unfold cleared. by rewrite addToTuners_clear_None.
  - intros n l m Hl Hm Hskip. unfold sweep.
    rewrite (take_S_r _ _ _ Hl), fold_left_app. cbn [fold_left].
    apply sweepStep_idle. intros m' Hm'.
    unfold sweep in Hm. congruence.
Qed.

Lemma createReserves_authority_witness :
  let sorted := js_sort sortReserveProgram [Scenario.P1; Scenario.P2] in
  let events := sortedEvents sorted in
  ∃ m0 b,
    sw_matches (sweep [Scenario.T0] sorted (take 1 events)) !! 0%nat = Some m0
    ∧ sw_matches (sweep [Scenario.T0] sorted (take 2 events)) !! 0%nat
      = Some (set_isConflict b m0)
    ∧ (b = true
       ↔ isConflict m0 = true
         ∨ Forall (λ tn, ProgramSchema.channelType (program m0) ∉ Tuner.types tn)
                  [Scenario.T0]).
Proof.
  exact (proj2 (proj2 (proj2
    (proj1 (proj2 (proj2 (proj2 (proj2 (proj2 (proj2
      (createReserves_authority [Scenario.T0] [Scenario.P1; Scenario.P2])))))))
      1%nat (mkEvent 150 true 0) Scenario.P2 eq_refl eq_refl eq_refl)))
    (Scenario.P2, 0%nat) [(Scenario.P1, 1%nat)] eq_refl).
Defined.
